(** * udisks: spawned-job supervisor, mount records and daemon utilities

    A shallow embedding of [src/udisksspawnedjob.c], [src/udisksmount.c] and
    [src/udisksdaemonutil.c], and what holds of them.

    Conventions.
    - A C string is a [string]: the bytes in front of the terminating NUL.
      Where the C code reads a buffer as a C string the model reads it
      through [c_str], which stops at the first NUL byte.
    - C integers are [Z]; conversions between widths are written out
      ([to_uint], [to_sint]).
    - A pointer field is an [option]: [None] is [NULL].
    - Library calls with an outside effect (close, kill, g_source_destroy,
      signal emissions ...) are recorded, in program order, in a trace.
    - What the sources take from headers that are not part of them (the
      wait-status macros, the signal numbers, the signedness of [char]) is
      a parameter; glibc on Linux is the instance used in the examples. *)

From Stdlib Require Import ZArith String Ascii List Bool Lia.
From Stdlib Require DecimalString HexadecimalString.
From stdpp Require Import base option gmap strings.
Import ListNotations.

Local Open Scope Z_scope.

(** ** C scalars and C strings *)

Module C.

(** Value of a byte as [unsigned char]. *)
Definition byte (c : ascii) : Z := Z.of_N (N_of_ascii c).

(** The byte with a given value (taken modulo 256). *)
Definition chr (v : Z) : ascii := ascii_of_N (Z.to_N (v mod 256)).

Definition NUL : ascii := chr 0.

(** Conversion to an unsigned, resp. two's complement signed, integer of
    [bits] bits. *)
Definition to_uint (bits : Z) (x : Z) : Z := x mod 2 ^ bits.

Definition to_sint (bits : Z) (x : Z) : Z :=
  let u := x mod 2 ^ bits in
  if u <? 2 ^ (bits - 1) then u else u - 2 ^ bits.

(** [gint] is a 32-bit [int]. *)
Definition to_gint : Z -> Z := to_sint 32.

(** The C string held by a buffer: everything before the first NUL. *)
Fixpoint c_str (buf : string) : string :=
  match buf with
  | EmptyString => EmptyString
  | String c rest => if byte c =? 0 then EmptyString else String c (c_str rest)
  end.

Definition strlen (buf : string) : nat := String.length (c_str buf).

(** [strcmp]: the difference of the first two bytes that differ, compared
    as [unsigned char]; the end of a [string] is its terminating NUL. *)
Fixpoint strcmp (a b : string) : Z :=
  match a, b with
  | EmptyString, EmptyString => 0
  | EmptyString, String d _ => 0 - byte d
  | String c _, EmptyString => byte c - 0
  | String c a', String d b' =>
      if byte c =? byte d
      then if byte c =? 0 then 0 else strcmp a' b'
      else byte c - byte d
  end.

(** [g_strcmp0]: [strcmp] that sorts [NULL] before every string. *)
Definition g_strcmp0 (str1 str2 : option string) : Z :=
  match str1, str2 with
  | None, None => 0
  | None, Some _ => -1
  | Some _, None => 1
  | Some a, Some b => strcmp a b
  end.

(** [g_strdup]: a private copy of a C string. *)
Definition g_strdup (s : option string) : option string :=
  match s with
  | None => None
  | Some buf => Some (c_str buf)
  end.

(** printf conversions. *)
Definition fmt_d (v : Z) : string :=
  DecimalString.NilZero.string_of_int (Z.to_int v).

(** [%02x]: the argument converted to [unsigned int], in lowercase
    hexadecimal, padded with zeros to at least two digits. *)
Definition fmt_02x (v : Z) : string :=
  let digits :=
    HexadecimalString.NilZero.string_of_uint (N.to_hex_uint (Z.to_N (to_uint 32 v))) in
  if (String.length digits <? 2)%nat then String "0"%char digits else digits.

Definition nl : string := String "010"%char EmptyString.

End C.

(** ** [src/udisksmount.c] *)

Module Mount.
Import C.

(** [dev_t] is an unsigned 64-bit integer (glibc). *)
Definition dev_bits : Z := 64.

Record UDisksMount : Type := {
  mount_path : option string;
  dev : Z
}.

Definition _udisks_mount_new (dev : Z) (mount_path : option string) : UDisksMount :=
  {| mount_path := g_strdup mount_path; dev := to_uint dev_bits dev |}.

Definition udisks_mount_get_mount_path (mount : UDisksMount) : option string :=
  mount_path mount.

Definition udisks_mount_get_dev (mount : UDisksMount) : Z := dev mount.

(** The difference of two [dev_t] is computed in [dev_t] and then stored
    in the [gint] [ret]. *)
Definition udisks_mount_compare (mount other_mount : UDisksMount) : Z :=
  let ret := g_strcmp0 (mount_path other_mount) (mount_path mount) in
  if negb (ret =? 0) then ret
  else to_gint (to_uint dev_bits (dev mount - dev other_mount)).

End Mount.

(** ** [src/udisksdaemonutil.c] *)

Module DaemonUtil.
Import C.

(** *** The allocator

    Blocks handed out by [g_malloc] and not yet given back, by address.
    A [GString] is the block of its character buffer. *)

Abbreviation ptr := positive (only parsing).
Abbreviation heap := (gmap positive string) (only parsing).

(** Heap-passing computations. *)
Definition M (A : Type) : Type := heap -> A * heap.

Definition ret {A} (a : A) : M A := fun h => (a, h).

Definition bind {A B} (m : M A) (k : A -> M B) : M B :=
  fun h => let (a, h') := m h in k a h'.

Notation "x <- m ;; k" := (bind m (fun x => k))
  (at level 100, m at next level, right associativity).
Notation "m ;;; k" := (bind m (fun _ => k))
  (at level 100, right associativity).

Definition g_malloc (contents : string) : M ptr :=
  fun h => let p := fresh (dom h) in (p, <[p := contents]> h).

Definition g_free (p : ptr) : M unit := fun h => (tt, delete p h).

Definition load (p : ptr) : M string := fun h => (default EmptyString (h !! p), h).

Definition g_string_new : M ptr := g_malloc EmptyString.

Definition g_string_append_c (s : ptr) (c : ascii) : M unit :=
  fun h => (tt, alter (fun buf => buf ++ String c EmptyString)%string s h).

(** [g_string_free (s, free_segment)]: with [TRUE] the character data goes
    too and [NULL] is returned; with [FALSE] the caller gets the buffer. *)
Definition g_string_free (s : ptr) (free_segment : bool) : M (option ptr) :=
  if free_segment then (g_free s ;;; ret None) else ret (Some s).

(** [g_strndup (str, n)]: a new block with the first [n] bytes of the C
    string [str]. *)
Definition g_strndup (str : string) (n : nat) : M ptr :=
  g_malloc (substring 0 n (c_str str)).

(** [g_ascii_xdigit_value]: the value of a hexadecimal digit, -1 for
    every other byte. *)
Definition g_ascii_xdigit_value (ch : ascii) : Z :=
  let c := byte ch in
  if (65 <=? c) && (c <=? 70) then c - 65 + 10
  else if (97 <=? c) && (c <=? 102) then c - 97 + 10
  else if (48 <=? c) && (c <=? 57) then c - 48
  else -1.

Definition backslash : Z := 92.
Definition letter_x : Z := 120.

(** The [for] loop of [udisks_decode_udev_string], on the unread rest
    [str + n] of the input. [break] and the end of the input both leave
    the loop. *)
Fixpoint decode_loop (str : string) (s : ptr) : M unit :=
  match str with
  | EmptyString => ret tt
  | String c0 rest =>
      if byte c0 =? 0 then ret tt
      else if byte c0 =? backslash then
        match rest with
        | String c1 (String c2 (String c3 rest')) =>
            if negb (byte c1 =? letter_x) || (byte c2 =? 0) || (byte c3 =? 0)
            then ret tt
            else
              let val :=
                Z.lor (Z.shiftl (g_ascii_xdigit_value c2) 4) (g_ascii_xdigit_value c3) in
              g_string_append_c s (chr val) ;;; decode_loop rest' s
        | _ => ret tt
        end
      else g_string_append_c s c0 ;;; decode_loop rest s
  end.

Section Decode.

(** [g_utf8_validate (str, -1, &end_valid)] of GLib: whether the C
    string is valid UTF-8, and the offset [end_valid - str] of the first
    byte that is not. *)
Variable g_utf8_validate : string -> bool * nat.

Definition udisks_decode_udev_string (str : option string) : M (option ptr) :=
  match str with
  | None => ret None
  | Some str =>
      s <- g_string_new ;;
      decode_loop str s ;;;
      s_str <- load s ;;
      let (valid, end_valid) := g_utf8_validate (c_str s_str) in
      if negb valid then
        r <- g_strndup s_str end_valid ;;
        g_string_free s true ;;;
        ret (Some r)
      else
        g_string_free s false
  end.

End Decode.

Section ObjectPath.

(** Whether plain [char] is a signed type: it is for the x86 and x86-64
    ABIs, it is not for ARM and PowerPC. *)
Variable char_is_signed : bool.

(** [gint c = s[n]]. *)
Definition gint_of_gchar (ch : ascii) : Z :=
  if char_is_signed then to_sint 8 (byte ch) else byte ch.

Definition is_alnum (c : Z) : bool :=
  ((65 <=? c) && (c <=? 90)) || ((97 <=? c) && (c <=? 122)) || ((48 <=? c) && (c <=? 57)).

(** What one iteration appends to [str]. *)
Definition append_one (ch : ascii) : string :=
  let c := gint_of_gchar ch in
  if is_alnum c then String (chr c) EmptyString
  else String "_"%char (fmt_02x c).

(** [str] is the contents of the [GString] appended to. *)
Fixpoint udisks_safe_append_to_object_path (str : string) (s : string) : string :=
  match s with
  | EmptyString => str
  | String ch rest =>
      if byte ch =? 0 then str
      else udisks_safe_append_to_object_path (str ++ append_one ch)%string rest
  end.

End ObjectPath.

End DaemonUtil.

(** ** [src/udisksspawnedjob.c] *)

Module SpawnedJob.
Import C.

(** *** What the job consumes from libc and GLib *)

(** The signals [get_signal_name] has a [case] for, in the order of the
    [switch]. *)
Inductive signal : Type :=
| SIGHUP | SIGINT | SIGQUIT | SIGILL | SIGABRT | SIGFPE | SIGKILL
| SIGSEGV | SIGPIPE | SIGALRM | SIGTERM | SIGUSR1 | SIGUSR2 | SIGCHLD
| SIGCONT | SIGSTOP | SIGTSTP | SIGTTIN | SIGTTOU | SIGBUS | SIGPOLL
| SIGPROF | SIGSYS | SIGTRAP | SIGURG | SIGVTALRM | SIGXCPU | SIGXFSZ.

(** [<sys/wait.h>] and [<signal.h>]: the macros that take a wait status
    apart, and the numbers of the signals. *)
Class Platform : Type := {
  WIFEXITED : Z -> bool;
  WEXITSTATUS : Z -> Z;
  WIFSIGNALED : Z -> bool;
  WTERMSIG : Z -> Z;
  signo : signal -> Z
}.

(** glibc on Linux (x86, x86-64, ARM). *)
Definition linux_signo (s : signal) : Z :=
  match s with
  | SIGHUP => 1 | SIGINT => 2 | SIGQUIT => 3 | SIGILL => 4 | SIGTRAP => 5
  | SIGABRT => 6 | SIGBUS => 7 | SIGFPE => 8 | SIGKILL => 9 | SIGUSR1 => 10
  | SIGSEGV => 11 | SIGUSR2 => 12 | SIGPIPE => 13 | SIGALRM => 14
  | SIGTERM => 15 | SIGCHLD => 17 | SIGCONT => 18 | SIGSTOP => 19
  | SIGTSTP => 20 | SIGTTIN => 21 | SIGTTOU => 22 | SIGURG => 23
  | SIGXCPU => 24 | SIGXFSZ => 25 | SIGVTALRM => 26 | SIGPROF => 27
  | SIGPOLL => 29 | SIGSYS => 31
  end.

Definition linux : Platform := {|
  WIFEXITED := fun status => Z.land status 127 =? 0;
  WEXITSTATUS := fun status => Z.shiftr (Z.land status 65280) 8;
  WIFSIGNALED := fun status => 0 <? Z.shiftr (to_sint 8 (Z.land status 127 + 1)) 1;
  WTERMSIG := fun status => Z.land status 127;
  signo := linux_signo
|}.

Record GError : Type := {
  domain : string;   (* g_quark_to_string (error->domain) *)
  code : Z;
  message : string
}.

Definition g_prefix_error (prefix : string) (error : GError) : GError :=
  {| domain := domain error; code := code error; message := prefix +:+ message error |}.

(** The error [g_cancellable_set_error_if_cancelled] sets:
    [G_IO_ERROR], [G_IO_ERROR_CANCELLED]. *)
Definition G_IO_ERROR : string := "g-io-error-quark".
Definition G_IO_ERROR_CANCELLED : Z := 19.

Definition cancelled_error : GError :=
  {| domain := G_IO_ERROR; code := G_IO_ERROR_CANCELLED;
     message := "Operation was cancelled" |}.

(** The token is the caller's or one the job made for itself. *)
Inductive GCancellable : Type := caller_token | own_token.

Definition GMainContext : Type := nat.

(** Handles are named by what they were made from. *)
Inductive GIOChannel : Type := g_io_channel_unix_new (fd : Z).
Inductive GIOCondition : Type := G_IO_IN | G_IO_OUT.
Inductive GSource : Type :=
| g_child_watch_source_new (pid : Z)
| g_io_create_watch (channel : GIOChannel) (condition : GIOCondition).

(** *** The job *)

Record UDisksSpawnedJob : Type := {
  command_line : string;
  cancellable : option GCancellable;
  cancellable_handler_id : N;
  main_context : option GMainContext;
  input_string : option string;
  (* offset of the cursor from the start of input_string *)
  input_string_cursor : option nat;
  child_pid : Z;
  child_stdin_fd : Z;
  child_stdout_fd : Z;
  child_stderr_fd : Z;
  child_stdin_channel : option GIOChannel;
  child_stdout_channel : option GIOChannel;
  child_stderr_channel : option GIOChannel;
  child_watch_source : option GSource;
  child_stdin_source : option GSource;
  child_stdout_source : option GSource;
  child_stderr_source : option GSource;
  child_stdout : option string;
  child_stderr : option string
}.

(** What the job does to the outside, in program order. *)
Inductive Effect : Type :=
| g_source_destroy (source : GSource)
| kill (pid : Z) (sig : signal)
| reaper_attached (pid : Z) (context : option GMainContext)
| g_string_free (contents : string)
| g_io_channel_unref (channel : GIOChannel)
| close (fd : Z)
| g_cancellable_disconnect (handler_id : N)
| cancellable_unref (c : GCancellable)
| g_main_context_unref (context : GMainContext)
| command_line_freed
| input_string_freed (contents : string)
| g_io_channel_write_chars (buf : string) (bytes_written : nat)
| g_io_channel_flush
| spawned_job_completed (error : option GError) (status : Z)
    (standard_output standard_error : option string)
| job_completed (success : bool) (message : string)
| null_dereference.

(** A library call on a [NULL] handle returns at its
    [g_return_if_fail]. *)
Definition on_handle {A} (f : A -> Effect) (h : option A) : list Effect :=
  match h with
  | Some a => [f a]
  | None => []
  end.

Definition non_null {A} (p : option A) : bool :=
  match p with
  | Some _ => true
  | None => false
  end.

(** *** Record updates *)

Definition set_cancellation (id : N) (c : option GCancellable) (j : UDisksSpawnedJob) :=
  {| command_line := command_line j; cancellable := c; cancellable_handler_id := id;
     main_context := main_context j; input_string := input_string j;
     input_string_cursor := input_string_cursor j; child_pid := child_pid j;
     child_stdin_fd := child_stdin_fd j; child_stdout_fd := child_stdout_fd j;
     child_stderr_fd := child_stderr_fd j;
     child_stdin_channel := child_stdin_channel j;
     child_stdout_channel := child_stdout_channel j;
     child_stderr_channel := child_stderr_channel j;
     child_watch_source := child_watch_source j;
     child_stdin_source := child_stdin_source j;
     child_stdout_source := child_stdout_source j;
     child_stderr_source := child_stderr_source j;
     child_stdout := child_stdout j; child_stderr := child_stderr j |}.

Definition set_input (s : option string) (cur : option nat) (j : UDisksSpawnedJob) :=
  {| command_line := command_line j; cancellable := cancellable j;
     cancellable_handler_id := cancellable_handler_id j;
     main_context := main_context j; input_string := s;
     input_string_cursor := cur; child_pid := child_pid j;
     child_stdin_fd := child_stdin_fd j; child_stdout_fd := child_stdout_fd j;
     child_stderr_fd := child_stderr_fd j;
     child_stdin_channel := child_stdin_channel j;
     child_stdout_channel := child_stdout_channel j;
     child_stderr_channel := child_stderr_channel j;
     child_watch_source := child_watch_source j;
     child_stdin_source := child_stdin_source j;
     child_stdout_source := child_stdout_source j;
     child_stderr_source := child_stderr_source j;
     child_stdout := child_stdout j; child_stderr := child_stderr j |}.

Definition set_child (pid : Z) (watch : option GSource) (j : UDisksSpawnedJob) :=
  {| command_line := command_line j; cancellable := cancellable j;
     cancellable_handler_id := cancellable_handler_id j;
     main_context := main_context j; input_string := input_string j;
     input_string_cursor := input_string_cursor j; child_pid := pid;
     child_stdin_fd := child_stdin_fd j; child_stdout_fd := child_stdout_fd j;
     child_stderr_fd := child_stderr_fd j;
     child_stdin_channel := child_stdin_channel j;
     child_stdout_channel := child_stdout_channel j;
     child_stderr_channel := child_stderr_channel j;
     child_watch_source := watch;
     child_stdin_source := child_stdin_source j;
     child_stdout_source := child_stdout_source j;
     child_stderr_source := child_stderr_source j;
     child_stdout := child_stdout j; child_stderr := child_stderr j |}.

Definition set_stdin (fd : Z) (ch : option GIOChannel) (src : option GSource)
    (j : UDisksSpawnedJob) :=
  {| command_line := command_line j; cancellable := cancellable j;
     cancellable_handler_id := cancellable_handler_id j;
     main_context := main_context j; input_string := input_string j;
     input_string_cursor := input_string_cursor j; child_pid := child_pid j;
     child_stdin_fd := fd; child_stdout_fd := child_stdout_fd j;
     child_stderr_fd := child_stderr_fd j;
     child_stdin_channel := ch;
     child_stdout_channel := child_stdout_channel j;
     child_stderr_channel := child_stderr_channel j;
     child_watch_source := child_watch_source j;
     child_stdin_source := src;
     child_stdout_source := child_stdout_source j;
     child_stderr_source := child_stderr_source j;
     child_stdout := child_stdout j; child_stderr := child_stderr j |}.

Definition set_stdout (fd : Z) (ch : option GIOChannel) (src : option GSource)
    (buf : option string) (j : UDisksSpawnedJob) :=
  {| command_line := command_line j; cancellable := cancellable j;
     cancellable_handler_id := cancellable_handler_id j;
     main_context := main_context j; input_string := input_string j;
     input_string_cursor := input_string_cursor j; child_pid := child_pid j;
     child_stdin_fd := child_stdin_fd j; child_stdout_fd := fd;
     child_stderr_fd := child_stderr_fd j;
     child_stdin_channel := child_stdin_channel j;
     child_stdout_channel := ch;
     child_stderr_channel := child_stderr_channel j;
     child_watch_source := child_watch_source j;
     child_stdin_source := child_stdin_source j;
     child_stdout_source := src;
     child_stderr_source := child_stderr_source j;
     child_stdout := buf; child_stderr := child_stderr j |}.

Definition set_stderr (fd : Z) (ch : option GIOChannel) (src : option GSource)
    (buf : option string) (j : UDisksSpawnedJob) :=
  {| command_line := command_line j; cancellable := cancellable j;
     cancellable_handler_id := cancellable_handler_id j;
     main_context := main_context j; input_string := input_string j;
     input_string_cursor := input_string_cursor j; child_pid := child_pid j;
     child_stdin_fd := child_stdin_fd j; child_stdout_fd := child_stdout_fd j;
     child_stderr_fd := fd;
     child_stdin_channel := child_stdin_channel j;
     child_stdout_channel := child_stdout_channel j;
     child_stderr_channel := ch;
     child_watch_source := child_watch_source j;
     child_stdin_source := child_stdin_source j;
     child_stdout_source := child_stdout_source j;
     child_stderr_source := src;
     child_stdout := child_stdout j; child_stderr := buf |}.

Definition set_main_context (c : option GMainContext) (j : UDisksSpawnedJob) :=
  {| command_line := command_line j; cancellable := cancellable j;
     cancellable_handler_id := cancellable_handler_id j;
     main_context := c; input_string := input_string j;
     input_string_cursor := input_string_cursor j; child_pid := child_pid j;
     child_stdin_fd := child_stdin_fd j; child_stdout_fd := child_stdout_fd j;
     child_stderr_fd := child_stderr_fd j;
     child_stdin_channel := child_stdin_channel j;
     child_stdout_channel := child_stdout_channel j;
     child_stderr_channel := child_stderr_channel j;
     child_watch_source := child_watch_source j;
     child_stdin_source := child_stdin_source j;
     child_stdout_source := child_stdout_source j;
     child_stderr_source := child_stderr_source j;
     child_stdout := child_stdout j; child_stderr := child_stderr j |}.

(** *** Release *)

(** A guarded block of the release routine: the job after it, and what
    it did. *)
Definition Step : Type := UDisksSpawnedJob -> UDisksSpawnedJob * list Effect.

Fixpoint run_steps (steps : list Step) (job : UDisksSpawnedJob)
  : UDisksSpawnedJob * list Effect :=
  match steps with
  | [] => (job, [])
  | step :: rest =>
      let (job, t) := step job in
      let (job, t') := run_steps rest job in
      (job, t ++ t')
  end.

(** The blocks of [udisks_spawned_job_release_resources], top to
    bottom. *)
Definition release_steps : list Step :=
  [
    (fun job =>
      match child_watch_source job with
      | Some source => (set_child (child_pid job) None job, [g_source_destroy source])
      | None => (job, [])
      end);
    (fun job =>
      if negb (child_pid job =? 0)
      then (set_child 0 (child_watch_source job) job,
            [kill (child_pid job) SIGTERM; reaper_attached (child_pid job) (main_context job)])
      else (job, []));
    (fun job =>
      match child_stdout job with
      | Some buf =>
          (set_stdout (child_stdout_fd job) (child_stdout_channel job)
             (child_stdout_source job) None job, [g_string_free buf])
      | None => (job, [])
      end);
    (fun job =>
      match child_stderr job with
      | Some buf =>
          (set_stderr (child_stderr_fd job) (child_stderr_channel job)
             (child_stderr_source job) None job, [g_string_free buf])
      | None => (job, [])
      end);
    (fun job =>
      match child_stdin_channel job with
      | Some ch =>
          (set_stdin (child_stdin_fd job) None (child_stdin_source job) job,
           [g_io_channel_unref ch])
      | None => (job, [])
      end);
    (fun job =>
      match child_stdout_channel job with
      | Some ch =>
          (set_stdout (child_stdout_fd job) None (child_stdout_source job)
             (child_stdout job) job, [g_io_channel_unref ch])
      | None => (job, [])
      end);
    (fun job =>
      match child_stderr_channel job with
      | Some ch =>
          (set_stderr (child_stderr_fd job) None (child_stderr_source job)
             (child_stderr job) job, [g_io_channel_unref ch])
      | None => (job, [])
      end);
    (fun job =>
      match child_stdin_source job with
      | Some source =>
          (set_stdin (child_stdin_fd job) (child_stdin_channel job) None job,
           [g_source_destroy source])
      | None => (job, [])
      end);
    (fun job =>
      match child_stdout_source job with
      | Some source =>
          (set_stdout (child_stdout_fd job) (child_stdout_channel job) None
             (child_stdout job) job, [g_source_destroy source])
      | None => (job, [])
      end);
    (fun job =>
      match child_stderr_source job with
      | Some source =>
          (set_stderr (child_stderr_fd job) (child_stderr_channel job) None
             (child_stderr job) job, [g_source_destroy source])
      | None => (job, [])
      end);
    (fun job =>
      if negb (child_stdin_fd job =? -1)
      then (set_stdin (-1) (child_stdin_channel job) (child_stdin_source job) job,
            [close (child_stdin_fd job)])
      else (job, []));
    (fun job =>
      if negb (child_stdout_fd job =? -1)
      then (set_stdout (-1) (child_stdout_channel job) (child_stdout_source job)
              (child_stdout job) job, [close (child_stdout_fd job)])
      else (job, []));
    (fun job =>
      if negb (child_stderr_fd job =? -1)
      then (set_stderr (-1) (child_stderr_channel job) (child_stderr_source job)
              (child_stderr job) job, [close (child_stderr_fd job)])
      else (job, []));
    (fun job =>
      if (0 <? cancellable_handler_id job)%N
      then (set_cancellation 0 (cancellable job) job,
            [g_cancellable_disconnect (cancellable_handler_id job)])
      else (job, []));
    (fun job =>
      match cancellable job with
      | Some c => (set_cancellation (cancellable_handler_id job) None job, [cancellable_unref c])
      | None => (job, [])
      end)
  ].

Definition udisks_spawned_job_release_resources (job : UDisksSpawnedJob)
  : UDisksSpawnedJob * list Effect :=
  run_steps release_steps job.

(** The job with every sentinel of the release routine reset. *)
Definition released (j : UDisksSpawnedJob) : UDisksSpawnedJob :=
  {| command_line := command_line j; cancellable := None; cancellable_handler_id := 0;
     main_context := main_context j; input_string := input_string j;
     input_string_cursor := input_string_cursor j; child_pid := 0;
     child_stdin_fd := -1; child_stdout_fd := -1; child_stderr_fd := -1;
     child_stdin_channel := None; child_stdout_channel := None;
     child_stderr_channel := None; child_watch_source := None;
     child_stdin_source := None; child_stdout_source := None;
     child_stderr_source := None; child_stdout := None; child_stderr := None |}.

(** *** The I/O pump *)

Definition skip (n : nat) (s : string) : string :=
  substring n (String.length s - n) s.

(** The C string the cursor points at. *)
Definition cursor_str (job : UDisksSpawnedJob) (cursor : nat) : string :=
  match input_string job with
  | Some buf => c_str (skip cursor buf)
  | None => EmptyString
  end.

(** [g_io_channel_read_chars (channel, buf, sizeof buf, ...)] gives at most
    1024 of the bytes there are. *)
Definition read_chars (available : string) : string := substring 0 1024 available.

Definition g_string_append_len (s : option string) (buf : string) : option string :=
  match s with
  | Some contents => Some (contents +:+ buf)
  | None => None
  end.

Definition read_child_stderr (job : UDisksSpawnedJob) (available : string)
  : UDisksSpawnedJob * bool :=
  (set_stderr (child_stderr_fd job) (child_stderr_channel job) (child_stderr_source job)
     (g_string_append_len (child_stderr job) (read_chars available)) job, true).

Definition read_child_stdout (job : UDisksSpawnedJob) (available : string)
  : UDisksSpawnedJob * bool :=
  (set_stdout (child_stdout_fd job) (child_stdout_channel job) (child_stdout_source job)
     (g_string_append_len (child_stdout job) (read_chars available)) job, true).

(** [accepted]: how many bytes the channel is ready to take; it takes no
    more than it is offered. The [bool] is what the callback returns:
    [TRUE] keeps the source, [FALSE] removes it. *)
Definition write_child_stdin (job : UDisksSpawnedJob) (accepted : nat)
  : UDisksSpawnedJob * list Effect * bool :=
  let nothing_left :=
    match input_string_cursor job with
    | None => true
    | Some cursor => (String.length (cursor_str job cursor) =? 0)%nat
    end in
  if nothing_left then
    (* nothing left to write; close our end so the child will get EOF *)
    (set_stdin (-1) None None job,
     on_handle g_io_channel_unref (child_stdin_channel job)
       ++ on_handle g_source_destroy (child_stdin_source job)
       ++ [close (child_stdin_fd job)],
     false)
  else
    let cursor := default 0%nat (input_string_cursor job) in
    let buf := cursor_str job cursor in
    let bytes_written := Nat.min accepted (String.length buf) in
    (set_input (input_string job) (Some (cursor + bytes_written)%nat) job,
     [g_io_channel_write_chars buf bytes_written; g_io_channel_flush],
     true).

(** *** The default classification *)

Definition get_signal_table : list signal :=
  [SIGHUP; SIGINT; SIGQUIT; SIGILL; SIGABRT; SIGFPE; SIGKILL; SIGSEGV; SIGPIPE;
   SIGALRM; SIGTERM; SIGUSR1; SIGUSR2; SIGCHLD; SIGCONT; SIGSTOP; SIGTSTP;
   SIGTTIN; SIGTTOU; SIGBUS; SIGPOLL; SIGPROF; SIGSYS; SIGTRAP; SIGURG;
   SIGVTALRM; SIGXCPU; SIGXFSZ].

(** [#sig] *)
Definition stringify (s : signal) : string :=
  match s with
  | SIGHUP => "SIGHUP" | SIGINT => "SIGINT" | SIGQUIT => "SIGQUIT"
  | SIGILL => "SIGILL" | SIGABRT => "SIGABRT" | SIGFPE => "SIGFPE"
  | SIGKILL => "SIGKILL" | SIGSEGV => "SIGSEGV" | SIGPIPE => "SIGPIPE"
  | SIGALRM => "SIGALRM" | SIGTERM => "SIGTERM" | SIGUSR1 => "SIGUSR1"
  | SIGUSR2 => "SIGUSR2" | SIGCHLD => "SIGCHLD" | SIGCONT => "SIGCONT"
  | SIGSTOP => "SIGSTOP" | SIGTSTP => "SIGTSTP" | SIGTTIN => "SIGTTIN"
  | SIGTTOU => "SIGTTOU" | SIGBUS => "SIGBUS" | SIGPOLL => "SIGPOLL"
  | SIGPROF => "SIGPROF" | SIGSYS => "SIGSYS" | SIGTRAP => "SIGTRAP"
  | SIGURG => "SIGURG" | SIGVTALRM => "SIGVTALRM" | SIGXCPU => "SIGXCPU"
  | SIGXFSZ => "SIGXFSZ"
  end.

(** [%s] prints a C string. *)
Definition fmt_s (s : string) : string := c_str s.

Section Classification.

Context {P : Platform}.

(** The [switch]: the [case] whose label is [signal_number], if any. *)
Definition get_signal_name (signal_number : Z) : string :=
  match find (fun s => signo s =? signal_number) get_signal_table with
  | Some s => stringify s
  | None => "UNKNOWN_SIGNAL"
  end.

(** The class handler of the signal. What it emits is what it does; it
    reads [standard_output->str], so with a [NULL] buffer it faults. *)
Definition udisks_spawned_job_spawned_job_completed_default
    (job : UDisksSpawnedJob) (error : option GError) (status : Z)
    (standard_output standard_error : option string) : list Effect :=
  match error with
  | Some error =>
      [job_completed false
         ("Failed to execute command-line `" +:+ fmt_s (command_line job) +:+ "': "
            +:+ fmt_s (message error) +:+ " (" +:+ fmt_s (domain error) +:+ ", "
            +:+ fmt_d (code error) +:+ ")")]
  | None =>
      if WIFEXITED status && (WEXITSTATUS status =? 0)
      then [job_completed true EmptyString]
      else
        let message :=
          if WIFEXITED status then
            "Command-line `" +:+ fmt_s (command_line job)
              +:+ "' exited with non-zero exit status "
              +:+ fmt_d (WEXITSTATUS status) +:+ "." +:+ nl
          else if WIFSIGNALED status then
            "Command-line `" +:+ fmt_s (command_line job)
              +:+ "' was signaled with signal "
              +:+ fmt_s (get_signal_name (WTERMSIG status)) +:+ " ("
              +:+ fmt_d (WTERMSIG status) +:+ ")." +:+ nl
          else EmptyString in
        match standard_output, standard_error with
        | Some out, Some err =>
            [job_completed false
               (message +:+ "stdout: `" +:+ fmt_s out +:+ "'" +:+ nl
                  +:+ "stderr: `" +:+ fmt_s err +:+ "'")]
        | _, _ => [null_dereference]
        end
  end.

End Classification.

(** *** The job on its main loop *)

(** An idle source made by [emit_completed_with_error_in_idle]: the
    context it is attached to and the error of its [EmitCompletedData]. It
    holds a reference to the job. *)
Record IdleSource : Type := {
  idle_context : option GMainContext;
  idle_error : GError
}.

Record World : Type := {
  job : UDisksSpawnedJob;
  (* reference count of the object; 0 once it is finalized *)
  ref_count : nat;
  (* the caller of udisks_spawned_job_new still has its reference *)
  owner_ref : bool;
  (* g_cancellable_is_cancelled of the token the job was made with *)
  token_cancelled : bool;
  (* idle sources attached and not yet dispatched, oldest first *)
  idle_sources : list IdleSource;
  trace : list Effect
}.

Definition with_job (j : UDisksSpawnedJob) (w : World) : World :=
  {| job := j; ref_count := ref_count w; owner_ref := owner_ref w;
     token_cancelled := token_cancelled w; idle_sources := idle_sources w;
     trace := trace w |}.

Definition with_ref_count (n : nat) (w : World) : World :=
  {| job := job w; ref_count := n; owner_ref := owner_ref w;
     token_cancelled := token_cancelled w; idle_sources := idle_sources w;
     trace := trace w |}.

Definition with_idle_sources (l : list IdleSource) (w : World) : World :=
  {| job := job w; ref_count := ref_count w; owner_ref := owner_ref w;
     token_cancelled := token_cancelled w; idle_sources := l;
     trace := trace w |}.

Definition with_token (cancelled : bool) (w : World) : World :=
  {| job := job w; ref_count := ref_count w; owner_ref := owner_ref w;
     token_cancelled := cancelled; idle_sources := idle_sources w;
     trace := trace w |}.

Definition with_owner_ref (b : bool) (w : World) : World :=
  {| job := job w; ref_count := ref_count w; owner_ref := b;
     token_cancelled := token_cancelled w; idle_sources := idle_sources w;
     trace := trace w |}.

Definition log (t : list Effect) (w : World) : World :=
  {| job := job w; ref_count := ref_count w; owner_ref := owner_ref w;
     token_cancelled := token_cancelled w; idle_sources := idle_sources w;
     trace := trace w ++ t |}.

(** [memset (buf, c, n)] *)
Fixpoint memset (buf : string) (c : ascii) (n : nat) : string :=
  match n, buf with
  | S n', String _ rest => String c (memset rest c n')
  | _, _ => buf
  end.

Definition udisks_spawned_job_finalize (w : World) : World :=
  let (j, t) := udisks_spawned_job_release_resources (job w) in
  let w := log t (with_job j w) in
  let w := log (on_handle g_main_context_unref (main_context j)) w in
  let w := log [command_line_freed] w in
  (* input string may contain key material - nuke contents *)
  let w :=
    match input_string j with
    | Some buf =>
        let zeroed := memset buf NUL (strlen buf) in
        log [input_string_freed zeroed]
          (with_job (set_input (Some zeroed) (input_string_cursor j) j) w)
    | None => w
    end in
  with_ref_count 0 w.

Definition g_object_ref (w : World) : World := with_ref_count (S (ref_count w)) w.

(** Dropping the last reference finalizes the object. *)
Definition g_object_unref (w : World) : World :=
  match ref_count w with
  | O => w
  | S O => udisks_spawned_job_finalize w
  | S n => with_ref_count n w
  end.

(** What [g_spawn_async_with_pipes] hands back: the pid of the child and
    the parent's ends of the pipes. *)
Record Spawned : Type := {
  spawned_pid : positive;
  spawned_stdin : N;
  spawned_stdout : N;
  spawned_stderr : N
}.

(** The outside of a job: the handlers connected to
    [spawned-job-completed] (whether one of them says it handled the
    emission), and what GLib answers while the job is constructed. *)
Record Environment : Type := {
  subscriber : option GError -> Z -> option string -> option string -> bool;
  g_main_context_get_thread_default : option GMainContext;
  (* the handler id g_cancellable_connect returns *)
  g_cancellable_connect : positive;
  g_shell_parse_argv : string -> GError + list string;
  g_spawn_async_with_pipes : list string -> GError + Spawned
}.

Section Loop.

Context {P : Platform}.
Variable env : Environment.

(** [g_signal_emit (job, signals[SPAWNED_JOB_COMPLETED_SIGNAL], ...)]: a
    [G_SIGNAL_RUN_LAST] signal accumulated with
    [g_signal_accumulator_true_handled]; the class handler runs unless a
    connected handler returned [TRUE]. *)
Definition g_signal_emit (w : World) (error : option GError) (status : Z)
    (standard_output standard_error : option string) : World :=
  let w := log [spawned_job_completed error status standard_output standard_error] w in
  if subscriber env error status standard_output standard_error then w
  else
    log (udisks_spawned_job_spawned_job_completed_default (job w) error status
           standard_output standard_error) w.

Definition emit_completed_with_error_in_idle_cb (w : World) (data : IdleSource) : World :=
  let w := g_signal_emit w (Some (idle_error data)) 0 None None in
  g_object_unref w.

Definition emit_completed_with_error_in_idle (w : World) (error : option GError) : World :=
  match error with
  | None => w
  | Some error =>
      let w := g_object_ref w in
      with_idle_sources
        (idle_sources w ++
           [{| idle_context := main_context (job w); idle_error := error |}]) w
  end.

Definition g_cancellable_set_error_if_cancelled (w : World) : option GError :=
  match cancellable (job w) with
  | Some _ => if token_cancelled w then Some cancelled_error else None
  | None => None
  end.

(** called in the thread where the token was cancelled *)
Definition on_cancelled (w : World) : World :=
  emit_completed_with_error_in_idle w (g_cancellable_set_error_if_cancelled w).

(** [stdout_rest], [stderr_rest]: what [g_io_channel_read_to_end] finds
    in each pipe, [None] when it does not return
    [G_IO_STATUS_NORMAL]. *)
Definition read_to_end (channel : option GIOChannel) (rest : option string)
    (buf : option string) : option string :=
  match channel, rest with
  | Some _, Some data => g_string_append_len buf data
  | _, _ => buf
  end.

Definition child_watch_cb (w : World) (status : Z)
    (stdout_rest stderr_rest : option string) : World :=
  let j := job w in
  let j := set_stdout (child_stdout_fd j) (child_stdout_channel j) (child_stdout_source j)
             (read_to_end (child_stdout_channel j) stdout_rest (child_stdout j)) j in
  let j := set_stderr (child_stderr_fd j) (child_stderr_channel j) (child_stderr_source j)
             (read_to_end (child_stderr_channel j) stderr_rest (child_stderr j)) j in
  let w := with_job j w in
  (* take a reference so it's safe for a signal-handler to release the last one *)
  let w := g_object_ref w in
  let w := g_signal_emit w None status (child_stdout j) (child_stderr j) in
  let w := with_job (set_child 0 None (job w)) w in
  let (j', t) := udisks_spawned_job_release_resources (job w) in
  let w := log t (with_job j' w) in
  g_object_unref w.

Definition udisks_spawned_job_constructed (w : World) : World :=
  let j := job w in
  let j :=
    match cancellable j with
    | None => set_cancellation (cancellable_handler_id j) (Some own_token) j
    | Some _ => j
    end in
  let j := set_main_context (g_main_context_get_thread_default env) j in
  let w := with_job j w in
  (* could already be cancelled *)
  match g_cancellable_set_error_if_cancelled w with
  | Some error => emit_completed_with_error_in_idle w (Some error)
  | None =>
      let j := set_cancellation (Npos (g_cancellable_connect env)) (cancellable j) j in
      let w := with_job j w in
      match g_shell_parse_argv env (command_line j) with
      | inl error =>
          emit_completed_with_error_in_idle w
            (Some (g_prefix_error
                     ("Error parsing command-line `" +:+ fmt_s (command_line j) +:+ "': ")
                     error))
      | inr child_argv =>
          match g_spawn_async_with_pipes env child_argv with
          | inl error =>
              emit_completed_with_error_in_idle w
                (Some (g_prefix_error
                         ("Error spawning command-line `" +:+ fmt_s (command_line j)
                            +:+ "': ")
                         error))
          | inr child =>
              let pid := Zpos (spawned_pid child) in
              let j := set_stdin
                         (if non_null (input_string j) then Z.of_N (spawned_stdin child)
                          else child_stdin_fd j)
                         (child_stdin_channel j) (child_stdin_source j) j in
              let j := set_child pid (Some (g_child_watch_source_new pid)) j in
              let j :=
                if negb (child_stdin_fd j =? -1) then
                  let ch := g_io_channel_unix_new (child_stdin_fd j) in
                  set_stdin (child_stdin_fd j) (Some ch)
                    (Some (g_io_create_watch ch G_IO_OUT))
                    (set_input (input_string j)
                       (if non_null (input_string j) then Some 0%nat else None) j)
                else j in
              let out := g_io_channel_unix_new (Z.of_N (spawned_stdout child)) in
              let j := set_stdout (Z.of_N (spawned_stdout child)) (Some out)
                         (Some (g_io_create_watch out G_IO_IN)) (Some EmptyString) j in
              let err := g_io_channel_unix_new (Z.of_N (spawned_stderr child)) in
              let j := set_stderr (Z.of_N (spawned_stderr child)) (Some err)
                         (Some (g_io_create_watch err G_IO_IN)) (Some EmptyString) j in
              with_job j w
          end
      end
  end.

Definition udisks_spawned_job_init : UDisksSpawnedJob :=
  {| command_line := EmptyString; cancellable := None; cancellable_handler_id := 0;
     main_context := None; input_string := None; input_string_cursor := None;
     child_pid := 0; child_stdin_fd := -1; child_stdout_fd := -1;
     child_stderr_fd := -1; child_stdin_channel := None;
     child_stdout_channel := None; child_stderr_channel := None;
     child_watch_source := None; child_stdin_source := None;
     child_stdout_source := None; child_stderr_source := None;
     child_stdout := None; child_stderr := None |}.

(** [cancellable]: [None] for [NULL], else whether the caller's token
    is cancelled already. The construct-only properties are set, then
    [constructed] runs. *)
Definition udisks_spawned_job_new (command_line : string)
    (input_string : option string) (cancellable : option bool) : World :=
  let j := udisks_spawned_job_init in
  let j :=
    {| command_line := c_str command_line;
       cancellable := if non_null cancellable then Some caller_token else None;
       cancellable_handler_id := cancellable_handler_id j;
       main_context := main_context j;
       input_string := g_strdup input_string;
       input_string_cursor := input_string_cursor j; child_pid := child_pid j;
       child_stdin_fd := child_stdin_fd j; child_stdout_fd := child_stdout_fd j;
       child_stderr_fd := child_stderr_fd j;
       child_stdin_channel := child_stdin_channel j;
       child_stdout_channel := child_stdout_channel j;
       child_stderr_channel := child_stderr_channel j;
       child_watch_source := child_watch_source j;
       child_stdin_source := child_stdin_source j;
       child_stdout_source := child_stdout_source j;
       child_stderr_source := child_stderr_source j;
       child_stdout := child_stdout j; child_stderr := child_stderr j |} in
  udisks_spawned_job_constructed
    {| job := j; ref_count := 1; owner_ref := true;
       token_cancelled := default false cancellable;
       idle_sources := []; trace := [] |}.

(** What can happen to a job once it is constructed. *)
Inductive Event : Type :=
(* some thread cancels the token *)
| token_cancel
(* the loop dispatches the oldest idle source *)
| idle_dispatch
(* the child is gone and the loop dispatches the child watch *)
| child_exited (status : Z) (stdout_rest stderr_rest : option string)
| stdin_writable (accepted : nat)
| stdout_readable (available : string)
| stderr_readable (available : string)
(* the caller drops its reference *)
| owner_unref.

(** One event. A source that is not attached is not dispatched, a
    handler that is not connected is not called. *)
Definition dispatch (w : World) (e : Event) : World :=
  match e with
  | token_cancel =>
      if token_cancelled w then w
      else
        let w := with_token true w in
        if (0 <? cancellable_handler_id (job w))%N then on_cancelled w else w
  | idle_dispatch =>
      match idle_sources w with
      | data :: rest =>
          emit_completed_with_error_in_idle_cb (with_idle_sources rest w) data
      | [] => w
      end
  | child_exited status stdout_rest stderr_rest =>
      match child_watch_source (job w) with
      | Some _ => child_watch_cb w status stdout_rest stderr_rest
      | None => w
      end
  | stdin_writable accepted =>
      match child_stdin_source (job w) with
      | Some _ =>
          let '(j, t, _) := write_child_stdin (job w) accepted in
          log t (with_job j w)
      | None => w
      end
  | stdout_readable available =>
      match child_stdout_source (job w) with
      | Some _ => with_job (fst (read_child_stdout (job w) available)) w
      | None => w
      end
  | stderr_readable available =>
      match child_stderr_source (job w) with
      | Some _ => with_job (fst (read_child_stderr (job w) available)) w
      | None => w
      end
  | owner_unref =>
      if owner_ref w then g_object_unref (with_owner_ref false w) else w
  end.

Definition run (events : list Event) (w : World) : World :=
  fold_left dispatch events w.

(** How often [spawned-job-completed] was emitted. *)
Definition is_completion (e : Effect) : bool :=
  match e with
  | spawned_job_completed _ _ _ _ => true
  | _ => false
  end.

Definition completions (w : World) : nat :=
  length (List.filter is_completion (trace w)).

End Loop.

End SpawnedJob.

(** * Notions used in the statements *)

Import C Mount DaemonUtil SpawnedJob.

(** The two bytes of the UTF-8 encoding of U+00E9. *)
Definition e_acute : string := String (chr 195) (String (chr 169) EmptyString).

Definition hex_digit (v : Z) : ascii :=
  match String.get (Z.to_nat v) "0123456789abcdef" with
  | Some c => c
  | None => "?"%char
  end.

(** What the claim asks of one byte. *)
Definition escaped (ch : ascii) : string :=
  if is_alnum (byte ch) then String ch EmptyString
  else String "_" (String (hex_digit (byte ch / 16))
                     (String (hex_digit (byte ch mod 16)) EmptyString)).

(** The loop appends, byte by byte, up to the end of the C string. *)
Fixpoint concat_map (f : ascii -> string) (s : string) : string :=
  match s with
  | EmptyString => EmptyString
  | String c rest => f c +:+ concat_map f rest
  end.

(** What release does is teardown: it emits nothing, writes nothing to the
    child and leaves the input string alone. *)
Definition is_teardown (e : Effect) : Prop :=
  match e with
  | spawned_job_completed _ _ _ _ | job_completed _ _ | input_string_freed _
  | null_dereference | g_io_channel_write_chars _ _ | g_io_channel_flush => False
  | _ => True
  end.

(** The C string at [input_string + input_string_cursor]; nothing when
    the cursor is [NULL]. *)
Definition remaining_input (job : UDisksSpawnedJob) : string :=
  match input_string_cursor job with
  | Some cursor => cursor_str job cursor
  | None => EmptyString
  end.

Definition cat_job : UDisksSpawnedJob :=
  {| command_line := "/bin/cat"; cancellable := Some own_token;
     cancellable_handler_id := 1; main_context := None;
     input_string := Some "hello"; input_string_cursor := Some 3%nat;
     child_pid := 4242; child_stdin_fd := 5; child_stdout_fd := 6;
     child_stderr_fd := 7;
     child_stdin_channel := Some (g_io_channel_unix_new 5);
     child_stdout_channel := Some (g_io_channel_unix_new 6);
     child_stderr_channel := Some (g_io_channel_unix_new 7);
     child_watch_source := Some (g_child_watch_source_new 4242);
     child_stdin_source := Some (g_io_create_watch (g_io_channel_unix_new 5) G_IO_OUT);
     child_stdout_source := Some (g_io_create_watch (g_io_channel_unix_new 6) G_IO_IN);
     child_stderr_source := Some (g_io_create_watch (g_io_channel_unix_new 7) G_IO_IN);
     child_stdout := Some EmptyString; child_stderr := Some EmptyString |}.

(** What the class handler emits. *)
Definition is_report (e : Effect) : Prop :=
  match e with
  | job_completed _ _ | null_dereference => True
  | _ => False
  end.

(** What finalizing frees of the input string: the block as it is
    then. *)
Definition input_string_frees (j : UDisksSpawnedJob) : list Effect :=
  match input_string j with
  | Some buf => [input_string_freed (memset buf NUL (strlen buf))]
  | None => []
  end.

Definition zeroed_input (j : UDisksSpawnedJob) : option string :=
  match input_string j with
  | Some buf => Some (memset buf NUL (strlen buf))
  | None => None
  end.

(** The references are the caller's and one for each pending idle
    source; a finalized job has every sentinel reset; while the child
    watch is attached the output buffers exist; the context is the one
    captured when the job was made. *)
Record Inv (env : Environment) (w : World) : Prop := {
  inv_refs :
    ref_count w = ((if owner_ref w then 1 else 0) + length (idle_sources w))%nat;
  inv_dead : ref_count w = O -> released (job w) = job w;
  inv_bufs :
    child_watch_source (job w) <> None ->
    child_stdout (job w) <> None /\ child_stderr (job w) <> None;
  inv_context : main_context (job w) = g_main_context_get_thread_default env
}.

(** Callbacks that will emit: the idle sources and the child watch. *)
Definition pending (w : World) : nat :=
  (length (idle_sources w) + (if non_null (child_watch_source (job w)) then 1 else 0))%nat.

(** Emitted and still to emit make one, as long as the caller holds its
    reference; at most one after that. *)
Definition once (w : World) : Prop :=
  (completions w + pending w <= 1)%nat /\
  (owner_ref w = true -> (completions w + pending w = 1)%nat).

(** While the caller holds its reference, completion has been emitted or
    a callback that will emit it is pending. *)
Definition at_least_once (w : World) : Prop :=
  owner_ref w = true -> (1 <= completions w + pending w)%nat.

(** The class handler has not read a [NULL] buffer. *)
Definition no_fault (w : World) : Prop := ~ In null_dereference (trace w).


(** The emission of [child_watch_cb]: completion without error. *)
Definition is_natural (e : Effect) : bool :=
  match e with
  | spawned_job_completed None _ _ _ => true
  | _ => false
  end.

Definition completed_naturally (w : World) : bool := existsb is_natural (trace w).

(** The job's handler is connected to its token. *)
Definition connected (w : World) : Prop :=
  (0 < cancellable_handler_id (job w))%N /\ cancellable (job w) <> None.

(** The handler stays connected while the job is alive, its token is not
    cancelled and its child watch has not run. *)
Definition stays_connected (w : World) : Prop :=
  token_cancelled w = false -> (0 < ref_count w)%nat -> completed_naturally w = false ->
  connected w.

Definition cancelled_idle_source (env : Environment) : IdleSource :=
  {| idle_context := g_main_context_get_thread_default env;
     idle_error := cancelled_error |}.

(** [n] bytes [c]. *)
Fixpoint fill (c : ascii) (n : nat) : string :=
  match n with
  | O => EmptyString
  | S n' => String c (fill c n')
  end.

Definition is_input_free (e : Effect) : bool :=
  match e with
  | input_string_freed _ => true
  | _ => false
  end.

(** The frees of the input string. *)
Definition input_frees (w : World) : list Effect :=
  List.filter is_input_free (trace w).

(** What finalizing a job that holds [input] frees. *)
Definition zeroed_free (input : option string) : list Effect :=
  match input with
  | Some buf => [input_string_freed (fill NUL (strlen buf))]
  | None => []
  end.

(** While the job is alive it holds its copy of the input, untouched and
    not freed; once it is finalized that copy has been freed once, full
    of zeros. *)
Definition input_kept (input : option string) (w : World) : Prop :=
  match ref_count w with
  | O => input_frees w = zeroed_free input
  | S _ => SpawnedJob.input_string (job w) = g_strdup input /\ input_frees w = []
  end.

(** No handler is connected to the signal; the loop is the thread
    default one; the command line parses into [argv] and the child is
    spawned. *)
Definition example_env (argv : list string) : Environment :=
  {| subscriber := fun _ _ _ _ => false;
     g_main_context_get_thread_default := Some 1%nat;
     g_cancellable_connect := 1%positive;
     g_shell_parse_argv := fun _ => inr argv;
     g_spawn_async_with_pipes :=
       fun _ => inr {| spawned_pid := 4242; spawned_stdin := 5;
                       spawned_stdout := 6; spawned_stderr := 7 |} |}.

Definition sleep_env : Environment := example_env ["/bin/sleep"; "60"].

Definition cat_env : Environment := example_env ["/bin/cat"].

Definition sleep_job (token : option bool) : World :=
  udisks_spawned_job_new sleep_env "/bin/sleep 60" None token.

Definition secret_job : World :=
  udisks_spawned_job_new cat_env "/bin/cat" (Some "secret") None.

(** What the claim says of the message for a child that a signal
    killed, and of the size of the table of signal names. *)
Definition claimed_signaled_message (cmd symbolic : string) (s : Z) (out err : string)
  : string :=
  "Command-line '" +:+ cmd +:+ "' was signaled with signal " +:+ symbolic
    +:+ "(" +:+ fmt_d s +:+ ")." +:+ nl +:+ "stdout: '" +:+ out +:+ "'" +:+ nl
    +:+ "stderr: '" +:+ err +:+ "'".

Definition claimed_signal_table_size : nat := 27.

(** * Further notions: daemon utilities *)

Fixpoint string_forall (f : ascii -> bool) (s : string) : bool :=
  match s with
  | EmptyString => true
  | String c rest => f c && string_forall f rest
  end.

(** The characters [udisks_safe_append_to_object_path] writes:
    [[A-Z][a-z][0-9]_]. *)
Definition object_path_char (c : ascii) : bool :=
  is_alnum (byte c) || (byte c =? 95).

(** Every byte, in ascending order. *)
Definition all_bytes : list ascii := map ascii_of_nat (seq 0 256).

(** One string starts with the other. *)
Definition overlap (a b : string) : bool := String.prefix a b || String.prefix b a.

(** No two bytes are written so that one encoding starts with the
    other. *)
Definition prefix_free (f : ascii -> string) : bool :=
  forallb
    (fun c => forallb (fun d => Ascii.eqb c d || negb (overlap (f c) (f d))) all_bytes)
    all_bytes.

(** What the loop of [udisks_decode_udev_string] appends to its
    [GString], for the unread rest [str] of the input. *)
Fixpoint decoded (str : string) : string :=
  match str with
  | EmptyString => EmptyString
  | String c0 rest =>
      if byte c0 =? 0 then EmptyString
      else if byte c0 =? backslash then
        match rest with
        | String c1 (String c2 (String c3 rest')) =>
            if negb (byte c1 =? letter_x) || (byte c2 =? 0) || (byte c3 =? 0)
            then EmptyString
            else
              String
                (chr (Z.lor (Z.shiftl (g_ascii_xdigit_value c2) 4) (g_ascii_xdigit_value c3)))
                (decoded rest')
        | _ => EmptyString
        end
      else String c0 (decoded rest)
  end.

Definition no_backslash (s : string) : bool :=
  string_forall (fun c => negb (byte c =? backslash)) s.

(** What follows a backslash is not [x] and two more bytes of the
    string. *)
Definition malformed_escape (rest : string) : bool :=
  match rest with
  | String c1 (String c2 (String c3 _)) =>
      negb (byte c1 =? letter_x) || (byte c2 =? 0) || (byte c3 =? 0)
  | _ => true
  end.

(** A byte written the way udev writes the bytes it escapes: a
    backslash, [x] and two lowercase hexadecimal digits. *)
Definition udev_escape (c : ascii) : string :=
  String (chr backslash)
    (String (chr letter_x)
       (String (hex_digit (byte c / 16))
          (String (hex_digit (byte c mod 16)) EmptyString))).

(** A string encoded for udev: the bytes [escape] selects are escaped,
    and so are the backslash and the NUL byte, which cannot stand for
    themselves. *)
Definition udev_encode (escape : ascii -> bool) (s : string) : string :=
  concat_map
    (fun c =>
       if escape c || (byte c =? backslash) || (byte c =? 0) then udev_escape c
       else String c EmptyString)
    s.

(** The number of bytes in front of the first byte from 0x80 on. *)
Fixpoint ascii_prefix_length (s : string) : nat :=
  match s with
  | EmptyString => O
  | String c rest => if byte c <? 128 then S (ascii_prefix_length rest) else O
  end.

(** A validator that takes ASCII only: a string is accepted when all its
    bytes are below 0x80, and the valid part ends at the first byte that
    is not. On strings of ASCII bytes it is [g_utf8_validate]. *)
Definition g_utf8_validate_ascii (s : string) : bool * nat :=
  ((ascii_prefix_length s =? String.length s)%nat, ascii_prefix_length s).

(** * Further notions: the spawned job *)

(** What the release routine does, block by block. *)
Definition release_trace (j : UDisksSpawnedJob) : list Effect :=
  on_handle g_source_destroy (child_watch_source j)
    ++ (if negb (child_pid j =? 0)
        then [kill (child_pid j) SIGTERM; reaper_attached (child_pid j) (main_context j)]
        else [])
    ++ on_handle g_string_free (child_stdout j)
    ++ on_handle g_string_free (child_stderr j)
    ++ on_handle g_io_channel_unref (child_stdin_channel j)
    ++ on_handle g_io_channel_unref (child_stdout_channel j)
    ++ on_handle g_io_channel_unref (child_stderr_channel j)
    ++ on_handle g_source_destroy (child_stdin_source j)
    ++ on_handle g_source_destroy (child_stdout_source j)
    ++ on_handle g_source_destroy (child_stderr_source j)
    ++ (if negb (child_stdin_fd j =? -1) then [close (child_stdin_fd j)] else [])
    ++ (if negb (child_stdout_fd j =? -1) then [close (child_stdout_fd j)] else [])
    ++ (if negb (child_stderr_fd j =? -1) then [close (child_stderr_fd j)] else [])
    ++ (if (0 <? cancellable_handler_id j)%N
        then [g_cancellable_disconnect (cancellable_handler_id j)]
        else [])
    ++ on_handle cancellable_unref (cancellable j).

(** The job as [child_watch_cb] has it when it emits: the buffers hold
    what was left in the pipes. *)
Definition drained (stdout_rest stderr_rest : option string) (j : UDisksSpawnedJob)
  : UDisksSpawnedJob :=
  let j := set_stdout (child_stdout_fd j) (child_stdout_channel j) (child_stdout_source j)
             (read_to_end (child_stdout_channel j) stdout_rest (child_stdout j)) j in
  set_stderr (child_stderr_fd j) (child_stderr_channel j) (child_stderr_source j)
    (read_to_end (child_stderr_channel j) stderr_rest (child_stderr j)) j.

(** What finalizing does after release. *)
Definition finalize_tail (j : UDisksSpawnedJob) : list Effect :=
  on_handle g_main_context_unref (main_context j) ++ [command_line_freed]
    ++ input_string_frees j.

(** The job is finalized. *)
Definition dead (w : World) : bool := (ref_count w =? 0)%nat.

(** The descriptors that were closed, in order. *)
Definition closed_fds (t : list Effect) : list Z :=
  flat_map (fun e => match e with close fd => [fd] | _ => [] end) t.

(** The descriptors the job holds: the fields that are not -1. *)
Definition open_fds (j : UDisksSpawnedJob) : list Z :=
  List.filter (fun fd => negb (fd =? -1))
    [child_stdin_fd j; child_stdout_fd j; child_stderr_fd j].

(** Closed and held descriptors together are the ones in [fds]; a source
    on stdin has its descriptor; after the child watch has run and after
    finalizing none is held. *)
Definition fds_accounted (fds : list Z) (dead : bool) (j : UDisksSpawnedJob)
    (t : list Effect) : Prop :=
  closed_fds t ++ open_fds j = fds /\
  (child_stdin_source j <> None -> child_stdin_fd j <> -1) /\
  (existsb is_natural t = true \/ dead = true -> open_fds j = []).

(** The signal sent to the child and the reaper attached for it. *)
Definition is_signal (e : Effect) : bool :=
  match e with
  | kill _ _ | reaper_attached _ _ => true
  | _ => false
  end.

Definition signalled (t : list Effect) : list Effect := List.filter is_signal t.

(** Where the job is with its child [pid] (0: there is none): watched;
    reaped by the child watch; terminated by finalizing; never
    spawned. *)
Definition child_accounted (pid : Z) (context : option GMainContext) (dead : bool)
    (j : UDisksSpawnedJob) (t : list Effect) : Prop :=
  main_context j = context /\
  ((child_watch_source j <> None /\ child_pid j = pid /\ pid <> 0 /\
    signalled t = [] /\ existsb is_natural t = false /\ dead = false) \/
   (child_watch_source j = None /\ child_pid j = 0 /\ pid <> 0 /\
    signalled t = [] /\ existsb is_natural t = true) \/
   (child_watch_source j = None /\ child_pid j = 0 /\ pid <> 0 /\
    signalled t = [kill pid SIGTERM; reaper_attached pid context] /\
    existsb is_natural t = false /\ dead = true) \/
   (child_watch_source j = None /\ child_pid j = 0 /\ pid = 0 /\
    signalled t = [] /\ existsb is_natural t = false)).

(** The bytes the channel to the child's stdin took, in order: of each
    write, the first [bytes_written] bytes of the buffer. *)
Fixpoint written (t : list Effect) : string :=
  match t with
  | [] => EmptyString
  | g_io_channel_write_chars buf bytes_written :: rest =>
      substring 0 bytes_written buf +:+ written rest
  | _ :: rest => written rest
  end.

(** What was written is [input] up to the cursor; the cursor is inside
    [input]; while the source on stdin is attached the job holds [input]
    and a cursor. *)
Definition stdin_fed (input : string) (dead : bool) (j : UDisksSpawnedJob)
    (t : list Effect) : Prop :=
  written t = substring 0 (default 0%nat (input_string_cursor j)) input /\
  (default 0%nat (input_string_cursor j) <= String.length input)%nat /\
  (child_stdin_source j <> None ->
   SpawnedJob.input_string j = Some input /\ input_string_cursor j <> None).

(** What the reads of the source on stdout, resp. stderr, took from the
    pipe, in order. *)
Fixpoint captured_stdout (events : list Event) : string :=
  match events with
  | [] => EmptyString
  | stdout_readable available :: rest => read_chars available +:+ captured_stdout rest
  | _ :: rest => captured_stdout rest
  end.

Fixpoint captured_stderr (events : list Event) : string :=
  match events with
  | [] => EmptyString
  | stderr_readable available :: rest => read_chars available +:+ captured_stderr rest
  | _ :: rest => captured_stderr rest
  end.

(** While the child watch is attached the sources and channels of the
    two output pipes are there, and the buffers hold what was read. *)
Definition capturing (events : list Event) (w : World) : Prop :=
  child_watch_source (job w) <> None ->
  child_stdout (job w) = Some (captured_stdout events) /\
  child_stderr (job w) = Some (captured_stderr events) /\
  child_stdout_source (job w) <> None /\ child_stderr_source (job w) <> None /\
  child_stdout_channel (job w) <> None /\ child_stderr_channel (job w) <> None.

(** After the child watch has run the job is released. *)
Definition released_after_exit (dead : bool) (j : UDisksSpawnedJob) (t : list Effect)
  : Prop :=
  existsb is_natural t = true -> released j = j.

(** The child watch has emitted, nothing else has and nothing else
    will: no idle source is pending and the job is released. *)
Definition settled (w : World) : Prop :=
  completed_naturally w = true /\ idle_sources w = [] /\ released (job w) = job w /\
  completions w = 1%nat.

(** [g_shell_parse_argv] fails on every command line. *)
Definition unparsable_env : Environment :=
  {| subscriber := fun _ _ _ _ => false;
     g_main_context_get_thread_default := None;
     g_cancellable_connect := 1%positive;
     g_shell_parse_argv :=
       fun _ => inl {| domain := "g-shell-error-quark"; code := 0;
                       message := "Text ended before matching quote was found" |};
     g_spawn_async_with_pipes :=
       fun _ => inr {| spawned_pid := 4242; spawned_stdin := 5;
                       spawned_stdout := 6; spawned_stderr := 7 |} |}.


(** * Properties *)

Import C.

(** ** C strings *)

Lemma byte_range (c : ascii) : 0 <= byte c < 256.
Proof.
  unfold byte. pose proof (N_ascii_bounded c). lia.
Qed.

Lemma c_str_idempotent (s : string) : c_str (c_str s) = c_str s.
Proof.
  induction s as [|c s IH]; simpl; [reflexivity|].
  destruct (byte c =? 0) eqn:E; simpl; [reflexivity|].
  rewrite E, IH. reflexivity.
Qed.

Lemma strcmp_swap (a b : string) : strcmp a b = - strcmp b a.
Proof.
  revert b. induction a as [|c a IH]; intros [|d b]; simpl; try lia.
  rewrite (Z.eqb_sym (byte d) (byte c)).
  destruct (Z.eqb_spec (byte c) (byte d)) as [E|E]; [|lia].
  rewrite <- E. destruct (byte c =? 0); [reflexivity|apply IH].
Qed.

Lemma strcmp_transitive (a : string) :
  forall b c : string,
    (strcmp a b <= 0 -> strcmp b c <= 0 -> strcmp a c <= 0) /\
    (strcmp a b < 0 -> strcmp b c <= 0 -> strcmp a c < 0) /\
    (strcmp a b <= 0 -> strcmp b c < 0 -> strcmp a c < 0).
Proof.
  induction a as [|x a IH]; intros [|y b] [|z c]; simpl;
    try pose proof (byte_range x); try pose proof (byte_range y);
    try pose proof (byte_range z);
    repeat match goal with
           | |- context [?u =? ?v] => destruct (Z.eqb_spec u v)
           end;
    try lia.
  apply IH.
Qed.

Lemma strcmp_zero (a : string) :
  forall b : string, strcmp a b = 0 <-> c_str a = c_str b.
Proof.
  induction a as [|x a IH]; intros [|y b]; simpl;
    try pose proof (byte_range x); try pose proof (byte_range y);
    repeat match goal with
           | |- context [?u =? ?v] => destruct (Z.eqb_spec u v)
           end;
    try (split; [intros; reflexivity|intros; lia]);
    try (split; [intros; lia|intros E; discriminate E]).
  - rewrite IH. split; [intros ->; f_equal|intros E; injection E; trivial].
    unfold byte in *. apply (f_equal Z.to_N) in e. rewrite !N2Z.id in e.
    apply (f_equal ascii_of_N) in e. rewrite !ascii_N_embedding in e. exact e.
  - split; [intros; lia|]. intros E. injection E as E1 _. subst. contradiction.
Qed.

Lemma append_cons (c : ascii) (a b : string) : String c a +:+ b = String c (a +:+ b).
Proof. reflexivity. Qed.

Lemma string_app_assoc (a b c : string) : (a +:+ b) +:+ c = a +:+ (b +:+ c).
Proof.
  induction a as [|x a IH]; [reflexivity|].
  rewrite !append_cons, IH. reflexivity.
Qed.

Lemma string_app_nil_r (a : string) : a +:+ EmptyString = a.
Proof.
  induction a as [|x a IH]; [reflexivity|].
  rewrite append_cons, IH. reflexivity.
Qed.

(** ** Mount records *)

Section MountFacts.
Import Mount.

(** C8: [udisks_mount_compare] is documented as a comparison function and
    the claim asks for a total order, by path and then by device number.
    The difference of the two device numbers is stored in a [gint]: with
    the same mount path, devices 2^31 and 0 compare negative in both
    directions, devices 0 and 2^32 compare equal, and the devices 0,
    0x60000000 and 0xC0000000 are ordered in a cycle. *)
Theorem udisks_mount_compare_dev_difference_wraps :
  let m (dev : Z) := _udisks_mount_new dev (Some "/mnt") in
  (udisks_mount_compare (m 2147483648) (m 0) < 0 /\
   udisks_mount_compare (m 0) (m 2147483648) < 0) /\
  (udisks_mount_compare (m 0) (m 4294967296) = 0 /\ m 0 <> m 4294967296) /\
  (udisks_mount_compare (m 0) (m 1610612736) < 0 /\
   udisks_mount_compare (m 1610612736) (m 3221225472) < 0 /\
   udisks_mount_compare (m 0) (m 3221225472) > 0).
Proof.
  cbv zeta. repeat split; try (vm_compute; reflexivity).
  intros H. apply (f_equal dev) in H. vm_compute in H. discriminate H.
Qed.

(** Paths come first, in descending order. *)
Lemma udisks_mount_compare_paths (a b : UDisksMount) :
  g_strcmp0 (mount_path b) (mount_path a) <> 0 ->
  udisks_mount_compare a b = g_strcmp0 (mount_path b) (mount_path a).
Proof.
  intros H. unfold udisks_mount_compare.
  destruct (Z.eqb_spec (g_strcmp0 (mount_path b) (mount_path a)) 0); [contradiction|].
  reflexivity.
Qed.

(** Between device numbers less than 2^31 apart nothing wraps: the result
    is their difference. *)
Lemma udisks_mount_compare_near_devs (a b : UDisksMount) :
  g_strcmp0 (mount_path b) (mount_path a) = 0 ->
  - 2 ^ 31 <= dev a - dev b < 2 ^ 31 ->
  udisks_mount_compare a b = dev a - dev b.
Proof.
  intros H R. unfold udisks_mount_compare. rewrite H. simpl negb. cbv iota.
  unfold to_gint, to_sint, to_uint, dev_bits.
  change (2 ^ 32) with 4294967296. change (2 ^ (32 - 1)) with 2147483648.
  change (2 ^ 31) with 2147483648 in R.
  assert (E : ((dev a - dev b) mod 2 ^ 64) mod 4294967296
              = (dev a - dev b) mod 4294967296).
  { apply Z.mod_mod_divide. exists 4294967296. reflexivity. }
  rewrite E. clear E.
  destruct (Z.ltb_spec ((dev a - dev b) mod 4294967296) 2147483648) as [L|L].
  - destruct (Z_lt_le_dec (dev a - dev b) 0) as [N|N].
    + exfalso.
      assert ((dev a - dev b) mod 4294967296 = dev a - dev b + 4294967296).
      { symmetry. apply (Z.mod_unique_pos _ _ (-1)); lia. }
      lia.
    + apply Z.mod_small. lia.
  - destruct (Z_lt_le_dec (dev a - dev b) 0) as [N|N].
    + assert ((dev a - dev b) mod 4294967296 = dev a - dev b + 4294967296).
      { symmetry. apply (Z.mod_unique_pos _ _ (-1)); lia. }
      lia.
    + exfalso. rewrite Z.mod_small in L; lia.
Qed.

Lemma g_strcmp0_swap (p q : option string) : g_strcmp0 p q = - g_strcmp0 q p.
Proof.
  destruct p, q; simpl; try reflexivity. apply strcmp_swap.
Qed.

Lemma g_strcmp0_zero (p q : option string) : g_strcmp0 p q = 0 <-> g_strdup p = g_strdup q.
Proof.
  destruct p, q; simpl.
  - rewrite strcmp_zero. split; [intros ->; reflexivity|intros E; injection E; trivial].
  - split; intros E; discriminate E.
  - split; intros E; discriminate E.
  - split; reflexivity.
Qed.

Lemma g_strcmp0_transitive (p q r : option string) :
  (g_strcmp0 p q <= 0 -> g_strcmp0 q r <= 0 -> g_strcmp0 p r <= 0) /\
  (g_strcmp0 p q < 0 -> g_strcmp0 q r <= 0 -> g_strcmp0 p r < 0) /\
  (g_strcmp0 p q <= 0 -> g_strcmp0 q r < 0 -> g_strcmp0 p r < 0).
Proof.
  destruct p as [a|], q as [b|], r as [c|]; simpl; try lia.
  apply strcmp_transitive.
Qed.

(** Away from the wrap-around [udisks_mount_compare] is the order the claim
    describes: among mounts whose device numbers are below 2^31 it is
    antisymmetric, zero exactly on equal paths and equal devices, and
    transitive. *)
Lemma udisks_mount_compare_order_below_2_31 (a b c : UDisksMount) :
  0 <= dev a < 2 ^ 31 -> 0 <= dev b < 2 ^ 31 -> 0 <= dev c < 2 ^ 31 ->
  (udisks_mount_compare a b < 0 <-> udisks_mount_compare b a > 0) /\
  (udisks_mount_compare a b = 0 <->
   g_strdup (mount_path a) = g_strdup (mount_path b) /\ dev a = dev b) /\
  (udisks_mount_compare a b <= 0 -> udisks_mount_compare b c <= 0 ->
   udisks_mount_compare a c <= 0).
Proof.
  intros Ha Hb Hc.
  assert (Hcmp : forall x y : UDisksMount,
             0 <= dev x < 2 ^ 31 -> 0 <= dev y < 2 ^ 31 ->
             (g_strcmp0 (mount_path y) (mount_path x) <> 0 /\
              udisks_mount_compare x y = g_strcmp0 (mount_path y) (mount_path x)) \/
             (g_strcmp0 (mount_path y) (mount_path x) = 0 /\
              udisks_mount_compare x y = dev x - dev y)).
  { intros x y Hx Hy.
    destruct (Z.eq_dec (g_strcmp0 (mount_path y) (mount_path x)) 0) as [E|E].
    - right. split; [exact E|]. apply udisks_mount_compare_near_devs; [exact E|lia].
    - left. split; [exact E|]. apply udisks_mount_compare_paths. exact E. }
  pose proof (g_strcmp0_swap (mount_path a) (mount_path b)) as Hswap.
  pose proof (g_strcmp0_transitive (mount_path c) (mount_path b) (mount_path a)) as Htr.
  pose proof (g_strcmp0_zero (mount_path b) (mount_path a)) as Hzero.
  destruct (Hcmp a b Ha Hb) as [[N1 E1]|[N1 E1]];
    destruct (Hcmp b a Hb Ha) as [[N2 E2]|[N2 E2]];
    destruct (Hcmp b c Hb Hc) as [[N3 E3]|[N3 E3]];
    destruct (Hcmp a c Ha Hc) as [[N4 E4]|[N4 E4]];
    rewrite E1, E2, E3, E4;
    destruct Hzero as [Hz1 Hz2];
    (split;
     [ lia
     | split;
       [ split;
         [ intros E;
           first [ exfalso; lia | split; [symmetry; apply Hz1; lia|lia] ]
         | intros [Ep Ed]; symmetry in Ep; apply Hz2 in Ep; lia ]
       | lia ] ]).
Qed.

End MountFacts.

(** ** Daemon utilities *)

Section DaemonUtilFacts.
Import DaemonUtil.

(** C9: the comment in [udisks_safe_append_to_object_path] and the claim
    both say that a byte outside [[A-Z][a-z][0-9]] becomes an underscore
    and two hexadecimal digits. Where plain [char] is signed a byte from
    0x80 on is negative once it is a [gint], and [%02x] prints all eight
    digits of it: the two bytes of U+00E9 become eighteen characters. *)
Theorem udisks_safe_append_to_object_path_high_bytes :
  udisks_safe_append_to_object_path true EmptyString e_acute = "_ffffffc3_ffffffa9"
  /\ udisks_safe_append_to_object_path false EmptyString e_acute = "_c3_a9".
Proof. split; vm_compute; reflexivity. Qed.

(** For a byte below 0x80, and for every byte where plain [char] is
    unsigned, one iteration appends what the claim says. *)
Lemma append_one_escaped (char_is_signed : bool) (ch : ascii) :
  char_is_signed = false \/ byte ch < 128 ->
  append_one char_is_signed ch = escaped ch.
Proof.
  intros H.
  destruct char_is_signed.
  - destruct H as [H|H]; [discriminate|].
    destruct ch as [[] [] [] [] [] [] [] []];
      first [ vm_compute; reflexivity | exfalso; vm_compute in H; discriminate H ].
  - destruct ch as [[] [] [] [] [] [] [] []]; vm_compute; reflexivity.
Qed.

(** Where plain [char] is signed a byte from 0x80 on becomes nine
    characters. *)
Lemma append_one_signed_high (ch : ascii) :
  128 <= byte ch -> String.length (append_one true ch) = 9%nat.
Proof.
  intros H.
  destruct ch as [[] [] [] [] [] [] [] []];
    first [ vm_compute; reflexivity | exfalso; vm_compute in H; apply H; reflexivity ].
Qed.

Lemma udisks_safe_append_to_object_path_concat (char_is_signed : bool) (s str : string) :
  udisks_safe_append_to_object_path char_is_signed str s
  = str +:+ concat_map (append_one char_is_signed) (c_str s).
Proof.
  revert str. induction s as [|ch s IH]; intros str; simpl.
  - symmetry. apply string_app_nil_r.
  - destruct (byte ch =? 0); simpl.
    + symmetry. apply string_app_nil_r.
    + rewrite IH. apply string_app_assoc.
Qed.

(** *** [udisks_decode_udev_string] *)

Lemma decode_loop_insert (n : nat) :
  forall (str : string) (s : ptr) (buf : string) (h : heap),
    (String.length str <= n)%nat ->
    exists buf', decode_loop str s (<[s := buf]> h) = (tt, <[s := buf']> h).
Proof.
  induction n as [|n IH]; intros str s buf h Hlen.
  - destruct str; [|simpl in Hlen; lia]. exists buf. reflexivity.
  - destruct str as [|c0 rest]; [exists buf; reflexivity|].
    simpl in Hlen. simpl.
    destruct (byte c0 =? 0); [exists buf; reflexivity|].
    destruct (byte c0 =? backslash).
    + destruct rest as [|c1 [|c2 [|c3 rest']]]; try (exists buf; reflexivity).
      destruct (negb (byte c1 =? letter_x) || (byte c2 =? 0) || (byte c3 =? 0));
        [exists buf; reflexivity|].
      unfold bind, g_string_append_c. rewrite alter_insert_eq.
      apply IH. simpl in Hlen. lia.
    + unfold bind, g_string_append_c. rewrite alter_insert_eq.
      apply IH. lia.
Qed.

(** C10: [NULL] is mapped to [NULL] and the heap is left alone. For
    every other input the result is not [NULL]: it is the address of a
    block that was not allocated before the call, and after the call the
    heap is the one before it with that block added. *)
Theorem udisks_decode_udev_string_null_and_fresh
    (g_utf8_validate : string -> bool * nat) :
  (forall h : heap, udisks_decode_udev_string g_utf8_validate None h = (None, h)) /\
  (forall (str : string) (h : heap),
      exists (p : ptr) (contents : string),
        udisks_decode_udev_string g_utf8_validate (Some str) h
        = (Some p, <[p := contents]> h)
        /\ h !! p = None).
Proof.
  split; [reflexivity|].
  intros str h. unfold udisks_decode_udev_string, bind, g_string_new, g_malloc.
  set (s := fresh (dom h)).
  assert (Hs : h !! s = None).
  { apply not_elem_of_dom. apply is_fresh. }
  destruct (decode_loop_insert (String.length str) str s EmptyString h) as [buf Hloop];
    [lia|].
  rewrite Hloop. unfold load. rewrite lookup_insert_eq. simpl.
  destruct (g_utf8_validate (c_str buf)) as [valid end_valid].
  destruct valid; simpl.
  - exists s, buf. split; [reflexivity|exact Hs].
  - unfold g_strndup, g_malloc, bind, g_free, ret.
    set (r := fresh (dom (<[s:=buf]> h))).
    assert (Hr : (<[s:=buf]> h) !! r = None).
    { apply not_elem_of_dom. apply is_fresh. }
    assert (Hne : s <> r).
    { intros E. rewrite <- E, lookup_insert_eq in Hr. discriminate Hr. }
    exists r, (substring 0 end_valid (c_str buf)). split.
    + f_equal. rewrite delete_insert_ne by exact Hne.
      rewrite delete_insert_id by exact Hs. reflexivity.
    + rewrite lookup_insert_ne in Hr by exact Hne. exact Hr.
Qed.

End DaemonUtilFacts.

(** ** The spawned job: release *)

Section ReleaseFacts.
Import SpawnedJob.

Lemma run_steps_fst (steps : list Step)
    (updates : list (UDisksSpawnedJob -> UDisksSpawnedJob)) :
  Forall2 (fun step update => forall j, fst (step j) = update j) steps updates ->
  forall j, fst (run_steps steps j) = fold_left (fun j update => update j) updates j.
Proof.
  induction 1 as [|step update steps updates Hstep _ IH]; intros j; simpl.
  - reflexivity.
  - rewrite <- Hstep, <- IH.
    destruct (step j) as [j1 t1]. simpl.
    destruct (run_steps steps j1) as [j2 t2]. reflexivity.
Qed.

Lemma run_steps_effects (Q : Effect -> Prop) (steps : list Step) :
  Forall (fun step : Step => forall j, Forall Q (snd (step j))) steps ->
  forall j, Forall Q (snd (run_steps steps j)).
Proof.
  induction 1 as [|step steps Hstep _ IH]; intros j; simpl.
  - constructor.
  - specialize (Hstep j). specialize (IH (fst (step j))).
    destruct (step j) as [j1 t1]. simpl in *.
    destruct (run_steps steps j1) as [j2 t2]. simpl in *.
    apply Forall_app. split; assumption.
Qed.

(** Each block leaves the job as the assignment under its guard leaves
    it: where the guard is false the field holds the sentinel already. *)
Lemma release_steps_assign :
  Forall2 (fun step update => forall j, fst (step j) = update j) release_steps
    [ (fun j => set_child (child_pid j) None j);
      (fun j => set_child 0 (child_watch_source j) j);
      (fun j => set_stdout (child_stdout_fd j) (child_stdout_channel j)
                  (child_stdout_source j) None j);
      (fun j => set_stderr (child_stderr_fd j) (child_stderr_channel j)
                  (child_stderr_source j) None j);
      (fun j => set_stdin (child_stdin_fd j) None (child_stdin_source j) j);
      (fun j => set_stdout (child_stdout_fd j) None (child_stdout_source j)
                  (child_stdout j) j);
      (fun j => set_stderr (child_stderr_fd j) None (child_stderr_source j)
                  (child_stderr j) j);
      (fun j => set_stdin (child_stdin_fd j) (child_stdin_channel j) None j);
      (fun j => set_stdout (child_stdout_fd j) (child_stdout_channel j) None
                  (child_stdout j) j);
      (fun j => set_stderr (child_stderr_fd j) (child_stderr_channel j) None
                  (child_stderr j) j);
      (fun j => set_stdin (-1) (child_stdin_channel j) (child_stdin_source j) j);
      (fun j => set_stdout (-1) (child_stdout_channel j) (child_stdout_source j)
                  (child_stdout j) j);
      (fun j => set_stderr (-1) (child_stderr_channel j) (child_stderr_source j)
                  (child_stderr j) j);
      (fun j => set_cancellation 0 (cancellable j) j);
      (fun j => set_cancellation (cancellable_handler_id j) None j) ].
Proof.
  unfold release_steps.
  repeat match goal with
         | |- Forall2 _ (_ :: _) (_ :: _) => constructor
         | |- Forall2 _ [] [] => constructor
         end.
  all: intros [cl ca hid mc ins cur pid fin fout ferr cin cout cerr ws sin sout serr bo be];
    cbn.
  all: try match goal with
           | |- context [match ?x with Some _ => _ | None => _ end] =>
               destruct x; reflexivity
           end.
  all: try match goal with
           | |- context [negb (?x =? ?y)] =>
               destruct (Z.eqb_spec x y); subst; reflexivity
           end.
  destruct hid; reflexivity.
Qed.

Lemma release_resources_job (j : UDisksSpawnedJob) :
  fst (udisks_spawned_job_release_resources j) = released j.
Proof.
  unfold udisks_spawned_job_release_resources.
  rewrite (run_steps_fst _ _ release_steps_assign).
  destruct j. reflexivity.
Qed.

Lemma release_resources_released (j : UDisksSpawnedJob) :
  udisks_spawned_job_release_resources (released j) = (released j, []).
Proof. destruct j. reflexivity. Qed.

(** C6: releasing what has been released changes nothing and does
    nothing, whatever state the job was in the first time. *)
Theorem udisks_spawned_job_release_resources_idempotent (job : UDisksSpawnedJob) :
  udisks_spawned_job_release_resources (fst (udisks_spawned_job_release_resources job))
  = (fst (udisks_spawned_job_release_resources job), []).
Proof.
  rewrite release_resources_job. apply release_resources_released.
Qed.

(** After the routine every sentinel is reset. *)
Lemma release_resources_sentinels (job : UDisksSpawnedJob) :
  let j := fst (udisks_spawned_job_release_resources job) in
  child_watch_source j = None /\ child_pid j = 0 /\
  child_stdout j = None /\ child_stderr j = None /\
  child_stdin_channel j = None /\ child_stdout_channel j = None /\
  child_stderr_channel j = None /\
  child_stdin_source j = None /\ child_stdout_source j = None /\
  child_stderr_source j = None /\
  child_stdin_fd j = -1 /\ child_stdout_fd j = -1 /\ child_stderr_fd j = -1 /\
  cancellable_handler_id j = 0%N /\ cancellable j = None.
Proof.
  cbv zeta. rewrite release_resources_job. repeat split.
Qed.

Lemma release_resources_teardown (j : UDisksSpawnedJob) :
  Forall is_teardown (snd (udisks_spawned_job_release_resources j)).
Proof.
  apply run_steps_effects. unfold release_steps.
  repeat match goal with
         | |- Forall _ (_ :: _) => constructor
         | |- Forall _ [] => constructor
         end.
  all: intros j'.
  all: try match goal with
           | |- context [match ?x with Some _ => _ | None => _ end] =>
               destruct x; simpl; repeat constructor
           end.
  all: match goal with
       | |- context [if ?b then _ else _] => destruct b; simpl; repeat constructor
       end.
Qed.

End ReleaseFacts.

(** ** The spawned job: the stdin pump *)

Section PumpFacts.
Import SpawnedJob.

Lemma length_zero_empty (s : string) : (String.length s =? 0)%nat = true <-> s = EmptyString.
Proof.
  destruct s; simpl; split; intros H; try reflexivity; discriminate H.
Qed.

(** C5: with input left, the callback offers the channel everything from
    the cursor on, moves the cursor by what the channel took and stays
    armed, the descriptor untouched. With nothing left, or no cursor, it
    writes nothing: it drops the channel, destroys the source, closes the
    descriptor and resets all three fields. *)
Theorem write_child_stdin_pump (job : UDisksSpawnedJob) (accepted : nat) :
  let '(job', t, keep) := write_child_stdin job accepted in
  (remaining_input job <> EmptyString ->
   exists cursor bytes_written,
     input_string_cursor job = Some cursor /\
     bytes_written = Nat.min accepted (String.length (remaining_input job)) /\
     t = [g_io_channel_write_chars (remaining_input job) bytes_written;
          g_io_channel_flush] /\
     input_string_cursor job' = Some (cursor + bytes_written)%nat /\
     input_string job' = input_string job /\
     keep = true /\
     child_stdin_source job' = child_stdin_source job /\
     child_stdin_channel job' = child_stdin_channel job /\
     child_stdin_fd job' = child_stdin_fd job) /\
  (remaining_input job = EmptyString ->
   t = on_handle g_io_channel_unref (child_stdin_channel job)
         ++ on_handle g_source_destroy (child_stdin_source job)
         ++ [close (child_stdin_fd job)] /\
   keep = false /\
   child_stdin_source job' = None /\
   child_stdin_channel job' = None /\
   child_stdin_fd job' = -1 /\
   input_string_cursor job' = input_string_cursor job).
Proof.
  unfold write_child_stdin, remaining_input.
  destruct (input_string_cursor job) as [cursor|] eqn:Hc.
  - destruct (String.length (cursor_str job cursor) =? 0)%nat eqn:Hlen.
    + apply length_zero_empty in Hlen. split.
      * intros H. contradiction.
      * intros _. simpl. rewrite Hc. repeat split.
    + split.
      * intros _. exists cursor, (Nat.min accepted (String.length (cursor_str job cursor))).
        simpl. repeat split.
      * intros H. rewrite H in Hlen. discriminate Hlen.
  - split.
    + intros H. contradiction.
    + intros _. simpl. rewrite Hc. repeat split.
Qed.

(** Two bytes are left and the channel takes one of them; then, at the end
    of the input, the descriptor is closed. *)
Lemma write_child_stdin_pump_witness :
  (remaining_input cat_job <> EmptyString /\
   snd (fst (write_child_stdin cat_job 1))
   = [g_io_channel_write_chars "lo" 1; g_io_channel_flush] /\
   snd (write_child_stdin cat_job 1) = true) /\
  (remaining_input (set_input (Some "hello") (Some 5%nat) cat_job) = EmptyString /\
   snd (fst (write_child_stdin (set_input (Some "hello") (Some 5%nat) cat_job) 1))
   = [g_io_channel_unref (g_io_channel_unix_new 5);
      g_source_destroy (g_io_create_watch (g_io_channel_unix_new 5) G_IO_OUT);
      close 5]).
Proof.
  split.
  - split; [vm_compute; discriminate|].
    pose proof (write_child_stdin_pump cat_job 1) as H.
    destruct (write_child_stdin cat_job 1) as [[job' t] keep].
    destruct H as [H _].
    destruct H as (cursor & n & Hc & Hn & Ht & Hc' & Hin & Hk & _);
      [vm_compute; discriminate|].
    simpl. subst n keep. split; [exact Ht | reflexivity].
  - split; [vm_compute; reflexivity|].
    pose proof (write_child_stdin_pump (set_input (Some "hello") (Some 5%nat) cat_job) 1)
      as H.
    destruct (write_child_stdin (set_input (Some "hello") (Some 5%nat) cat_job) 1)
      as [[job' t] keep].
    destruct H as [_ H]. destruct H as (Ht & _); [vm_compute; reflexivity|].
    simpl. exact Ht.
Defined.

End PumpFacts.

(** ** The spawned job: the default classification *)

Section ClassificationFacts.
Import SpawnedJob.

Context {P : Platform}.

Lemma stringify_c_str (s : signal) : c_str (stringify s) = stringify s.
Proof. destruct s; reflexivity. Qed.

Lemma get_signal_name_c_str (n : Z) : fmt_s (get_signal_name n) = get_signal_name n.
Proof.
  unfold get_signal_name, fmt_s.
  destruct (find (fun s => signo s =? n) get_signal_table).
  - apply stringify_c_str.
  - reflexivity.
Qed.

Lemma get_signal_table_complete (s : signal) : In s get_signal_table.
Proof. destruct s; simpl; tauto. Qed.

Lemma find_unique {A} (f : A -> Z) (l : list A) (x : A) :
  List.NoDup (map f l) -> In x l -> find (fun y => f y =? f x) l = Some x.
Proof.
  induction l as [|y l IH]; intros Hnd Hin; simpl in *; [contradiction|].
  inversion Hnd as [|? ? Hnotin Hnd']; subst.
  destruct Hin as [->|Hin].
  - rewrite Z.eqb_refl. reflexivity.
  - destruct (Z.eqb_spec (f y) (f x)) as [E|E].
    + exfalso. apply Hnotin. rewrite E. apply in_map. exact Hin.
    + apply IH; assumption.
Qed.

Lemma find_none {A} (f : A -> bool) (l : list A) :
  (forall x, In x l -> f x = false) -> find f l = None.
Proof.
  induction l as [|y l IH]; intros H; simpl; [reflexivity|].
  rewrite (H y) by (left; reflexivity). apply IH.
  intros x Hx. apply H. right. exact Hx.
Qed.

(** With distinct [case] labels, as C demands of a [switch], each of
    the 28 signals gets its own name. *)
Lemma get_signal_name_known (s : signal) :
  List.NoDup (map signo get_signal_table) ->
  get_signal_name (signo s) = stringify s.
Proof.
  intros Hnd. unfold get_signal_name.
  rewrite (find_unique signo get_signal_table s Hnd (get_signal_table_complete s)).
  reflexivity.
Qed.

Lemma get_signal_name_unknown (n : Z) :
  (forall s : signal, signo s <> n) ->
  get_signal_name n = "UNKNOWN_SIGNAL".
Proof.
  intros H. unfold get_signal_name. rewrite find_none; [reflexivity|].
  intros s _. apply Z.eqb_neq. apply H.
Qed.


(** C4, as the code has it: a child that died from a signal is reported
    as a failure; the message quotes with a backquote and an apostrophe,
    puts a space between the name of the signal and its number, and the
    name comes from a [switch] of 28 cases that gives each of them its
    [SIG...] name and every other number [UNKNOWN_SIGNAL]. *)
Theorem default_classification_signaled (job : UDisksSpawnedJob) (status : Z)
    (out err : string) :
  WIFEXITED status = false ->
  WIFSIGNALED status = true ->
  List.NoDup (map signo get_signal_table) ->
  udisks_spawned_job_spawned_job_completed_default job None status (Some out) (Some err)
  = [job_completed false
       ("Command-line `" +:+ c_str (command_line job) +:+ "' was signaled with signal "
          +:+ get_signal_name (WTERMSIG status) +:+ " (" +:+ fmt_d (WTERMSIG status)
          +:+ ")." +:+ nl +:+ "stdout: `" +:+ c_str out +:+ "'" +:+ nl
          +:+ "stderr: `" +:+ c_str err +:+ "'")] /\
  length get_signal_table = 28%nat /\
  (forall s : signal, get_signal_name (signo s) = stringify s) /\
  (forall n : Z, (forall s : signal, signo s <> n) -> get_signal_name n = "UNKNOWN_SIGNAL").
Proof.
  intros Hexited Hsignaled Hnd. repeat split.
  - unfold udisks_spawned_job_spawned_job_completed_default.
    rewrite Hexited, Hsignaled. simpl. rewrite get_signal_name_c_str.
    unfold fmt_s. rewrite !string_app_assoc. reflexivity.
  - intros s. apply get_signal_name_known. exact Hnd.
  - apply get_signal_name_unknown.
Qed.

End ClassificationFacts.

(** ** The spawned job on its loop *)

Section LoopFacts.
Import SpawnedJob.

Context {P : Platform}.
Variable env : Environment.

(** *** What each operation does to the world *)

Lemma default_is_report (j : UDisksSpawnedJob) (error : option GError) (status : Z)
    (out err : option string) :
  Forall is_report
    (udisks_spawned_job_spawned_job_completed_default j error status out err).
Proof.
  unfold udisks_spawned_job_spawned_job_completed_default.
  destruct error; [repeat constructor|].
  destruct (WIFEXITED status && (WEXITSTATUS status =? 0)); [repeat constructor|].
  destruct out, err; repeat constructor.
Qed.

Lemma g_signal_emit_spec (w : World) (error : option GError) (status : Z)
    (out err : option string) :
  exists report,
    Forall is_report report /\
    g_signal_emit env w error status out err
    = log (spawned_job_completed error status out err :: report) w.
Proof.
  unfold g_signal_emit.
  destruct (subscriber env error status out err).
  - exists []. split; [constructor|reflexivity].
  - eexists. split; [apply default_is_report|].
    unfold log. simpl. rewrite <- app_assoc. reflexivity.
Qed.

Lemma finalize_spec (w : World) :
  exists teardown,
    Forall is_teardown teardown /\
    job (udisks_spawned_job_finalize w)
    = set_input (zeroed_input (job w)) (input_string_cursor (job w)) (released (job w)) /\
    ref_count (udisks_spawned_job_finalize w) = O /\
    owner_ref (udisks_spawned_job_finalize w) = owner_ref w /\
    token_cancelled (udisks_spawned_job_finalize w) = token_cancelled w /\
    idle_sources (udisks_spawned_job_finalize w) = idle_sources w /\
    trace (udisks_spawned_job_finalize w)
    = trace w ++ teardown ++ input_string_frees (job w).
Proof.
  unfold udisks_spawned_job_finalize, input_string_frees, zeroed_input.
  pose proof (release_resources_job (job w)) as Hj.
  pose proof (release_resources_teardown (job w)) as Ht.
  destruct (udisks_spawned_job_release_resources (job w)) as [j t].
  simpl in Hj, Ht. subst j.
  exists (t ++ on_handle g_main_context_unref (main_context (job w)) ++ [command_line_freed]).
  split.
  { apply Forall_app. split; [exact Ht|]. apply Forall_app. split.
    - destruct (main_context (job w)); repeat constructor.
    - repeat constructor. }
  destruct (job w) as [cl ca hid mc ins cur pid fin fout ferr cin cout cerr ws sin sout serr bo be].
  simpl. destruct ins; simpl; repeat split; rewrite <- ?app_assoc; reflexivity.
Qed.

Lemma g_object_unref_cases (w : World) :
  (ref_count w = O /\ g_object_unref w = w) \/
  (ref_count w = 1%nat /\ g_object_unref w = udisks_spawned_job_finalize w) \/
  (exists n, ref_count w = S (S n) /\ g_object_unref w = with_ref_count (S n) w).
Proof.
  unfold g_object_unref. destruct (ref_count w) as [|[|n]]; eauto.
Qed.

(** The child watch, dispatched on a live job: one emission without
    error, carrying the status and the buffers with what was left in the
    pipes, then release; the reference taken for the emission is given
    back. *)
Lemma child_watch_cb_spec (w : World) (status : Z) (stdout_rest stderr_rest : option string) :
  (0 < ref_count w)%nat ->
  exists report teardown,
    Forall is_report report /\ Forall is_teardown teardown /\
    job (child_watch_cb env w status stdout_rest stderr_rest) = released (job w) /\
    ref_count (child_watch_cb env w status stdout_rest stderr_rest) = ref_count w /\
    owner_ref (child_watch_cb env w status stdout_rest stderr_rest) = owner_ref w /\
    token_cancelled (child_watch_cb env w status stdout_rest stderr_rest)
    = token_cancelled w /\
    idle_sources (child_watch_cb env w status stdout_rest stderr_rest) = idle_sources w /\
    trace (child_watch_cb env w status stdout_rest stderr_rest)
    = trace w
        ++ spawned_job_completed None status
             (read_to_end (child_stdout_channel (job w)) stdout_rest (child_stdout (job w)))
             (read_to_end (child_stderr_channel (job w)) stderr_rest (child_stderr (job w)))
        :: report ++ teardown.
Proof.
  intros Hlive. unfold child_watch_cb.
  match goal with
  | |- context [g_signal_emit env ?w0 ?e ?s ?o ?r] =>
      destruct (g_signal_emit_spec w0 e s o r) as (report & Hreport & Hemit);
      rewrite Hemit; clear Hemit
  end.
  match goal with
  | |- context [udisks_spawned_job_release_resources ?j0] =>
      pose proof (release_resources_job j0) as Hj;
      pose proof (release_resources_teardown j0) as Ht;
      destruct (udisks_spawned_job_release_resources j0) as [j' teardown]
  end.
  simpl in Hj, Ht. subst j'.
  exists report, teardown. split; [exact Hreport|]. split; [exact Ht|].
  unfold g_object_unref. simpl.
  destruct (ref_count w) as [|n] eqn:Hrc; [lia|].
  simpl. rewrite ?Hrc.
  destruct (job w) as [cl ca hid mc ins cur pid fin fout ferr cin cout cerr ws sin sout serr bo be].
  simpl. repeat split; rewrite <- ?app_assoc; reflexivity.
Qed.

Lemma emit_completed_with_error_in_idle_cb_spec (w : World) (data : IdleSource) :
  exists report,
    Forall is_report report /\
    emit_completed_with_error_in_idle_cb env w data
    = g_object_unref
        (log (spawned_job_completed (Some (idle_error data)) 0 None None :: report) w).
Proof.
  unfold emit_completed_with_error_in_idle_cb.
  destruct (g_signal_emit_spec w (Some (idle_error data)) 0 None None)
    as (report & Hreport & Hemit).
  rewrite Hemit. exists report. split; [exact Hreport|reflexivity].
Qed.

(** An invariant of [dispatch] holds after every run. *)
Lemma run_invariant (I : World -> Prop) (allowed : Event -> Prop) :
  (forall w e, allowed e -> I w -> I (dispatch env w e)) ->
  forall events w, Forall allowed events -> I w -> I (run env events w).
Proof.
  intros Hstep events. induction events as [|e events IH]; intros w Hall Hw.
  - exact Hw.
  - inversion Hall; subst. simpl. apply IH; [assumption|]. apply Hstep; assumption.
Qed.

(** *** Reference counting and liveness *)

Lemma released_watch (j : UDisksSpawnedJob) :
  released j = j -> child_watch_source j = None /\ cancellable_handler_id j = 0%N
                    /\ child_stdin_source j = None /\ child_stdout_source j = None
                    /\ child_stderr_source j = None.
Proof. intros <-. repeat split. Qed.

Lemma Inv_new (command_line : string) (input_string : option string)
    (cancellable : option bool) :
  Inv env (udisks_spawned_job_new env command_line input_string cancellable).
Proof.
  unfold udisks_spawned_job_new, udisks_spawned_job_constructed,
    g_cancellable_set_error_if_cancelled.
  destruct cancellable as [[|]|]; simpl;
    try (destruct (g_shell_parse_argv env (c_str command_line)) as [e|argv];
         [|destruct (g_spawn_async_with_pipes env argv) as [e|child];
           [|destruct input_string]]);
    (split;
     (simpl;
      try match goal with
          | |- context [negb (?x =? -1)] => destruct (negb (x =? -1)); simpl
          end);
     first [ reflexivity
           | intros H; discriminate H
           | intros H; exfalso; apply H; reflexivity
           | intros H; split; discriminate ]).
Qed.

Lemma Inv_ext (w w' : World) :
  job w' = job w -> ref_count w' = ref_count w -> owner_ref w' = owner_ref w ->
  idle_sources w' = idle_sources w -> Inv env w -> Inv env w'.
Proof.
  intros Hj Hr Ho Hi [R D B C].
  split; rewrite ?Hj, ?Hr, ?Ho, ?Hi; assumption.
Qed.

Lemma Inv_finalize (w : World) :
  owner_ref w = false -> idle_sources w = [] ->
  main_context (job w) = g_main_context_get_thread_default env ->
  Inv env (udisks_spawned_job_finalize w).
Proof.
  intros Ho Hi Hc.
  destruct (finalize_spec w) as (t & _ & Hj & Hr & Ho' & _ & Hi' & _).
  split; rewrite ?Hj, ?Hr, ?Ho', ?Hi', ?Ho, ?Hi.
  - reflexivity.
  - reflexivity.
  - intros H. exfalso. apply H. reflexivity.
  - exact Hc.
Qed.

(** Giving back a reference that is counted. *)
Lemma Inv_unref (w : World) :
  ref_count w = S ((if owner_ref w then 1 else 0) + length (idle_sources w)) ->
  (child_watch_source (job w) <> None ->
   child_stdout (job w) <> None /\ child_stderr (job w) <> None) ->
  main_context (job w) = g_main_context_get_thread_default env ->
  Inv env (g_object_unref w).
Proof.
  intros Hr Hb Hc.
  destruct (g_object_unref_cases w) as [[H0 _]|[[H1 ->]|(n & Hn & ->)]].
  - rewrite H0 in Hr. discriminate Hr.
  - rewrite H1 in Hr. apply Inv_finalize.
    + destruct (owner_ref w); [discriminate Hr|reflexivity].
    + destruct (owner_ref w); [discriminate Hr|].
      destruct (idle_sources w); [reflexivity|discriminate Hr].
    + exact Hc.
  - split; simpl.
    + lia.
    + discriminate.
    + exact Hb.
    + exact Hc.
Qed.

Lemma Inv_dispatch (w : World) (e : Event) : Inv env w -> Inv env (dispatch env w e).
Proof.
  intros HI. pose proof HI as [R D B C].
  destruct e as [| |status stdout_rest stderr_rest|accepted|available|available|]; simpl.
  - (* token_cancel *)
    destruct (token_cancelled w); [exact HI|].
    destruct (0 <? cancellable_handler_id (job w))%N;
      [|apply (Inv_ext w); try reflexivity; exact HI].
    unfold on_cancelled, g_cancellable_set_error_if_cancelled. simpl.
    destruct (cancellable (job w)); simpl;
      [|apply (Inv_ext w); try reflexivity; exact HI].
    split; simpl.
    + rewrite length_app. simpl. lia.
    + discriminate.
    + exact B.
    + exact C.
  - (* idle_dispatch *)
    destruct (idle_sources w) as [|data rest] eqn:Hidle; [exact HI|].
    destruct (emit_completed_with_error_in_idle_cb_spec (with_idle_sources rest w) data)
      as (report & _ & ->).
    apply Inv_unref; simpl.
    + rewrite R. simpl. lia.
    + exact B.
    + exact C.
  - (* child_exited *)
    destruct (child_watch_source (job w)) eqn:Hwatch; [|exact HI].
    assert (Hlive : (0 < ref_count w)%nat).
    { destruct (ref_count w); [|lia]. exfalso.
      destruct (released_watch _ (D eq_refl)) as [H _]. congruence. }
    destruct (child_watch_cb_spec w status stdout_rest stderr_rest Hlive)
      as (report & teardown & _ & _ & Hj & Hr & Ho & _ & Hi & _).
    split; rewrite ?Hj, ?Hr, ?Ho, ?Hi.
    + exact R.
    + reflexivity.
    + intros H. exfalso. apply H. reflexivity.
    + exact C.
  - (* stdin_writable *)
    destruct (child_stdin_source (job w)) eqn:Hsrc; [|exact HI].
    unfold write_child_stdin.
    match goal with
    | |- context [if ?b then _ else _] => destruct b
    end; (split; simpl;
          [ exact R
          | intros H; destruct (released_watch _ (D H)) as (_ & _ & H' & _); congruence
          | exact B
          | exact C ]).
  - (* stdout_readable *)
    destruct (child_stdout_source (job w)) eqn:Hsrc; [|exact HI].
    split; simpl.
    + exact R.
    + intros H. destruct (released_watch _ (D H)) as (_ & _ & _ & H' & _). congruence.
    + intros H. destruct (B H) as [Hout Herr]. split; [|exact Herr].
      destruct (child_stdout (job w)); [discriminate|contradiction].
    + exact C.
  - (* stderr_readable *)
    destruct (child_stderr_source (job w)) eqn:Hsrc; [|exact HI].
    split; simpl.
    + exact R.
    + intros H. destruct (released_watch _ (D H)) as (_ & _ & _ & _ & H'). congruence.
    + intros H. destruct (B H) as [Hout Herr]. split; [exact Hout|].
      destruct (child_stderr (job w)); [discriminate|contradiction].
    + exact C.
  - (* owner_unref *)
    destruct (owner_ref w) eqn:Howner; [|exact HI].
    apply Inv_unref; simpl.
    + rewrite R. reflexivity.
    + exact B.
    + exact C.
Qed.

Lemma Inv_run (events : list Event) (command_line : string)
    (input_string : option string) (cancellable : option bool) :
  Inv env (run env events (udisks_spawned_job_new env command_line input_string cancellable)).
Proof.
  apply (run_invariant (Inv env) (fun _ => True)).
  - intros w e _. apply Inv_dispatch.
  - apply Forall_forall. intros; exact I.
  - apply Inv_new.
Qed.

(** *** How often completion is emitted *)

Lemma filter_none {A} (f : A -> bool) (l : list A) :
  Forall (fun x => f x = false) l -> List.filter f l = [].
Proof.
  induction 1 as [|x l Hx _ IH]; simpl; [reflexivity|]. rewrite Hx. exact IH.
Qed.

Lemma teardown_no_completion (t : list Effect) :
  Forall is_teardown t -> List.filter is_completion t = [].
Proof.
  intros H. apply filter_none. eapply List.Forall_impl; [|exact H].
  intros [] He; simpl in *; try reflexivity; contradiction.
Qed.

Lemma report_no_completion (t : list Effect) :
  Forall is_report t -> List.filter is_completion t = [].
Proof.
  intros H. apply filter_none. eapply List.Forall_impl; [|exact H].
  intros [] He; simpl in *; try reflexivity; contradiction.
Qed.

Lemma frees_no_completion (j : UDisksSpawnedJob) :
  List.filter is_completion (input_string_frees j) = [].
Proof. unfold input_string_frees. destruct (input_string j); reflexivity. Qed.

Lemma write_child_stdin_no_completion (j : UDisksSpawnedJob) (accepted : nat) :
  List.filter is_completion (snd (fst (write_child_stdin j accepted))) = [].
Proof.
  unfold write_child_stdin.
  match goal with
  | |- context [if ?b then _ else _] => destruct b
  end; simpl; [|reflexivity].
  destruct (child_stdin_channel j), (child_stdin_source j); reflexivity.
Qed.

Lemma completions_trace (w : World) (t : list Effect) :
  trace w = t -> completions w = length (List.filter is_completion t).
Proof. intros <-. reflexivity. Qed.

Lemma once_new (command_line : string) (input_string : option string)
    (cancellable : option bool) :
  once (udisks_spawned_job_new env command_line input_string cancellable).
Proof.
  unfold udisks_spawned_job_new, udisks_spawned_job_constructed,
    g_cancellable_set_error_if_cancelled.
  destruct cancellable as [[|]|]; simpl;
    try (destruct (g_shell_parse_argv env (c_str command_line)) as [e|argv];
         [|destruct (g_spawn_async_with_pipes env argv) as [e|child];
           [|destruct input_string]]);
    unfold once, completions, pending; simpl;
    try match goal with
        | |- context [negb (?x =? -1)] => destruct (negb (x =? -1)); simpl
        end;
    (split; [lia|intros _; reflexivity]).
Qed.

Lemma once_finalize (w : World) :
  (completions (udisks_spawned_job_finalize w)
   + pending (udisks_spawned_job_finalize w) <= completions w + pending w)%nat.
Proof.
  destruct (finalize_spec w) as (t & Ht & Hj & _ & _ & _ & Hi & Htr).
  unfold pending. rewrite Hj, Hi. simpl.
  rewrite (completions_trace _ _ Htr), !List.filter_app.
  rewrite (teardown_no_completion t Ht), frees_no_completion. simpl.
  rewrite app_nil_r. unfold completions. lia.
Qed.

Lemma once_unref (w : World) :
  (completions (g_object_unref w) + pending (g_object_unref w)
   <= completions w + pending w)%nat /\
  ((1 < ref_count w)%nat ->
   (completions (g_object_unref w) + pending (g_object_unref w)
    = completions w + pending w)%nat).
Proof.
  destruct (g_object_unref_cases w) as [[H0 ->]|[[H1 ->]|(n & Hn & ->)]].
  - split; [lia|reflexivity].
  - split; [apply once_finalize|lia].
  - split; [|intros _]; reflexivity.
Qed.

(** Every event but a cancellation that takes effect keeps [once]. *)
Lemma once_dispatch (w : World) (e : Event) :
  (e = token_cancel -> token_cancelled w = true) ->
  Inv env w -> once w -> once (dispatch env w e).
Proof.
  intros Hquiet [R D B C] [Hle Heq].
  destruct e as [| |status stdout_rest stderr_rest|accepted|available|available|]; simpl.
  - rewrite (Hquiet eq_refl). split; assumption.
  - (* idle_dispatch *)
    destruct (idle_sources w) as [|data rest] eqn:Hidle; [split; assumption|].
    destruct (emit_completed_with_error_in_idle_cb_spec (with_idle_sources rest w) data)
      as (report & Hreport & ->).
    match goal with
    | |- once (g_object_unref ?w1) =>
        assert (H1 : (completions w1 + pending w1 = completions w + pending w)%nat);
        [|destruct (once_unref w1) as [Hu1 Hu2]; simpl in Hu2]
    end.
    { unfold completions, pending. simpl. rewrite Hidle. simpl.
      rewrite List.filter_app. simpl. rewrite (report_no_completion report Hreport).
      rewrite length_app. simpl. lia. }
    split.
    + lia.
    + intros Ho.
      assert (owner_ref w = true) as Ho'.
      { destruct (g_object_unref_cases
                    (log (spawned_job_completed (Some (idle_error data)) 0 None None
                            :: report) (with_idle_sources rest w)))
          as [[_ E]|[[_ E]|(n & _ & E)]]; rewrite E in Ho.
        - exact Ho.
        - destruct (finalize_spec
                      (log (spawned_job_completed (Some (idle_error data)) 0 None None
                              :: report) (with_idle_sources rest w)))
            as (t & _ & _ & _ & Ho2 & _). rewrite Ho2 in Ho. exact Ho.
        - exact Ho. }
      rewrite Hu2; [rewrite H1; apply Heq; exact Ho'|].
      rewrite R, Ho'. simpl. lia.
  - (* child_exited *)
    destruct (child_watch_source (job w)) eqn:Hwatch; [|split; assumption].
    assert (Hlive : (0 < ref_count w)%nat).
    { destruct (ref_count w); [|lia]. exfalso.
      destruct (released_watch _ (D eq_refl)) as [H _]. congruence. }
    destruct (child_watch_cb_spec w status stdout_rest stderr_rest Hlive)
      as (report & teardown & Hreport & Hteardown & Hj & Hr & Ho & _ & Hi & Htr).
    unfold once, pending in *. rewrite Hj, Ho, Hi. rewrite Hwatch in Hle, Heq.
    cbn [non_null] in Hle, Heq.
    rewrite (completions_trace _ _ Htr). simpl.
    rewrite List.filter_app. simpl. rewrite List.filter_app.
    rewrite (report_no_completion report Hreport).
    rewrite (teardown_no_completion teardown Hteardown). simpl.
    rewrite length_app. simpl. unfold completions in *. split; [lia|].
    intros H. specialize (Heq H). lia.
  - (* stdin_writable *)
    destruct (child_stdin_source (job w)) eqn:Hsrc; [|split; assumption].
    pose proof (write_child_stdin_no_completion (job w) accepted) as Hnone.
    assert (Hw : child_watch_source (fst (fst (write_child_stdin (job w) accepted)))
                 = child_watch_source (job w)).
    { unfold write_child_stdin.
      match goal with
      | |- context [if ?b then _ else _] => destruct b
      end; reflexivity. }
    destruct (write_child_stdin (job w) accepted) as [[j t] keep]. simpl in Hnone, Hw.
    unfold once, completions, pending in *. simpl.
    rewrite List.filter_app, Hnone, app_nil_r, Hw. split; assumption.
  - destruct (child_stdout_source (job w)); split; first [exact Hle|exact Heq].
  - destruct (child_stderr_source (job w)); split; first [exact Hle|exact Heq].
  - (* owner_unref *)
    destruct (owner_ref w) eqn:Howner;
      [|split; [exact Hle|intros H'; simpl in H'; congruence]].
    match goal with
    | |- once (g_object_unref ?w1) => destruct (once_unref w1) as [Hu1 _]
    end.
    split.
    + etransitivity; [exact Hu1|]. exact Hle.
    + intros Ho. exfalso.
      destruct (g_object_unref_cases (with_owner_ref false w))
        as [[_ E]|[[_ E]|(n & _ & E)]]; rewrite E in Ho.
      * discriminate Ho.
      * destruct (finalize_spec (with_owner_ref false w))
          as (t & _ & _ & _ & Ho2 & _). rewrite Ho2 in Ho. discriminate Ho.
      * discriminate Ho.
Qed.

Lemma token_cancelled_dispatch (w : World) (e : Event) :
  token_cancelled w = true -> token_cancelled (dispatch env w e) = true.
Proof.
  intros Htok.
  destruct e as [| |status stdout_rest stderr_rest|accepted|available|available|]; simpl.
  - rewrite Htok. exact Htok.
  - destruct (idle_sources w) as [|data rest]; [exact Htok|].
    destruct (emit_completed_with_error_in_idle_cb_spec (with_idle_sources rest w) data)
      as (report & _ & ->).
    match goal with
    | |- context [g_object_unref ?w1] =>
        destruct (g_object_unref_cases w1) as [[_ ->]|[[_ ->]|(n & _ & ->)]];
        [exact Htok| |exact Htok];
        destruct (finalize_spec w1) as (t & _ & _ & _ & _ & -> & _); exact Htok
    end.
  - destruct (child_watch_source (job w)); [|exact Htok].
    unfold child_watch_cb.
    match goal with
    | |- context [g_signal_emit env ?w0 ?e ?s ?o ?r] =>
        destruct (g_signal_emit_spec w0 e s o r) as (report & _ & ->)
    end.
    match goal with
    | |- context [udisks_spawned_job_release_resources ?j0] =>
        destruct (udisks_spawned_job_release_resources j0) as [j' teardown]
    end.
    match goal with
    | |- context [g_object_unref ?w1] =>
        destruct (g_object_unref_cases w1) as [[_ ->]|[[_ ->]|(n & _ & ->)]];
        [exact Htok| |exact Htok];
        destruct (finalize_spec w1) as (t & _ & _ & _ & _ & -> & _); exact Htok
    end.
  - destruct (child_stdin_source (job w)); [|exact Htok].
    destruct (write_child_stdin (job w) accepted) as [[j t] keep]. exact Htok.
  - destruct (child_stdout_source (job w)); exact Htok.
  - destruct (child_stderr_source (job w)); exact Htok.
  - destruct (owner_ref w); [|exact Htok].
    match goal with
    | |- context [g_object_unref ?w1] =>
        destruct (g_object_unref_cases w1) as [[_ ->]|[[_ ->]|(n & _ & ->)]];
        [exact Htok| |exact Htok];
        destruct (finalize_spec w1) as (t & _ & _ & _ & _ & -> & _); exact Htok
    end.
Qed.

Lemma token_cancelled_new (command_line : string) (input_string : option string) :
  token_cancelled (udisks_spawned_job_new env command_line input_string (Some true)) = true.
Proof. reflexivity. Qed.

Lemma at_least_once_new (command_line : string) (input_string : option string)
    (token : option bool) :
  at_least_once (udisks_spawned_job_new env command_line input_string token).
Proof.
  intros Ho. destruct (once_new command_line input_string token) as [_ H].
  rewrite (H Ho). constructor.
Qed.

Lemma owner_ref_unref (w : World) : owner_ref (g_object_unref w) = owner_ref w.
Proof.
  destruct (g_object_unref_cases w) as [[_ ->]|[[_ ->]|(n & _ & ->)]];
    [reflexivity| |reflexivity].
  destruct (finalize_spec w) as (t & _ & _ & _ & Ho & _). exact Ho.
Qed.

(** Every event, a cancellation too, keeps [at_least_once]. *)
Lemma at_least_once_dispatch (w : World) (e : Event) :
  Inv env w -> at_least_once w -> at_least_once (dispatch env w e).
Proof.
  intros [R D B C] H.
  destruct e as [| |status stdout_rest stderr_rest|accepted|available|available|]; simpl.
  - (* token_cancel *)
    destruct (token_cancelled w); [exact H|].
    destruct (0 <? cancellable_handler_id (job w))%N; [|exact H].
    unfold on_cancelled, g_cancellable_set_error_if_cancelled. simpl.
    destruct (cancellable (job w)); simpl; [|exact H].
    intros Ho. specialize (H Ho). unfold completions, pending in *. simpl.
    rewrite length_app. simpl. lia.
  - (* idle_dispatch *)
    destruct (idle_sources w) as [|data rest] eqn:Hidle; [exact H|].
    destruct (emit_completed_with_error_in_idle_cb_spec (with_idle_sources rest w) data)
      as (report & Hreport & ->).
    intros Ho. rewrite owner_ref_unref in Ho. simpl in Ho. specialize (H Ho).
    match goal with
    | |- context [g_object_unref ?w1] =>
        assert (H1 : (completions w1 + pending w1 = completions w + pending w)%nat);
        [|destruct (once_unref w1) as [_ Hu2]; simpl in Hu2]
    end.
    { unfold completions, pending. simpl. rewrite Hidle. simpl.
      rewrite List.filter_app. simpl. rewrite (report_no_completion report Hreport).
      rewrite length_app. simpl. lia. }
    rewrite Hu2; [lia|]. rewrite R, Ho. simpl. lia.
  - (* child_exited *)
    destruct (child_watch_source (job w)) eqn:Hwatch; [|exact H].
    assert (Hlive : (0 < ref_count w)%nat).
    { destruct (ref_count w); [|lia]. exfalso.
      destruct (released_watch _ (D eq_refl)) as [H' _]. congruence. }
    destruct (child_watch_cb_spec w status stdout_rest stderr_rest Hlive)
      as (report & teardown & Hreport & Hteardown & _ & _ & _ & _ & _ & Htr).
    intros _. rewrite (completions_trace _ _ Htr).
    rewrite List.filter_app, length_app. simpl. lia.
  - (* stdin_writable *)
    destruct (child_stdin_source (job w)) eqn:Hsrc; [|exact H].
    pose proof (write_child_stdin_no_completion (job w) accepted) as Hnone.
    assert (Hw : child_watch_source (fst (fst (write_child_stdin (job w) accepted)))
                 = child_watch_source (job w)).
    { unfold write_child_stdin.
      match goal with
      | |- context [if ?b then _ else _] => destruct b
      end; reflexivity. }
    destruct (write_child_stdin (job w) accepted) as [[j t] keep]. simpl in Hnone, Hw.
    unfold at_least_once, completions, pending in *. simpl.
    rewrite List.filter_app, Hnone, app_nil_r, Hw. exact H.
  - destruct (child_stdout_source (job w)); exact H.
  - destruct (child_stderr_source (job w)); exact H.
  - (* owner_unref *)
    destruct (owner_ref w) eqn:Howner; [|intros Ho; simpl in Ho; congruence].
    intros Ho. rewrite owner_ref_unref in Ho. discriminate Ho.
Qed.

(** Where the job does complete once. Whatever the callbacks and their
    order, completion has been emitted at least once when no idle source
    is left, the child watch is gone and the caller still holds its
    reference. When moreover the token does not trip after the job is made
    (it may have tripped before), completion is emitted at most once, so
    exactly once in the end: on normal child exit, with the token tripped
    at construction, on a parse failure and on a spawn failure. *)
Theorem spawned_job_completed_once_without_late_cancel
    (command_line : string) (input_string : option string) (token : option bool)
    (events : list Event) :
  let w :=
    run env events (udisks_spawned_job_new env command_line input_string token) in
  (owner_ref w = true -> idle_sources w = [] -> child_watch_source (job w) = None ->
   (1 <= completions w)%nat) /\
  (token = Some true \/ ~ In token_cancel events ->
   (completions w <= 1)%nat /\
   (owner_ref w = true -> idle_sources w = [] -> child_watch_source (job w) = None ->
    completions w = 1%nat)).
Proof.
  cbv zeta. split.
  - assert (H : at_least_once
                  (run env events
                     (udisks_spawned_job_new env command_line input_string token))).
    { apply (run_invariant (fun w => Inv env w /\ at_least_once w) (fun _ => True)).
      - intros w e _ [HI H]. split.
        + apply Inv_dispatch. exact HI.
        + apply at_least_once_dispatch; assumption.
      - apply Forall_forall. intros; exact I.
      - split; [apply Inv_new|apply at_least_once_new]. }
    intros Ho Hi Hw. specialize (H Ho). unfold pending in H.
    rewrite Hi, Hw in H. simpl in H. lia.
  - intros Hquiet.
    assert (Honce :
      once (run env events
              (udisks_spawned_job_new env command_line input_string token))).
    { destruct Hquiet as [->|Hnone].
      - apply (run_invariant
                 (fun w => (Inv env w /\ once w) /\ token_cancelled w = true)
                 (fun _ => True)).
        + intros w e _ [[HI Ho] Ht]. split; [split|].
          * apply Inv_dispatch. exact HI.
          * apply once_dispatch; [intros _; exact Ht|exact HI|exact Ho].
          * apply token_cancelled_dispatch. exact Ht.
        + apply Forall_forall. intros; exact I.
        + split; [split|]; [apply Inv_new|apply once_new|apply token_cancelled_new].
      - apply (run_invariant (fun w => Inv env w /\ once w) (fun e => e <> token_cancel)).
        + intros w e He [HI Ho]. split.
          * apply Inv_dispatch. exact HI.
          * apply once_dispatch; [intros E; contradiction|exact HI|exact Ho].
        + apply Forall_forall. intros e He E. apply Hnone.
          rewrite <- E. apply list_elem_of_In. exact He.
        + split; [apply Inv_new|apply once_new]. }
    destruct Honce as [Hle Heq]. unfold pending in *. split; [lia|].
    intros Ho Hi Hw. specialize (Heq Ho). rewrite Hi, Hw in Heq. simpl in Heq. lia.
Qed.

(** *** The class handler never faults *)

Lemma teardown_no_fault (t : list Effect) :
  Forall is_teardown t -> ~ In null_dereference t.
Proof.
  intros H Hin. rewrite List.Forall_forall in H. exact (H _ Hin).
Qed.

Lemma default_no_fault (j : UDisksSpawnedJob) (error : option GError) (status : Z)
    (out err : option string) :
  (error = None -> out <> None /\ err <> None) ->
  ~ In null_dereference
      (udisks_spawned_job_spawned_job_completed_default j error status out err).
Proof.
  intros Hbuf. unfold udisks_spawned_job_spawned_job_completed_default.
  destruct error as [error|].
  - intros [H|[]]. discriminate H.
  - destruct (Hbuf eq_refl) as [Hout Herr].
    destruct out; [|contradiction]. destruct err; [|contradiction].
    destruct (WIFEXITED status && (WEXITSTATUS status =? 0)); intros [H|[]]; discriminate H.
Qed.

Lemma no_fault_log (t : list Effect) (w : World) :
  ~ In null_dereference t -> no_fault w -> no_fault (log t w).
Proof.
  unfold no_fault. simpl. intros Ht Hw Hin. apply in_app_or in Hin. tauto.
Qed.

Lemma no_fault_with_job (j : UDisksSpawnedJob) (w : World) :
  no_fault w -> no_fault (with_job j w).
Proof. intros H. exact H. Qed.

Lemma no_fault_emit (w : World) (error : option GError) (status : Z)
    (out err : option string) :
  (error = None -> out <> None /\ err <> None) ->
  no_fault w -> no_fault (g_signal_emit env w error status out err).
Proof.
  intros Hbuf Hw. unfold g_signal_emit.
  destruct (subscriber env error status out err).
  - apply no_fault_log; [|exact Hw]. intros [H|[]]. discriminate H.
  - apply no_fault_log; [apply default_no_fault; exact Hbuf|].
    apply no_fault_log; [|exact Hw]. intros [H|[]]. discriminate H.
Qed.

Lemma no_fault_finalize (w : World) : no_fault w -> no_fault (udisks_spawned_job_finalize w).
Proof.
  intros Hw. destruct (finalize_spec w) as (t & Ht & _ & _ & _ & _ & _ & Htr).
  unfold no_fault. rewrite Htr. intros Hin.
  apply in_app_or in Hin. destruct Hin as [Hin|Hin]; [exact (Hw Hin)|].
  apply in_app_or in Hin. destruct Hin as [Hin|Hin]; [exact (teardown_no_fault t Ht Hin)|].
  unfold input_string_frees in Hin.
  destruct (SpawnedJob.input_string (job w)); simpl in Hin; [|contradiction].
  destruct Hin as [H|[]]. discriminate H.
Qed.

Lemma no_fault_unref (w : World) : no_fault w -> no_fault (g_object_unref w).
Proof.
  intros Hw.
  destruct (g_object_unref_cases w) as [[_ ->]|[[_ ->]|(n & _ & ->)]].
  - exact Hw.
  - apply no_fault_finalize. exact Hw.
  - exact Hw.
Qed.

Lemma read_to_end_non_null (channel : option GIOChannel) (rest buf : option string) :
  buf <> None -> read_to_end channel rest buf <> None.
Proof.
  intros H. unfold read_to_end. destruct channel, rest; try exact H.
  destruct buf; [discriminate|contradiction].
Qed.

Lemma no_fault_dispatch (w : World) (e : Event) :
  Inv env w -> no_fault w -> no_fault (dispatch env w e).
Proof.
  intros [R D B C] H.
  destruct e as [| |status stdout_rest stderr_rest|accepted|available|available|]; simpl.
  - destruct (token_cancelled w); [exact H|].
    destruct (0 <? cancellable_handler_id (job w))%N; [|exact H].
    unfold on_cancelled, g_cancellable_set_error_if_cancelled. simpl.
    destruct (cancellable (job w)); exact H.
  - destruct (idle_sources w) as [|data rest]; [exact H|].
    unfold emit_completed_with_error_in_idle_cb.
    apply no_fault_unref. apply no_fault_emit; [discriminate|exact H].
  - destruct (child_watch_source (job w)) eqn:Hwatch; [|exact H].
    destruct B as [Hout Herr]; [congruence|].
    unfold child_watch_cb.
    match goal with
    | |- context [udisks_spawned_job_release_resources ?j0] =>
        pose proof (release_resources_teardown j0) as Ht;
        destruct (udisks_spawned_job_release_resources j0) as [j' teardown]
    end.
    simpl in Ht.
    apply no_fault_unref. apply no_fault_log; [exact (teardown_no_fault _ Ht)|].
    apply no_fault_with_job.
    apply no_fault_emit; [|exact H].
    intros _. split; apply read_to_end_non_null; assumption.
  - destruct (child_stdin_source (job w)); [|exact H].
    assert (Ht : ~ In null_dereference (snd (fst (write_child_stdin (job w) accepted)))).
    { unfold write_child_stdin.
      match goal with
      | |- context [if ?b then _ else _] => destruct b
      end; simpl.
      - destruct (child_stdin_channel (job w)), (child_stdin_source (job w)); simpl;
          intuition discriminate.
      - intuition discriminate. }
    destruct (write_child_stdin (job w) accepted) as [[j t] keep]. simpl in Ht.
    apply no_fault_log; [exact Ht|exact H].
  - destruct (child_stdout_source (job w)); exact H.
  - destruct (child_stderr_source (job w)); exact H.
  - destruct (owner_ref w); [|exact H]. apply no_fault_unref. exact H.
Qed.

(** On every run of a job the buffers of an emission without error are
    there: the class handler never reads a [NULL] buffer. *)
Lemma run_no_fault (events : list Event) (command_line : string)
    (input_string : option string) (token : option bool) :
  no_fault (run env events (udisks_spawned_job_new env command_line input_string token)).
Proof.
  apply (run_invariant (fun w => Inv env w /\ no_fault w) (fun _ => True)).
  - intros w e _ [HI H]. split.
    + apply Inv_dispatch. exact HI.
    + apply no_fault_dispatch; assumption.
  - apply Forall_forall. intros; exact I.
  - split; [apply Inv_new|].
    unfold no_fault, udisks_spawned_job_new, udisks_spawned_job_constructed,
      g_cancellable_set_error_if_cancelled.
    destruct token as [[|]|]; simpl;
      try (destruct (g_shell_parse_argv env (c_str command_line)) as [e|argv];
           [|destruct (g_spawn_async_with_pipes env argv) as [e|child]]);
      simpl; intros [].
Qed.

(** *** Every emission is classified *)










(** *** Cancellation *)

Lemma completed_naturally_log (w : World) (t : list Effect) :
  completed_naturally (log t w) = false -> completed_naturally w = false.
Proof.
  unfold completed_naturally. simpl. rewrite existsb_app.
  intros H. apply orb_false_iff in H. apply H.
Qed.

Lemma stays_connected_new (command_line : string) (input_string : option string)
    (cancellable : option bool) :
  stays_connected (udisks_spawned_job_new env command_line input_string cancellable).
Proof.
  unfold udisks_spawned_job_new, udisks_spawned_job_constructed,
    g_cancellable_set_error_if_cancelled, stays_connected.
  destruct cancellable as [[|]|]; simpl;
    try (destruct (g_shell_parse_argv env (c_str command_line)) as [e|argv];
         [|destruct (g_spawn_async_with_pipes env argv) as [e|child];
           [|destruct input_string]]);
    simpl;
    try match goal with
        | |- context [negb (?x =? -1)] => destruct (negb (x =? -1)); simpl
        end;
    intros Htok _ _; try discriminate Htok;
    (split; simpl; [reflexivity|discriminate]).
Qed.

Lemma stays_connected_unref (w : World) :
  stays_connected w -> stays_connected (g_object_unref w).
Proof.
  intros H.
  destruct (g_object_unref_cases w) as [[H0 ->]|[[H1 ->]|(n & Hn & ->)]].
  - exact H.
  - destruct (finalize_spec w) as (t & _ & _ & Hr & _).
    intros _ Hlive _. rewrite Hr in Hlive. lia.
  - intros Htok _ Hnat. apply H; [exact Htok|lia|exact Hnat].
Qed.

Lemma stays_connected_dispatch (w : World) (e : Event) :
  Inv env w -> stays_connected w -> stays_connected (dispatch env w e).
Proof.
  intros [R D B C] H.
  destruct e as [| |status stdout_rest stderr_rest|accepted|available|available|]; simpl.
  - destruct (token_cancelled w) eqn:Htok; [exact H|].
    destruct (0 <? cancellable_handler_id (job w))%N.
    + unfold on_cancelled, g_cancellable_set_error_if_cancelled. simpl.
      destruct (cancellable (job w)); intros Htok'; discriminate Htok'.
    + intros Htok'; discriminate Htok'.
  - destruct (idle_sources w) as [|data rest]; [exact H|].
    destruct (emit_completed_with_error_in_idle_cb_spec (with_idle_sources rest w) data)
      as (report & _ & ->).
    apply stays_connected_unref.
    intros Htok Hlive Hnat. apply completed_naturally_log in Hnat.
    apply H; assumption.
  - destruct (child_watch_source (job w)) eqn:Hwatch; [|exact H].
    assert (Hlive : (0 < ref_count w)%nat).
    { destruct (ref_count w); [|lia]. exfalso.
      destruct (released_watch _ (D eq_refl)) as [H' _]. congruence. }
    destruct (child_watch_cb_spec w status stdout_rest stderr_rest Hlive)
      as (report & teardown & _ & _ & _ & _ & _ & _ & _ & Htr).
    intros _ _ Hnat. exfalso. unfold completed_naturally in Hnat.
    rewrite Htr, existsb_app in Hnat. simpl in Hnat.
    rewrite orb_true_r in Hnat. discriminate Hnat.
  - destruct (child_stdin_source (job w)); [|exact H].
    assert (Hj : cancellable_handler_id (fst (fst (write_child_stdin (job w) accepted)))
                 = cancellable_handler_id (job w)
                 /\ cancellable (fst (fst (write_child_stdin (job w) accepted)))
                    = cancellable (job w)).
    { unfold write_child_stdin.
      match goal with
      | |- context [if ?b then _ else _] => destruct b
      end; split; reflexivity. }
    destruct (write_child_stdin (job w) accepted) as [[j t] keep]. simpl in Hj.
    destruct Hj as [Hid Hc].
    intros Htok Hlive Hnat. apply completed_naturally_log in Hnat.
    unfold connected. simpl. rewrite Hid, Hc. apply H; assumption.
  - destruct (child_stdout_source (job w)); exact H.
  - destruct (child_stderr_source (job w)); exact H.
  - destruct (owner_ref w); [|exact H].
    apply stays_connected_unref. exact H.
Qed.

(** C3: a job made with a token that has tripped has, when it is
    returned, one idle source on the captured context and nothing emitted
    yet. A token that trips later, while the job is alive and its child
    watch has not run, adds such an idle source and emits nothing itself.
    And an idle source, once dispatched, emits completion with its error,
    status 0 and no buffers. The error is that of
    [g_cancellable_set_error_if_cancelled]. *)
Theorem cancellation_completes_in_idle
    (command_line : string) (input_string : option string) (token : option bool)
    (events : list Event) :
  let w0 := udisks_spawned_job_new env command_line input_string token in
  let w := run env events w0 in
  (token = Some true ->
   idle_sources w0 = [cancelled_idle_source env] /\ trace w0 = []
   /\ child_watch_source (job w0) = None) /\
  (token_cancelled w = false -> (0 < ref_count w)%nat -> completed_naturally w = false ->
   idle_sources (dispatch env w token_cancel) = idle_sources w ++ [cancelled_idle_source env]
   /\ trace (dispatch env w token_cancel) = trace w) /\
  (forall data rest,
      idle_sources w = data :: rest ->
      exists more,
        trace (dispatch env w idle_dispatch)
        = trace w ++ spawned_job_completed (Some (idle_error data)) 0 None None :: more) /\
  (domain cancelled_error = G_IO_ERROR /\ code cancelled_error = G_IO_ERROR_CANCELLED).
Proof.
  cbv zeta. split; [|split; [|split]].
  - intros ->. repeat split.
  - intros Htok Hlive Hnat.
    pose proof (Inv_run events command_line input_string token) as HI.
    assert (Hconn : stays_connected
              (run env events
                 (udisks_spawned_job_new env command_line input_string token))).
    { apply (run_invariant (fun w => Inv env w /\ stays_connected w) (fun _ => True)).
      - intros w e _ [HI' H']. split.
        + apply Inv_dispatch. exact HI'.
        + apply stays_connected_dispatch; assumption.
      - apply Forall_forall. intros; exact I.
      - split; [apply Inv_new|apply stays_connected_new]. }
    destruct (Hconn Htok Hlive Hnat) as [Hid Hc].
    simpl. rewrite Htok.
    apply N.ltb_lt in Hid. rewrite Hid.
    unfold on_cancelled, g_cancellable_set_error_if_cancelled. simpl.
    destruct (cancellable
                (job (run env events
                        (udisks_spawned_job_new env command_line input_string token))))
      eqn:E; [|contradiction].
    simpl. unfold cancelled_idle_source. rewrite (inv_context env _ HI). split; reflexivity.
  - intros data rest Hidle. simpl. rewrite Hidle.
    destruct (emit_completed_with_error_in_idle_cb_spec
                (with_idle_sources rest
                   (run env events
                      (udisks_spawned_job_new env command_line input_string token)))
                data) as (report & _ & ->).
    match goal with
    | |- context [g_object_unref ?w1] =>
        destruct (g_object_unref_cases w1) as [[_ ->]|[[_ ->]|(n & _ & ->)]];
        [| destruct (finalize_spec w1) as (t & _ & _ & _ & _ & _ & _ & ->) |]
    end; simpl; eexists; rewrite <- ?app_assoc; simpl; reflexivity.
  - split; reflexivity.
Qed.

(** *** The input string *)

Lemma memset_whole (buf : string) (c : ascii) :
  memset buf c (String.length buf) = fill c (String.length buf).
Proof.
  induction buf as [|x buf IH]; simpl; [reflexivity|]. rewrite IH. reflexivity.
Qed.

Lemma strlen_c_str (buf : string) : strlen (c_str buf) = String.length (c_str buf).
Proof. unfold strlen. rewrite c_str_idempotent. reflexivity. Qed.

Lemma teardown_no_free (t : list Effect) :
  Forall is_teardown t -> List.filter is_input_free t = [].
Proof.
  intros H. apply filter_none. eapply List.Forall_impl; [|exact H].
  intros [] He; simpl in *; try reflexivity; contradiction.
Qed.

Lemma report_no_free (t : list Effect) :
  Forall is_report t -> List.filter is_input_free t = [].
Proof.
  intros H. apply filter_none. eapply List.Forall_impl; [|exact H].
  intros [] He; simpl in *; try reflexivity; contradiction.
Qed.

Lemma write_child_stdin_no_free (j : UDisksSpawnedJob) (accepted : nat) :
  List.filter is_input_free (snd (fst (write_child_stdin j accepted))) = [].
Proof.
  unfold write_child_stdin.
  match goal with
  | |- context [if ?b then _ else _] => destruct b
  end; simpl; [|reflexivity].
  destruct (child_stdin_channel j), (child_stdin_source j); reflexivity.
Qed.

Lemma input_kept_new (command_line : string) (input : option string)
    (token : option bool) :
  input_kept input (udisks_spawned_job_new env command_line input token).
Proof.
  unfold udisks_spawned_job_new, udisks_spawned_job_constructed,
    g_cancellable_set_error_if_cancelled, input_kept.
  destruct token as [[|]|]; simpl;
    try (destruct (g_shell_parse_argv env (c_str command_line)) as [e|argv];
         [|destruct (g_spawn_async_with_pipes env argv) as [e|child];
           [|destruct input]]);
    simpl;
    try match goal with
        | |- context [negb (?x =? -1)] => destruct (negb (x =? -1)); simpl
        end;
    (split; reflexivity).
Qed.

Lemma input_kept_finalize (input : option string) (w : World) :
  SpawnedJob.input_string (job w) = g_strdup input -> input_frees w = [] ->
  input_kept input (udisks_spawned_job_finalize w).
Proof.
  intros Hin Hfree.
  destruct (finalize_spec w) as (t & Ht & _ & Hr & _ & _ & _ & Htr).
  unfold input_kept, input_frees in *. rewrite Hr, Htr, !List.filter_app, Hfree.
  rewrite (teardown_no_free t Ht). simpl.
  unfold input_string_frees, zeroed_free. rewrite Hin.
  destruct input as [buf|]; simpl; [|reflexivity].
  rewrite strlen_c_str, memset_whole. unfold strlen. reflexivity.
Qed.

Lemma input_kept_unref (input : option string) (w : World) :
  (0 < ref_count w)%nat -> input_kept input w -> input_kept input (g_object_unref w).
Proof.
  intros Hlive H.
  destruct (g_object_unref_cases w) as [[H0 ->]|[[H1 ->]|(n & Hn & ->)]].
  - exact H.
  - unfold input_kept in H. rewrite H1 in H. destruct H as [Hin Hfree].
    apply input_kept_finalize; assumption.
  - unfold input_kept in *. rewrite Hn in H. exact H.
Qed.

Lemma input_kept_log (input : option string) (w : World) (t : list Effect) :
  List.filter is_input_free t = [] -> input_kept input w -> input_kept input (log t w).
Proof.
  intros Ht H. unfold input_kept, input_frees in *. simpl.
  rewrite List.filter_app, Ht, app_nil_r. exact H.
Qed.

Lemma input_kept_dispatch (input : option string) (w : World) (e : Event) :
  Inv env w -> input_kept input w -> input_kept input (dispatch env w e).
Proof.
  intros [R D B C] H.
  destruct e as [| |status stdout_rest stderr_rest|accepted|available|available|]; simpl.
  - (* token_cancel *)
    destruct (token_cancelled w); [exact H|].
    destruct (0 <? cancellable_handler_id (job w))%N eqn:Hid; [|exact H].
    unfold on_cancelled, g_cancellable_set_error_if_cancelled. simpl.
    destruct (cancellable (job w)); simpl; [|exact H].
    unfold input_kept in *. simpl.
    destruct (ref_count w) eqn:Hrc; [|exact H].
    exfalso. destruct (released_watch _ (D eq_refl)) as (_ & H0 & _).
    rewrite H0 in Hid. discriminate Hid.
  - (* idle_dispatch *)
    destruct (idle_sources w) as [|data rest] eqn:Hidle; [exact H|].
    destruct (emit_completed_with_error_in_idle_cb_spec (with_idle_sources rest w) data)
      as (report & Hreport & ->).
    apply input_kept_unref.
    + simpl. rewrite R. simpl. lia.
    + apply input_kept_log.
      * simpl. apply (report_no_free report Hreport).
      * exact H.
  - (* child_exited *)
    destruct (child_watch_source (job w)) eqn:Hwatch; [|exact H].
    assert (Hlive : (0 < ref_count w)%nat).
    { destruct (ref_count w); [|lia]. exfalso.
      destruct (released_watch _ (D eq_refl)) as [H' _]. congruence. }
    destruct (child_watch_cb_spec w status stdout_rest stderr_rest Hlive)
      as (report & teardown & Hreport & Hteardown & Hj & Hr & _ & _ & _ & Htr).
    unfold input_kept, input_frees in *. rewrite Hr, Hj, Htr.
    destruct (ref_count w); [lia|]. destruct H as [Hin Hfree]. split.
    + exact Hin.
    + rewrite List.filter_app, Hfree. simpl. rewrite List.filter_app.
      rewrite (report_no_free report Hreport), (teardown_no_free teardown Hteardown).
      reflexivity.
  - (* stdin_writable *)
    destruct (child_stdin_source (job w)); [|exact H].
    pose proof (write_child_stdin_no_free (job w) accepted) as Hnone.
    assert (Hin : SpawnedJob.input_string (fst (fst (write_child_stdin (job w) accepted)))
                  = SpawnedJob.input_string (job w)).
    { unfold write_child_stdin.
      match goal with
      | |- context [if ?b then _ else _] => destruct b
      end; reflexivity. }
    destruct (write_child_stdin (job w) accepted) as [[j t] keep]. simpl in Hnone, Hin.
    unfold input_kept, input_frees in *. simpl.
    rewrite List.filter_app, Hnone, app_nil_r, Hin. exact H.
  - destruct (child_stdout_source (job w)); exact H.
  - destruct (child_stderr_source (job w)); exact H.
  - (* owner_unref *)
    destruct (owner_ref w) eqn:Howner; [|exact H].
    apply input_kept_unref.
    + simpl. rewrite R. simpl. lia.
    + exact H.
Qed.

(** C7: a job made with an input string, once it is destroyed, has freed
    its copy of the string exactly once, and at that moment every byte of
    it, over its whole length, was zero; as long as the job is alive the
    copy is not freed. *)
Theorem input_string_zeroed_before_free
    (command_line : string) (input : string) (token : option bool)
    (events : list Event) :
  let w := run env events (udisks_spawned_job_new env command_line (Some input) token) in
  (ref_count w = O -> input_frees w = [input_string_freed (fill NUL (strlen input))]) /\
  ((0 < ref_count w)%nat -> input_frees w = []).
Proof.
  cbv zeta.
  assert (H : input_kept (Some input)
                (run env events
                   (udisks_spawned_job_new env command_line (Some input) token))).
  { apply (run_invariant (fun w => Inv env w /\ input_kept (Some input) w) (fun _ => True)).
    - intros w e _ [HI H]. split.
      + apply Inv_dispatch. exact HI.
      + apply input_kept_dispatch; assumption.
    - apply Forall_forall. intros; exact I.
    - split; [apply Inv_new|apply input_kept_new]. }
  unfold input_kept in H. split.
  - intros Hdead. rewrite Hdead in H. exact H.
  - intros Hlive. destruct (ref_count _); [lia|]. apply H.
Qed.

End LoopFacts.

(** ** Runs of one job on Linux *)

Section Examples.
Import SpawnedJob.

(** C1: a job cancelled while its child runs completes twice. The token
    trips, the idle source emits completion with the cancellation error
    and, unlike the child watch, releases nothing; the child watch stays
    attached, and when the child exits it emits completion again, with no
    error, while the caller still holds its reference. The class handler
    reports the job failed as cancelled and then succeeded. The signal is
    documented as emitted when the job is complete, with an error that is
    set if the job was cancelled. *)
Theorem spawned_job_completed_twice_after_cancel :
  let w :=
    run (P := linux) sleep_env
      [token_cancel; idle_dispatch; child_exited 0 (Some EmptyString) (Some EmptyString)]
      (sleep_job (Some false)) in
  List.filter is_completion (trace w)
  = [spawned_job_completed (Some cancelled_error) 0 None None;
     spawned_job_completed None 0 (Some EmptyString) (Some EmptyString)]
  /\ completions w = 2%nat
  /\ firstn 4 (trace w)
     = [spawned_job_completed (Some cancelled_error) 0 None None;
        job_completed false
          ("Failed to execute command-line `/bin/sleep 60': "
             +:+ "Operation was cancelled (g-io-error-quark, 19)");
        spawned_job_completed None 0 (Some EmptyString) (Some EmptyString);
        job_completed true EmptyString]
  /\ token_cancelled w = true /\ owner_ref w = true.
Proof. repeat split; vm_compute; reflexivity. Qed.

Lemma spawned_job_completed_once_without_late_cancel_witness :
  completions
    (run (P := linux) sleep_env
       [stdout_readable "x"; child_exited 0 (Some EmptyString) (Some EmptyString)]
       (sleep_job (Some false))) = 1%nat.
Proof.
  refine (proj2 (proj2 (spawned_job_completed_once_without_late_cancel (P := linux)
                          sleep_env "/bin/sleep 60" None (Some false)
                          [stdout_readable "x";
                           child_exited 0 (Some EmptyString) (Some EmptyString)])
                   (or_intror _)) _ _ _).
  - intros H. destruct H as [H|[H|[]]]; discriminate H.
  - vm_compute. reflexivity.
  - vm_compute. reflexivity.
  - vm_compute. reflexivity.
Defined.


Lemma cancellation_completes_in_idle_witness :
  idle_sources (dispatch (P := linux) sleep_env (sleep_job (Some false)) token_cancel)
  = [cancelled_idle_source sleep_env]
  /\ trace (dispatch (P := linux) sleep_env (sleep_job (Some false)) token_cancel) = [].
Proof.
  refine (proj1 (proj2 (cancellation_completes_in_idle (P := linux) sleep_env
                          "/bin/sleep 60" None (Some false) [])) _ _ _).
  - vm_compute. reflexivity.
  - vm_compute. lia.
  - vm_compute. reflexivity.
Defined.

Lemma linux_signo_distinct : List.NoDup (map linux_signo get_signal_table).
Proof.
  simpl.
  repeat (apply List.NoDup_cons;
          [simpl; intros H; repeat (destruct H as [H|H]; [discriminate H|]); exact H|]).
  apply List.NoDup_nil.
Qed.

(** C4 fails as stated: the message of the code differs from the one
    of the claim, and the table has 28 entries. *)
Lemma default_classification_signaled_differs :
  udisks_spawned_job_spawned_job_completed_default (P := linux) cat_job None 15
    (Some EmptyString) (Some EmptyString)
  <> [job_completed false
        (claimed_signaled_message "/bin/cat" "SIGTERM" 15 EmptyString EmptyString)]
  /\ length get_signal_table <> claimed_signal_table_size.
Proof.
  split.
  - vm_compute. intros H. discriminate H.
  - vm_compute. intros H. discriminate H.
Qed.

Lemma default_classification_signaled_witness :
  udisks_spawned_job_spawned_job_completed_default (P := linux) cat_job None 15
    (Some EmptyString) (Some EmptyString)
  = [job_completed false
       ("Command-line `/bin/cat' was signaled with signal SIGTERM (15)." +:+ nl
          +:+ "stdout: `'" +:+ nl +:+ "stderr: `'")].
Proof.
  refine (proj1 (default_classification_signaled (P := linux) cat_job 15
                   EmptyString EmptyString _ _ linux_signo_distinct)).
  - vm_compute. reflexivity.
  - vm_compute. reflexivity.
Defined.

Lemma input_string_zeroed_before_free_witness :
  input_frees (run (P := linux) cat_env [owner_unref] secret_job)
  = [input_string_freed (fill NUL 6)].
Proof.
  refine (proj1 (input_string_zeroed_before_free (P := linux) cat_env
                   "/bin/cat" "secret" None [owner_unref]) _).
  vm_compute. reflexivity.
Defined.

End Examples.

(** ** Mount records: the order away from the wrap-around *)

Section MountOrder.
Import Mount.

Lemma udisks_mount_compare_order_below_2_31_witness :
  let a := _udisks_mount_new 2049 (Some "/mnt/data") in
  let b := _udisks_mount_new 2050 (Some "/mnt") in
  let c := _udisks_mount_new 2051 (Some "/") in
  (udisks_mount_compare a b < 0 <-> udisks_mount_compare b a > 0) /\
  (udisks_mount_compare a b = 0 <->
   g_strdup (mount_path a) = g_strdup (mount_path b) /\ dev a = dev b) /\
  (udisks_mount_compare a b <= 0 -> udisks_mount_compare b c <= 0 ->
   udisks_mount_compare a c <= 0).
Proof.
  cbv zeta.
  apply (udisks_mount_compare_order_below_2_31
           (_udisks_mount_new 2049 (Some "/mnt/data"))
           (_udisks_mount_new 2050 (Some "/mnt"))
           (_udisks_mount_new 2051 (Some "/")));
    vm_compute; split; congruence.
Defined.

Lemma strcmp_proper_prefix (p : string) (c : ascii) (rest : string) :
  c_str p = p -> strcmp p (p +:+ String c rest) = - byte c.
Proof.
  induction p as [|x p IH]; intros Hp.
  - simpl. lia.
  - simpl in Hp. rewrite append_cons. simpl. rewrite Z.eqb_refl.
    destruct (byte x =? 0); [discriminate Hp|].
    apply IH. injection Hp. trivial.
Qed.

(** A mount below another compares before it: when the path of one
    mount is the path of another followed by more bytes, the mount with
    the longer path comes first, whatever the two device numbers are. *)
Theorem udisks_mount_compare_nested_first (parent : string) (c : ascii) (rest : string)
    (dev_child dev_parent : Z) :
  c_str parent = parent -> byte c <> 0 ->
  let child := _udisks_mount_new dev_child (Some (parent +:+ String c rest)) in
  let par := _udisks_mount_new dev_parent (Some parent) in
  udisks_mount_compare child par < 0 /\ udisks_mount_compare par child > 0.
Proof.
  intros Hp Hc child par.
  assert (Hpath : mount_path child = Some (parent +:+ String c (c_str rest))).
  { unfold child, _udisks_mount_new. simpl. f_equal.
    clear child par. induction parent as [|x p IH]; simpl.
    - destruct (Z.eqb_spec (byte c) 0); [contradiction|reflexivity].
    - simpl in Hp. rewrite append_cons. simpl.
      destruct (byte x =? 0); [discriminate Hp|].
      f_equal. apply IH. injection Hp. trivial. }
  assert (Hpar : mount_path par = Some parent).
  { unfold par, _udisks_mount_new. simpl. rewrite Hp. reflexivity. }
  pose proof (byte_range c) as Hr.
  assert (Hcmp : g_strcmp0 (mount_path par) (mount_path child) = - byte c).
  { rewrite Hpath, Hpar. simpl. apply strcmp_proper_prefix. exact Hp. }
  split.
  - rewrite udisks_mount_compare_paths; rewrite Hcmp; lia.
  - rewrite udisks_mount_compare_paths; rewrite g_strcmp0_swap, Hcmp; lia.
Qed.

Lemma udisks_mount_compare_nested_first_witness :
  let child := _udisks_mount_new 2049 (Some "/mnt/data") in
  let par := _udisks_mount_new 4294967296 (Some "/mnt") in
  udisks_mount_compare child par < 0 /\ udisks_mount_compare par child > 0.
Proof.
  apply (udisks_mount_compare_nested_first "/mnt" "/"%char "data" 2049 4294967296).
  - reflexivity.
  - vm_compute. congruence.
Defined.

End MountOrder.

(** ** Daemon utilities: object paths *)

Section ObjectPathFacts.
Import DaemonUtil.

Lemma string_forall_app (f : ascii -> bool) (a b : string) :
  string_forall f (a +:+ b) = string_forall f a && string_forall f b.
Proof.
  induction a as [|x a IH]; [reflexivity|].
  rewrite append_cons. simpl. rewrite IH. apply andb_assoc.
Qed.

Lemma string_forall_concat_map (f : ascii -> bool) (g : ascii -> string) (s : string) :
  (forall c, string_forall f (g c) = true) ->
  string_forall f (concat_map g s) = true.
Proof.
  intros Hg. induction s as [|c s IH]; [reflexivity|].
  simpl. rewrite string_forall_app, Hg, IH. reflexivity.
Qed.

Lemma append_one_object_path_chars (char_is_signed : bool) (ch : ascii) :
  string_forall object_path_char (append_one char_is_signed ch) = true.
Proof.
  destruct char_is_signed; destruct ch as [[] [] [] [] [] [] [] []];
    vm_compute; reflexivity.
Qed.

(** Whatever bytes [s] holds and whether plain [char] is signed or not,
    [udisks_safe_append_to_object_path] leaves what the [GString] held in
    front and appends nothing but letters, digits and underscores. *)
Theorem udisks_safe_append_to_object_path_alphabet (char_is_signed : bool)
    (str s : string) :
  exists suffix,
    udisks_safe_append_to_object_path char_is_signed str s = str +:+ suffix /\
    string_forall object_path_char suffix = true.
Proof.
  exists (concat_map (append_one char_is_signed) (c_str s)). split.
  - apply udisks_safe_append_to_object_path_concat.
  - apply string_forall_concat_map. apply append_one_object_path_chars.
Qed.

Lemma all_bytes_complete (c : ascii) : In c all_bytes.
Proof.
  unfold all_bytes. rewrite <- (ascii_nat_embedding c).
  apply in_map. apply in_seq. pose proof (nat_ascii_bounded c). lia.
Qed.

Lemma overlap_common_start (a : string) :
  forall b x y : string, a +:+ x = b +:+ y -> overlap a b = true.
Proof.
  unfold overlap.
  induction a as [|c a IH]; intros [|d b] x y H; simpl; try reflexivity.
  rewrite !append_cons in H. injection H as -> H.
  destruct (ascii_dec d d) as [_|N]; [|contradiction].
  exact (IH b x y H).
Qed.

Lemma prefix_free_first (f : ascii -> string) :
  prefix_free f = true ->
  forall (c d : ascii) (x y : string), f c +:+ x = f d +:+ y -> c = d.
Proof.
  intros Hf c d x y H.
  unfold prefix_free in Hf. rewrite forallb_forall in Hf.
  specialize (Hf c (all_bytes_complete c)). rewrite forallb_forall in Hf.
  specialize (Hf d (all_bytes_complete d)).
  apply overlap_common_start in H. rewrite H in Hf. simpl in Hf.
  rewrite orb_false_r in Hf. apply Ascii.eqb_eq. exact Hf.
Qed.

Lemma append_one_prefix_free (char_is_signed : bool) :
  prefix_free (append_one char_is_signed) = true.
Proof. destruct char_is_signed; vm_compute; reflexivity. Qed.

Lemma append_one_not_empty (char_is_signed : bool) (ch : ascii) (x : string) :
  append_one char_is_signed ch +:+ x <> EmptyString.
Proof.
  unfold append_one.
  destruct (is_alnum (gint_of_gchar char_is_signed ch)); rewrite append_cons; discriminate.
Qed.

Lemma string_app_inv_head (a x y : string) : a +:+ x = a +:+ y -> x = y.
Proof.
  induction a as [|c a IH]; intros H; [exact H|].
  rewrite !append_cons in H. injection H as H. apply IH. exact H.
Qed.

Lemma concat_map_append_one_injective (char_is_signed : bool) (a : string) :
  forall b : string,
    concat_map (append_one char_is_signed) a = concat_map (append_one char_is_signed) b ->
    a = b.
Proof.
  induction a as [|c a IH]; intros [|d b] H; simpl in H.
  - reflexivity.
  - symmetry in H. apply append_one_not_empty in H. contradiction.
  - apply append_one_not_empty in H. contradiction.
  - pose proof (prefix_free_first _ (append_one_prefix_free char_is_signed) c d _ _ H) as E.
    subst d. apply string_app_inv_head in H. f_equal. apply IH. exact H.
Qed.

(** The escaping loses nothing: appended to the same [GString], two
    strings give the same result only when they are the same C string.
    This holds where plain [char] is signed as well: the bytes from 0x80
    on are written differently there, but still apart from each other. *)
Theorem udisks_safe_append_to_object_path_injective (char_is_signed : bool)
    (str s1 s2 : string) :
  udisks_safe_append_to_object_path char_is_signed str s1
  = udisks_safe_append_to_object_path char_is_signed str s2 ->
  c_str s1 = c_str s2.
Proof.
  rewrite !udisks_safe_append_to_object_path_concat. intros H.
  apply string_app_inv_head in H.
  apply concat_map_append_one_injective in H. exact H.
Qed.

Lemma udisks_safe_append_to_object_path_injective_witness :
  c_str "sda 1" = c_str ("sda 1" +:+ String NUL "junk").
Proof.
  apply (udisks_safe_append_to_object_path_injective true "/org/freedesktop/UDisks2/"
           "sda 1" ("sda 1" +:+ String NUL "junk")).
  vm_compute. reflexivity.
Defined.

Lemma concat_map_ext_on (p : ascii -> bool) (f g : ascii -> string) (s : string) :
  (forall c, p c = true -> f c = g c) -> string_forall p s = true ->
  concat_map f s = concat_map g s.
Proof.
  intros Hfg. induction s as [|c s IH]; intros Hs; [reflexivity|].
  simpl in *. apply andb_prop in Hs. destruct Hs as [Hc Hs].
  rewrite (Hfg c Hc), (IH Hs). reflexivity.
Qed.

(** On ASCII input, and on every input where plain [char] is unsigned,
    the function does what its comment says: letters and digits are
    appended as they are, every other byte as an underscore and its two
    lowercase hexadecimal digits. *)
Theorem udisks_safe_append_to_object_path_documented (char_is_signed : bool)
    (str s : string) :
  char_is_signed = false \/ string_forall (fun c => byte c <? 128) (c_str s) = true ->
  udisks_safe_append_to_object_path char_is_signed str s
  = str +:+ concat_map escaped (c_str s).
Proof.
  intros H. rewrite udisks_safe_append_to_object_path_concat. f_equal.
  destruct H as [->|H].
  - apply (concat_map_ext_on (fun _ => true)).
    + intros c _. apply append_one_escaped. left. reflexivity.
    + clear. induction (c_str s) as [|c r IH]; [reflexivity|exact IH].
  - apply (concat_map_ext_on _ _ _ _ (fun c Hc => append_one_escaped char_is_signed c
                                                  (or_intror (proj1 (Z.ltb_lt _ _) Hc)))).
    exact H.
Qed.

Lemma udisks_safe_append_to_object_path_documented_witness :
  udisks_safe_append_to_object_path true "/org/freedesktop/UDisks2/" "sda 1/_"
  = "/org/freedesktop/UDisks2/sda_201_2f_5f".
Proof.
  apply (udisks_safe_append_to_object_path_documented true "/org/freedesktop/UDisks2/"
           "sda 1/_").
  right. vm_compute. reflexivity.
Defined.

End ObjectPathFacts.

(** ** Daemon utilities: decoding udev strings *)

Section DecodeFacts.
Import DaemonUtil.

Variable g_utf8_validate : string -> bool * nat.

(** The loop appends [decoded str] to the [GString]. *)
Lemma decode_loop_decoded (n : nat) :
  forall (str : string) (s : ptr) (buf : string) (h : heap),
    (String.length str <= n)%nat ->
    decode_loop str s (<[s := buf]> h) = (tt, <[s := buf +:+ decoded str]> h).
Proof.
  induction n as [|n IH]; intros str s buf h Hlen.
  - destruct str; [|simpl in Hlen; lia]. simpl. rewrite string_app_nil_r. reflexivity.
  - destruct str as [|c0 rest]; [simpl; rewrite string_app_nil_r; reflexivity|].
    simpl in Hlen. simpl.
    destruct (byte c0 =? 0); [rewrite string_app_nil_r; reflexivity|].
    destruct (byte c0 =? backslash).
    + destruct rest as [|c1 [|c2 [|c3 rest']]];
        try (rewrite string_app_nil_r; reflexivity).
      destruct (negb (byte c1 =? letter_x) || (byte c2 =? 0) || (byte c3 =? 0));
        [rewrite string_app_nil_r; reflexivity|].
      unfold bind, g_string_append_c. rewrite alter_insert_eq.
      rewrite IH by (simpl in Hlen; lia).
      rewrite string_app_assoc, append_cons. reflexivity.
    + unfold bind, g_string_append_c. rewrite alter_insert_eq.
      rewrite IH by lia.
      rewrite string_app_assoc, append_cons. reflexivity.
Qed.

(** What the call returns: the decoded bytes, cut where
    [g_utf8_validate] says they stop being UTF-8. *)
Lemma udisks_decode_udev_string_contents (str : string) (h : heap) :
  exists p : ptr,
    udisks_decode_udev_string g_utf8_validate (Some str) h
    = (Some p,
       <[p := if fst (g_utf8_validate (c_str (decoded str))) then decoded str
              else substring 0 (snd (g_utf8_validate (c_str (decoded str))))
                     (c_str (decoded str))]> h)
    /\ h !! p = None.
Proof.
  unfold udisks_decode_udev_string, bind, g_string_new, g_malloc.
  set (s := fresh (dom h)).
  assert (Hs : h !! s = None).
  { apply not_elem_of_dom. apply is_fresh. }
  rewrite (decode_loop_decoded (String.length str)) by lia.
  change (EmptyString +:+ decoded str) with (decoded str).
  unfold load. rewrite lookup_insert_eq. simpl.
  destruct (g_utf8_validate (c_str (decoded str))) as [valid end_valid].
  destruct valid; simpl.
  - exists s. split; [reflexivity|exact Hs].
  - unfold g_strndup, g_malloc, bind, g_free, ret.
    set (r := fresh (dom (<[s:=decoded str]> h))).
    assert (Hr : (<[s:=decoded str]> h) !! r = None).
    { apply not_elem_of_dom. apply is_fresh. }
    assert (Hne : s <> r).
    { intros E. rewrite <- E, lookup_insert_eq in Hr. discriminate Hr. }
    exists r. split.
    + f_equal. rewrite delete_insert_ne by exact Hne.
      rewrite delete_insert_id by exact Hs. reflexivity.
    + rewrite lookup_insert_ne in Hr by exact Hne. exact Hr.
Qed.

Lemma substring_c_str_fixed (s : string) :
  c_str s = s -> forall n m : nat, c_str (substring n m s) = substring n m s.
Proof.
  induction s as [|c s IH]; intros Hs n m.
  - destruct n, m; reflexivity.
  - simpl in Hs. destruct (byte c =? 0) eqn:E; [discriminate Hs|].
    injection Hs as Hs.
    destruct n as [|n]; [destruct m as [|m]|]; simpl; rewrite ?E, ?IH; auto.
Qed.

Lemma c_str_length (s : string) : (String.length (c_str s) <= String.length s)%nat.
Proof.
  induction s as [|c s IH]; simpl; [lia|].
  destruct (byte c =? 0); simpl; lia.
Qed.

Lemma substring_length_le (s : string) :
  forall n m : nat, (String.length (substring n m s) <= String.length s)%nat.
Proof.
  induction s as [|c s IH]; intros [|n] [|m]; simpl; try lia.
  - specialize (IH 0%nat m). lia.
  - specialize (IH n 0%nat). lia.
  - specialize (IH n (S m)). lia.
Qed.

Lemma decoded_length (n : nat) :
  forall str : string,
    (String.length str <= n)%nat -> (String.length (decoded str) <= strlen str)%nat.
Proof.
  unfold strlen.
  induction n as [|n IH]; intros str Hlen.
  - destruct str; [simpl; lia|simpl in Hlen; lia].
  - destruct str as [|c0 rest]; [simpl; lia|].
    simpl in Hlen. simpl.
    destruct (byte c0 =? 0); [simpl; lia|].
    destruct (byte c0 =? backslash).
    + destruct rest as [|c1 [|c2 [|c3 rest']]]; try (simpl; lia).
      destruct (Z.eqb_spec (byte c2) 0) as [E2|E2];
        [rewrite orb_true_r; simpl; lia|].
      destruct (Z.eqb_spec (byte c3) 0) as [E3|E3];
        [rewrite orb_true_r; simpl; lia|].
      rewrite !orb_false_r.
      destruct (negb (byte c1 =? letter_x)) eqn:E1; [simpl; lia|].
      apply negb_false_iff in E1. apply Z.eqb_eq in E1.
      assert (H1 : (byte c1 =? 0) = false).
      { rewrite E1. reflexivity. }
      simpl. rewrite H1. simpl.
      destruct (Z.eqb_spec (byte c2) 0); [contradiction|].
      destruct (Z.eqb_spec (byte c3) 0); [contradiction|].
      simpl. specialize (IH rest'). simpl in Hlen. lia.
    + simpl. specialize (IH rest). lia.
Qed.

(** Decoding never makes a string longer: the block returned holds at
    most as many bytes as the C string that was passed, whether the
    decoded bytes are valid UTF-8 or are cut short. *)
Theorem udisks_decode_udev_string_not_longer (str : string) (h : heap) :
  exists (p : ptr) (contents : string),
    udisks_decode_udev_string g_utf8_validate (Some str) h
    = (Some p, <[p := contents]> h)
    /\ (String.length contents <= strlen str)%nat.
Proof.
  destruct (udisks_decode_udev_string_contents str h) as (p & Hp & _).
  exists p. eexists. split; [exact Hp|].
  pose proof (decoded_length (String.length str) str (le_n _)) as Hd.
  destruct (fst (g_utf8_validate (c_str (decoded str)))); [exact Hd|].
  pose proof (substring_length_le (c_str (decoded str)) 0
                (snd (g_utf8_validate (c_str (decoded str))))) as H1.
  pose proof (c_str_length (decoded str)) as H2. lia.
Qed.

Lemma decoded_plain (str : string) :
  no_backslash (c_str str) = true -> decoded str = c_str str.
Proof.
  unfold no_backslash.
  induction str as [|c rest IH]; intros H; [reflexivity|].
  simpl in *. destruct (byte c =? 0); [reflexivity|].
  simpl in H. apply andb_prop in H. destruct H as [Hc Hrest].
  apply negb_true_iff in Hc. rewrite Hc. f_equal. apply IH. exact Hrest.
Qed.

(** A string without a backslash is returned as it is: when the C string
    passed holds no backslash and is valid UTF-8, the block returned holds
    that C string. *)
Theorem udisks_decode_udev_string_plain (str : string) (h : heap) :
  no_backslash (c_str str) = true ->
  fst (g_utf8_validate (c_str str)) = true ->
  exists p : ptr,
    udisks_decode_udev_string g_utf8_validate (Some str) h
    = (Some p, <[p := c_str str]> h).
Proof.
  intros Hplain Hvalid.
  destruct (udisks_decode_udev_string_contents str h) as (p & Hp & _).
  exists p. rewrite Hp.
  rewrite (decoded_plain str Hplain), c_str_idempotent, Hvalid. reflexivity.
Qed.

Lemma udev_escape_decodes (c : ascii) :
  (byte (hex_digit (byte c / 16)) =? 0) = false /\
  (byte (hex_digit (byte c mod 16)) =? 0) = false /\
  chr (Z.lor (Z.shiftl (g_ascii_xdigit_value (hex_digit (byte c / 16))) 4)
         (g_ascii_xdigit_value (hex_digit (byte c mod 16)))) = c.
Proof.
  destruct c as [[] [] [] [] [] [] [] []]; vm_compute; repeat split.
Qed.

Lemma decoded_udev_encode (escape : ascii -> bool) (s : string) :
  decoded (udev_encode escape s) = s.
Proof.
  unfold udev_encode.
  induction s as [|c s IH]; [reflexivity|].
  simpl concat_map.
  destruct (escape c || (byte c =? backslash) || (byte c =? 0)) eqn:E.
  - unfold udev_escape. rewrite !append_cons.
    change (EmptyString +:+ ?x) with x.
    destruct (udev_escape_decodes c) as (H1 & H2 & H3).
    cbn [decoded].
    change (byte (chr backslash) =? 0) with false.
    change (byte (chr backslash) =? backslash) with true.
    change (byte (chr letter_x) =? letter_x) with true.
    cbv iota. rewrite H1, H2. simpl negb. simpl orb. cbv iota.
    f_equal; [exact H3|exact IH].
  - apply orb_false_elim in E. destruct E as [E E0].
    apply orb_false_elim in E. destruct E as [_ Eb].
    rewrite append_cons. change (EmptyString +:+ ?x) with x.
    cbn [decoded]. rewrite E0, Eb, IH. reflexivity.
Qed.

(** Decoding undoes udev's escaping: whichever bytes of a string were
    written as a backslash, [x] and two hexadecimal digits (the backslash
    itself always is), the block returned holds the string, byte for
    byte, as long as it is valid UTF-8. *)
Theorem udisks_decode_udev_string_round_trip (escape : ascii -> bool) (s : string)
    (h : heap) :
  fst (g_utf8_validate (c_str s)) = true ->
  exists p : ptr,
    udisks_decode_udev_string g_utf8_validate (Some (udev_encode escape s)) h
    = (Some p, <[p := s]> h).
Proof.
  intros Hvalid.
  destruct (udisks_decode_udev_string_contents (udev_encode escape s) h) as (p & Hp & _).
  exists p. rewrite Hp, decoded_udev_encode, Hvalid. reflexivity.
Qed.

Lemma decoded_malformed (p rest : string) :
  c_str p = p -> no_backslash p = true -> malformed_escape rest = true ->
  decoded (p +:+ String (chr backslash) rest) = p.
Proof.
  unfold no_backslash.
  intros Hp Hplain Hbad. induction p as [|c p IH].
  - change (EmptyString +:+ ?x) with x. cbn [decoded].
    change (byte (chr backslash) =? 0) with false.
    change (byte (chr backslash) =? backslash) with true. cbv iota.
    destruct rest as [|c1 [|c2 [|c3 rest']]]; try reflexivity.
    simpl in Hbad. rewrite Hbad. reflexivity.
  - rewrite append_cons. simpl in Hp, Hplain. cbn [decoded].
    destruct (byte c =? 0); [discriminate Hp|].
    apply andb_prop in Hplain. destruct Hplain as [Hc Hrest].
    apply negb_true_iff in Hc. rewrite Hc. f_equal.
    apply IH; [injection Hp; trivial|exact Hrest].
Qed.

(** Decoding stops at a malformed escape: when a backslash is not
    followed by [x] and two more bytes of the string, what is returned is
    what stood in front of that backslash, and the rest of the input is
    dropped. *)
Theorem udisks_decode_udev_string_malformed (prefix rest : string) (h : heap) :
  c_str prefix = prefix -> no_backslash prefix = true ->
  malformed_escape rest = true ->
  fst (g_utf8_validate prefix) = true ->
  exists p : ptr,
    udisks_decode_udev_string g_utf8_validate
      (Some (prefix +:+ String (chr backslash) rest)) h
    = (Some p, <[p := prefix]> h).
Proof.
  intros Hc Hplain Hbad Hvalid.
  destruct (udisks_decode_udev_string_contents
              (prefix +:+ String (chr backslash) rest) h) as (p & Hp & _).
  exists p. rewrite Hp, (decoded_malformed _ _ Hc Hplain Hbad), Hc, Hvalid.
  reflexivity.
Qed.

(** The result is valid UTF-8, as documented, if [g_utf8_validate] keeps
    its side: when it rejects a string, the part in front of the end it
    reports is one it accepts. The string returned is then accepted,
    whether the decoded bytes were valid or had to be cut. *)
Theorem udisks_decode_udev_string_valid_utf8 (str : string) (h : heap) :
  (forall s : string,
      fst (g_utf8_validate s) = false ->
      fst (g_utf8_validate (substring 0 (snd (g_utf8_validate s)) s)) = true) ->
  exists (p : ptr) (contents : string),
    udisks_decode_udev_string g_utf8_validate (Some str) h
    = (Some p, <[p := contents]> h)
    /\ fst (g_utf8_validate (c_str contents)) = true.
Proof.
  intros Hcut.
  destruct (udisks_decode_udev_string_contents str h) as (p & Hp & _).
  exists p. eexists. split; [exact Hp|].
  destruct (fst (g_utf8_validate (c_str (decoded str)))) eqn:E; [exact E|].
  rewrite substring_c_str_fixed by apply c_str_idempotent.
  apply Hcut. exact E.
Qed.

End DecodeFacts.

Section DecodeExamples.
Import DaemonUtil.

Lemma udisks_decode_udev_string_plain_witness :
  exists p : ptr,
    udisks_decode_udev_string g_utf8_validate_ascii (Some "My_Disk") ∅
    = (Some p, <[p := "My_Disk"]> ∅).
Proof.
  apply (udisks_decode_udev_string_plain g_utf8_validate_ascii "My_Disk" ∅);
    reflexivity.
Defined.

Lemma udisks_decode_udev_string_round_trip_witness :
  exists p : ptr,
    udisks_decode_udev_string g_utf8_validate_ascii (Some "My\x20Disk") ∅
    = (Some p, <[p := "My Disk"]> ∅).
Proof.
  apply (udisks_decode_udev_string_round_trip g_utf8_validate_ascii
           (fun c => byte c =? 32) "My Disk" ∅).
  reflexivity.
Defined.

Lemma udisks_decode_udev_string_malformed_witness :
  exists p : ptr,
    udisks_decode_udev_string g_utf8_validate_ascii (Some "My\Disk") ∅
    = (Some p, <[p := "My"]> ∅).
Proof.
  apply (udisks_decode_udev_string_malformed g_utf8_validate_ascii "My" "Disk" ∅);
    reflexivity.
Defined.

Lemma g_utf8_validate_ascii_prefix (s : string) :
  fst (g_utf8_validate_ascii (substring 0 (snd (g_utf8_validate_ascii s)) s)) = true.
Proof.
  unfold g_utf8_validate_ascii. simpl. apply Nat.eqb_eq.
  induction s as [|c s IH]; [reflexivity|].
  simpl. destruct (byte c <? 128) eqn:E; [|reflexivity].
  simpl. rewrite E, IH. reflexivity.
Qed.

Lemma udisks_decode_udev_string_valid_utf8_witness :
  exists (p : ptr) (contents : string),
    udisks_decode_udev_string g_utf8_validate_ascii
      (Some ("Caf" +:+ String (chr 233) " Disk")) ∅
    = (Some p, <[p := contents]> ∅)
    /\ fst (g_utf8_validate_ascii (c_str contents)) = true.
Proof.
  apply (udisks_decode_udev_string_valid_utf8 g_utf8_validate_ascii
           ("Caf" +:+ String (chr 233) " Disk") ∅).
  intros s _. apply g_utf8_validate_ascii_prefix.
Defined.

End DecodeExamples.

(** ** The spawned job: what release does *)

Section ReleaseTrace.
Import SpawnedJob.

Lemma run_steps_ext (steps steps' : list Step) :
  Forall2 (fun step step' : Step => forall j, step j = step' j) steps steps' ->
  forall j, run_steps steps j = run_steps steps' j.
Proof.
  induction 1 as [|step step' steps steps' Hstep _ IH]; intros j; simpl.
  - reflexivity.
  - rewrite Hstep. destruct (step' j) as [j1 t1]. rewrite IH. reflexivity.
Qed.

(** Each block is an assignment and a call, both under its guard. *)
Lemma release_steps_guarded :
  Forall2 (fun step step' : Step => forall j, step j = step' j) release_steps
    [ (fun j => (set_child (child_pid j) None j,
                 on_handle g_source_destroy (child_watch_source j)));
      (fun j => (set_child 0 (child_watch_source j) j,
                 if negb (child_pid j =? 0)
                 then [kill (child_pid j) SIGTERM;
                       reaper_attached (child_pid j) (main_context j)]
                 else []));
      (fun j => (set_stdout (child_stdout_fd j) (child_stdout_channel j)
                   (child_stdout_source j) None j,
                 on_handle g_string_free (child_stdout j)));
      (fun j => (set_stderr (child_stderr_fd j) (child_stderr_channel j)
                   (child_stderr_source j) None j,
                 on_handle g_string_free (child_stderr j)));
      (fun j => (set_stdin (child_stdin_fd j) None (child_stdin_source j) j,
                 on_handle g_io_channel_unref (child_stdin_channel j)));
      (fun j => (set_stdout (child_stdout_fd j) None (child_stdout_source j)
                   (child_stdout j) j,
                 on_handle g_io_channel_unref (child_stdout_channel j)));
      (fun j => (set_stderr (child_stderr_fd j) None (child_stderr_source j)
                   (child_stderr j) j,
                 on_handle g_io_channel_unref (child_stderr_channel j)));
      (fun j => (set_stdin (child_stdin_fd j) (child_stdin_channel j) None j,
                 on_handle g_source_destroy (child_stdin_source j)));
      (fun j => (set_stdout (child_stdout_fd j) (child_stdout_channel j) None
                   (child_stdout j) j,
                 on_handle g_source_destroy (child_stdout_source j)));
      (fun j => (set_stderr (child_stderr_fd j) (child_stderr_channel j) None
                   (child_stderr j) j,
                 on_handle g_source_destroy (child_stderr_source j)));
      (fun j => (set_stdin (-1) (child_stdin_channel j) (child_stdin_source j) j,
                 if negb (child_stdin_fd j =? -1) then [close (child_stdin_fd j)] else []));
      (fun j => (set_stdout (-1) (child_stdout_channel j) (child_stdout_source j)
                   (child_stdout j) j,
                 if negb (child_stdout_fd j =? -1) then [close (child_stdout_fd j)] else []));
      (fun j => (set_stderr (-1) (child_stderr_channel j) (child_stderr_source j)
                   (child_stderr j) j,
                 if negb (child_stderr_fd j =? -1) then [close (child_stderr_fd j)] else []));
      (fun j => (set_cancellation 0 (cancellable j) j,
                 if (0 <? cancellable_handler_id j)%N
                 then [g_cancellable_disconnect (cancellable_handler_id j)]
                 else []));
      (fun j => (set_cancellation (cancellable_handler_id j) None j,
                 on_handle cancellable_unref (cancellable j))) ].
Proof.
  unfold release_steps.
  repeat match goal with
         | |- Forall2 _ (_ :: _) (_ :: _) => constructor
         | |- Forall2 _ [] [] => constructor
         end.
  all: intros [cl ca hid mc ins cur pid fin fout ferr cin cout cerr ws sin sout serr bo be];
    cbn.
  all: try match goal with
           | |- context [match ?x with Some _ => _ | None => _ end] =>
               destruct x; reflexivity
           end.
  all: try match goal with
           | |- context [negb (?x =? ?y)] =>
               destruct (Z.eqb_spec x y); subst; reflexivity
           end.
  destruct hid; reflexivity.
Qed.

(** The calls of the release routine, in order, for a job in any
    state. *)
Lemma release_resources_trace (j : UDisksSpawnedJob) :
  snd (udisks_spawned_job_release_resources j) = release_trace j.
Proof.
  unfold udisks_spawned_job_release_resources.
  rewrite (run_steps_ext _ _ release_steps_guarded).
  destruct j. unfold release_trace. cbn. rewrite app_nil_r. reflexivity.
Qed.

Lemma release_resources_eq (j : UDisksSpawnedJob) :
  udisks_spawned_job_release_resources j = (released j, release_trace j).
Proof.
  rewrite <- release_resources_job, <- release_resources_trace.
  destruct (udisks_spawned_job_release_resources j). reflexivity.
Qed.

End ReleaseTrace.

(** ** The spawned job: invariants of the job and its trace *)

Section JobInvariant.
Import SpawnedJob.

Context {P : Platform}.
Variable env : Environment.

Lemma finalize_eq (w : World) :
  job (udisks_spawned_job_finalize w)
  = set_input (zeroed_input (job w)) (input_string_cursor (job w)) (released (job w)) /\
  ref_count (udisks_spawned_job_finalize w) = O /\
  owner_ref (udisks_spawned_job_finalize w) = owner_ref w /\
  token_cancelled (udisks_spawned_job_finalize w) = token_cancelled w /\
  idle_sources (udisks_spawned_job_finalize w) = idle_sources w /\
  trace (udisks_spawned_job_finalize w)
  = trace w ++ release_trace (job w) ++ finalize_tail (job w).
Proof.
  unfold udisks_spawned_job_finalize, finalize_tail, input_string_frees, zeroed_input.
  rewrite release_resources_eq.
  change (SpawnedJob.input_string (released (job w)))
    with (SpawnedJob.input_string (job w)).
  change (SpawnedJob.main_context (released (job w)))
    with (SpawnedJob.main_context (job w)).
  change (SpawnedJob.input_string_cursor (released (job w)))
    with (SpawnedJob.input_string_cursor (job w)).
  remember (release_trace (job w)) as rt eqn:Hrt. clear Hrt.
  destruct (job w) as [cl ca hid mc ins cur pid fin fout ferr cin cout cerr ws sin sout serr bo be].
  destruct ins; simpl; repeat split; rewrite <- ?app_assoc; reflexivity.
Qed.

Lemma child_watch_cb_eq (w : World) (status : Z) (stdout_rest stderr_rest : option string) :
  (0 < ref_count w)%nat ->
  exists report,
    Forall is_report report /\
    job (child_watch_cb env w status stdout_rest stderr_rest) = released (job w) /\
    ref_count (child_watch_cb env w status stdout_rest stderr_rest) = ref_count w /\
    owner_ref (child_watch_cb env w status stdout_rest stderr_rest) = owner_ref w /\
    token_cancelled (child_watch_cb env w status stdout_rest stderr_rest)
    = token_cancelled w /\
    idle_sources (child_watch_cb env w status stdout_rest stderr_rest) = idle_sources w /\
    trace (child_watch_cb env w status stdout_rest stderr_rest)
    = trace w
        ++ spawned_job_completed None status
             (child_stdout (drained stdout_rest stderr_rest (job w)))
             (child_stderr (drained stdout_rest stderr_rest (job w)))
        :: report
        ++ release_trace (set_child 0 None (drained stdout_rest stderr_rest (job w))).
Proof.
  intros Hlive. unfold child_watch_cb.
  match goal with
  | |- context [g_signal_emit env ?w0 ?e ?s ?o ?r] =>
      destruct (g_signal_emit_spec env w0 e s o r) as (report & Hreport & Hemit);
      rewrite Hemit; clear Hemit
  end.
  rewrite release_resources_eq.
  exists report. split; [exact Hreport|].
  unfold g_object_unref. simpl.
  destruct (ref_count w) as [|n] eqn:Hrc; [lia|].
  simpl. rewrite ?Hrc.
  repeat split; try (destruct (job w); reflexivity).
  rewrite <- app_assoc. reflexivity.
Qed.

(** A finalized job is out of reach of every event. *)
Lemma dispatch_dead (w : World) (e : Event) :
  Inv env w -> ref_count w = O ->
  job (dispatch env w e) = job w /\ trace (dispatch env w e) = trace w /\
  ref_count (dispatch env w e) = O /\ idle_sources (dispatch env w e) = idle_sources w /\
  owner_ref (dispatch env w e) = owner_ref w.
Proof.
  intros [R D _ _] H0.
  destruct (released_watch _ (D H0)) as (Hw & Hh & Hsin & Hsout & Hserr).
  rewrite H0 in R.
  assert (Ho : owner_ref w = false) by (destruct (owner_ref w); [discriminate R|reflexivity]).
  assert (Hi : idle_sources w = []).
  { rewrite Ho in R. destruct (idle_sources w); [reflexivity|discriminate R]. }
  destruct e; simpl; rewrite ?Hw, ?Hsin, ?Hsout, ?Hserr, ?Hi, ?Ho; auto.
  destruct (token_cancelled w); [auto|]. simpl. rewrite Hh. simpl. auto.
Qed.

Variable J : bool -> UDisksSpawnedJob -> list Effect -> Prop.

Hypothesis J_idle :
  forall j t e report,
    Forall is_report report -> J false j t ->
    J false j (t ++ spawned_job_completed (Some e) 0 None None :: report).

Hypothesis J_child :
  forall j t status stdout_rest stderr_rest report,
    child_watch_source j <> None -> Forall is_report report -> J false j t ->
    J false (released j)
      (t ++ spawned_job_completed None status
              (child_stdout (drained stdout_rest stderr_rest j))
              (child_stderr (drained stdout_rest stderr_rest j))
         :: report ++ release_trace (set_child 0 None (drained stdout_rest stderr_rest j))).

Hypothesis J_finalize :
  forall j t,
    J false j t ->
    J true (set_input (zeroed_input j) (input_string_cursor j) (released j))
      (t ++ release_trace j ++ finalize_tail j).

Hypothesis J_write :
  forall j t accepted,
    child_stdin_source j <> None -> J false j t ->
    J false (fst (fst (write_child_stdin j accepted)))
      (t ++ snd (fst (write_child_stdin j accepted))).

Hypothesis J_stdout :
  forall j t available,
    child_stdout_source j <> None -> J false j t ->
    J false (fst (read_child_stdout j available)) t.

Hypothesis J_stderr :
  forall j t available,
    child_stderr_source j <> None -> J false j t ->
    J false (fst (read_child_stderr j available)) t.

Lemma J_unref (w : World) :
  (0 < ref_count w)%nat -> J false (job w) (trace w) ->
  J (dead (g_object_unref w)) (job (g_object_unref w)) (trace (g_object_unref w)).
Proof.
  intros Hlive HJ.
  destruct (g_object_unref_cases w) as [[H0 _]|[[H1 ->]|(n & Hn & ->)]].
  - lia.
  - destruct (finalize_eq w) as (Hj & Hr & _ & _ & _ & Ht).
    unfold dead. rewrite Hj, Hr, Ht. apply J_finalize. exact HJ.
  - exact HJ.
Qed.

Lemma J_dispatch (w : World) (e : Event) :
  Inv env w -> J (dead w) (job w) (trace w) ->
  J (dead (dispatch env w e)) (job (dispatch env w e)) (trace (dispatch env w e)).
Proof.
  intros HI HJ. unfold dead in *.
  destruct (ref_count w) as [|n] eqn:Hrc.
  { destruct (dispatch_dead w e HI Hrc) as (-> & -> & -> & _). exact HJ. }
  simpl in HJ. pose proof HI as [R D B C].
  destruct e as [| |status stdout_rest stderr_rest|accepted|available|available|]; simpl.
  - (* token_cancel *)
    destruct (token_cancelled w); [rewrite Hrc; exact HJ|].
    destruct (0 <? cancellable_handler_id (job w))%N; [|simpl; rewrite Hrc; exact HJ].
    unfold on_cancelled, g_cancellable_set_error_if_cancelled. simpl.
    destruct (cancellable (job w)); simpl; [exact HJ|rewrite Hrc; exact HJ].
  - (* idle_dispatch *)
    destruct (idle_sources w) as [|data rest] eqn:Hidle; [rewrite Hrc; exact HJ|].
    destruct (emit_completed_with_error_in_idle_cb_spec env (with_idle_sources rest w) data)
      as (report & Hreport & ->).
    apply J_unref; simpl; [lia|]. apply J_idle; assumption.
  - (* child_exited *)
    destruct (child_watch_source (job w)) eqn:Hwatch; [|rewrite Hrc; exact HJ].
    assert (Hlive : (0 < ref_count w)%nat) by lia.
    destruct (child_watch_cb_eq w status stdout_rest stderr_rest Hlive)
      as (report & Hreport & Hj & Hr & _ & _ & _ & Ht).
    rewrite Hj, Hr, Ht, Hrc. simpl. apply J_child; [congruence|exact Hreport|exact HJ].
  - (* stdin_writable *)
    destruct (child_stdin_source (job w)) eqn:Hsrc; [|rewrite Hrc; exact HJ].
    assert (Hne : child_stdin_source (job w) <> None) by congruence.
    pose proof (J_write (job w) (trace w) accepted Hne HJ) as H.
    destruct (write_child_stdin (job w) accepted) as [[j t] b].
    simpl in *. rewrite Hrc. exact H.
  - (* stdout_readable *)
    destruct (child_stdout_source (job w)) eqn:Hsrc; [|rewrite Hrc; exact HJ].
    assert (Hne : child_stdout_source (job w) <> None) by congruence.
    pose proof (J_stdout (job w) (trace w) available Hne HJ) as H.
    simpl in *. rewrite Hsrc in H. rewrite Hrc. exact H.
  - (* stderr_readable *)
    destruct (child_stderr_source (job w)) eqn:Hsrc; [|rewrite Hrc; exact HJ].
    assert (Hne : child_stderr_source (job w) <> None) by congruence.
    pose proof (J_stderr (job w) (trace w) available Hne HJ) as H.
    simpl in *. rewrite Hsrc in H. rewrite Hrc. exact H.
  - (* owner_unref *)
    destruct (owner_ref w) eqn:Howner; [|rewrite Hrc; exact HJ].
    apply J_unref; simpl; [lia|exact HJ].
Qed.

(** What holds of the job and its trace when it is made, and is kept by
    every step it can take, holds after every run. *)
Lemma J_run (events : list Event) (w : World) :
  Inv env w -> J (dead w) (job w) (trace w) ->
  J (dead (run env events w)) (job (run env events w)) (trace (run env events w)).
Proof.
  revert w. induction events as [|e events IH]; intros w HI HJ; [exact HJ|].
  simpl. apply IH; [apply Inv_dispatch; exact HI|]. apply J_dispatch; assumption.
Qed.

End JobInvariant.

(** ** The spawned job: descriptors *)

Section Descriptors.
Import SpawnedJob.

Context {P : Platform}.
Variable env : Environment.

Lemma closed_fds_app (a b : list Effect) :
  closed_fds (a ++ b) = closed_fds a ++ closed_fds b.
Proof. apply flat_map_app. Qed.

Lemma closed_fds_on_handle {A} (f : A -> Effect) (x : option A) :
  (forall a, closed_fds [f a] = []) -> closed_fds (on_handle f x) = [].
Proof. intros H. destruct x; [apply H|reflexivity]. Qed.

Lemma closed_fds_report (t : list Effect) : Forall is_report t -> closed_fds t = [].
Proof.
  induction 1 as [|e t He _ IH]; [reflexivity|].
  destruct e; simpl in He; try contradiction; exact IH.
Qed.

Lemma closed_fds_release (j : UDisksSpawnedJob) :
  closed_fds (release_trace j) = open_fds j.
Proof.
  unfold release_trace, open_fds.
  rewrite !closed_fds_app.
  rewrite !closed_fds_on_handle by (intros; reflexivity).
  cbn [List.filter app].
  destruct (negb (child_pid j =? 0)), (0 <? cancellable_handler_id j)%N,
    (negb (child_stdin_fd j =? -1)), (negb (child_stdout_fd j =? -1)),
    (negb (child_stderr_fd j =? -1)); reflexivity.
Qed.

Lemma closed_fds_finalize_tail (j : UDisksSpawnedJob) : closed_fds (finalize_tail j) = [].
Proof.
  unfold finalize_tail, input_string_frees.
  destruct (main_context j), (SpawnedJob.input_string j); reflexivity.
Qed.

Lemma natural_report (t : list Effect) : Forall is_report t -> existsb is_natural t = false.
Proof.
  induction 1 as [|e t He _ IH]; [reflexivity|].
  destruct e; simpl in He; try contradiction; exact IH.
Qed.

Lemma natural_teardown (t : list Effect) :
  Forall is_teardown t -> existsb is_natural t = false.
Proof.
  induction 1 as [|e t He _ IH]; [reflexivity|].
  destruct e; simpl in He; try contradiction; exact IH.
Qed.

Lemma release_trace_teardown (j : UDisksSpawnedJob) : Forall is_teardown (release_trace j).
Proof. rewrite <- release_resources_trace. apply release_resources_teardown. Qed.

Lemma natural_finalize_tail (j : UDisksSpawnedJob) :
  existsb is_natural (finalize_tail j) = false.
Proof.
  unfold finalize_tail, input_string_frees.
  destruct (main_context j), (SpawnedJob.input_string j); reflexivity.
Qed.

Lemma natural_write (j : UDisksSpawnedJob) (accepted : nat) :
  existsb is_natural (snd (fst (write_child_stdin j accepted))) = false.
Proof.
  unfold write_child_stdin.
  match goal with
  | |- context [if ?b then _ else _] => destruct b
  end; simpl; [|reflexivity].
  destruct (child_stdin_channel j), (child_stdin_source j); reflexivity.
Qed.

Lemma open_fds_stdin (j : UDisksSpawnedJob) :
  child_stdin_fd j <> -1 ->
  open_fds j = child_stdin_fd j :: open_fds (set_stdin (-1) None None j).
Proof.
  intros H. unfold open_fds. simpl.
  destruct (Z.eqb_spec (child_stdin_fd j) (-1)); [contradiction|reflexivity].
Qed.

Lemma fds_accounted_new (command_line : string) (input_string : option string)
    (cancellable : option bool) :
  let w0 := udisks_spawned_job_new env command_line input_string cancellable in
  fds_accounted (open_fds (job w0)) (dead w0) (job w0) (trace w0).
Proof.
  unfold udisks_spawned_job_new, udisks_spawned_job_constructed,
    g_cancellable_set_error_if_cancelled.
  destruct cancellable as [[|]|]; simpl;
    try (destruct (g_shell_parse_argv env (c_str command_line)) as [e|argv];
         [|destruct (g_spawn_async_with_pipes env argv) as [e|child];
           [|destruct input_string]]);
    (split; [reflexivity|split]); simpl;
    try (intros H; exfalso; apply H; reflexivity);
    try (intros [H|H]; discriminate H).
  all: destruct (Z.eqb_spec (Z.of_N (spawned_stdin child)) (-1)) as [E|E]; [lia|].
  all: simpl; intros _; exact E.
Qed.

Lemma fds_accounted_run (events : list Event) (command_line : string)
    (input_string : option string) (cancellable : option bool) :
  let w0 := udisks_spawned_job_new env command_line input_string cancellable in
  let w := run env events w0 in
  fds_accounted (open_fds (job w0)) (dead w) (job w) (trace w).
Proof.
  cbv zeta. apply (J_run env (fds_accounted _)).
  - (* an emission from idle *)
    intros j t e report Hreport (Hsum & Hsrc & Hnone).
    split; [|split; [exact Hsrc|]].
    + rewrite closed_fds_app. simpl. rewrite (closed_fds_report _ Hreport), app_nil_r.
      exact Hsum.
    + rewrite existsb_app. simpl. rewrite (natural_report _ Hreport), orb_false_r.
      exact Hnone.
  - (* the child watch *)
    intros j t status stdout_rest stderr_rest report Hwatch Hreport (Hsum & Hsrc & Hnone).
    split; [|split; [intros H; exfalso; apply H; reflexivity|reflexivity]].
    rewrite closed_fds_app. simpl. rewrite closed_fds_app.
    rewrite (closed_fds_report _ Hreport), closed_fds_release. simpl.
    rewrite app_nil_r. exact Hsum.
  - (* finalize *)
    intros j t (Hsum & Hsrc & Hnone).
    split; [|split; [intros H; exfalso; apply H; reflexivity|reflexivity]].
    rewrite !closed_fds_app, closed_fds_release, closed_fds_finalize_tail.
    rewrite !app_nil_r. exact Hsum.
  - (* the pump *)
    intros j t accepted Hne (Hsum & Hsrc & Hnone).
    specialize (Hsrc Hne).
    pose proof (natural_write j accepted) as Hnat.
    unfold fds_accounted. rewrite existsb_app, Hnat, orb_false_r.
    unfold write_child_stdin in *.
    match goal with
    | |- context [if ?b then _ else _] => destruct b
    end; simpl.
    + split; [|split; [intros H; exfalso; apply H; reflexivity|]].
      * rewrite !closed_fds_app, !closed_fds_on_handle by (intros; reflexivity).
        simpl. rewrite <- Hsum, (open_fds_stdin j Hsrc), <- app_assoc. reflexivity.
      * intros H. specialize (Hnone H). rewrite (open_fds_stdin j Hsrc) in Hnone.
        discriminate Hnone.
    + rewrite closed_fds_app. simpl. rewrite app_nil_r.
      split; [exact Hsum|]. split; [intros _; exact Hsrc|exact Hnone].
  - (* stdout *)
    intros j t available _ H. exact H.
  - (* stderr *)
    intros j t available _ H. exact H.
  - apply Inv_new.
  - apply fds_accounted_new.
Qed.

(** No descriptor leaks and none is closed twice. At every moment the
    descriptors closed so far, followed by the ones the job still holds,
    are the descriptors the job got when it was made; once the child
    watch has run, or the job is finalized, every one of them has been
    closed, once. *)
Theorem spawned_job_descriptors_closed_once (events : list Event) (command_line : string)
    (input_string : option string) (cancellable : option bool) :
  let w0 := udisks_spawned_job_new env command_line input_string cancellable in
  let w := run env events w0 in
  closed_fds (trace w) ++ open_fds (job w) = open_fds (job w0) /\
  (completed_naturally w = true \/ ref_count w = O ->
   closed_fds (trace w) = open_fds (job w0)).
Proof.
  cbv zeta.
  destruct (fds_accounted_run events command_line input_string cancellable)
    as (Hsum & _ & Hnone).
  split; [exact Hsum|].
  intros H. rewrite <- Hsum, Hnone, app_nil_r; [reflexivity|].
  destruct H as [H|H]; [left; exact H|right].
  unfold dead. rewrite H. reflexivity.
Qed.

End Descriptors.

(** ** The spawned job: the child *)

Section Child.
Import SpawnedJob.

Context {P : Platform}.
Variable env : Environment.

Lemma signalled_app (a b : list Effect) : signalled (a ++ b) = signalled a ++ signalled b.
Proof. apply List.filter_app. Qed.

Lemma signalled_on_handle {A} (f : A -> Effect) (x : option A) :
  (forall a, is_signal (f a) = false) -> signalled (on_handle f x) = [].
Proof. intros H. destruct x; [|reflexivity]. unfold signalled. simpl. rewrite H. reflexivity. Qed.

Lemma signalled_report (t : list Effect) : Forall is_report t -> signalled t = [].
Proof.
  induction 1 as [|e t He _ IH]; [reflexivity|].
  destruct e; simpl in He; try contradiction; exact IH.
Qed.

Lemma signalled_release (j : UDisksSpawnedJob) :
  signalled (release_trace j)
  = if negb (child_pid j =? 0)
    then [kill (child_pid j) SIGTERM; reaper_attached (child_pid j) (main_context j)]
    else [].
Proof.
  unfold release_trace.
  rewrite !signalled_app.
  rewrite !signalled_on_handle by (intros; reflexivity).
  destruct (negb (child_pid j =? 0)), (0 <? cancellable_handler_id j)%N,
    (negb (child_stdin_fd j =? -1)), (negb (child_stdout_fd j =? -1)),
    (negb (child_stderr_fd j =? -1)); reflexivity.
Qed.

Lemma signalled_finalize_tail (j : UDisksSpawnedJob) : signalled (finalize_tail j) = [].
Proof.
  unfold finalize_tail, input_string_frees.
  destruct (main_context j), (SpawnedJob.input_string j); reflexivity.
Qed.

Lemma signalled_write (j : UDisksSpawnedJob) (accepted : nat) :
  signalled (snd (fst (write_child_stdin j accepted))) = [].
Proof.
  unfold write_child_stdin.
  match goal with
  | |- context [if ?b then _ else _] => destruct b
  end; simpl; [|reflexivity].
  destruct (child_stdin_channel j), (child_stdin_source j); reflexivity.
Qed.

Lemma write_child_stdin_child (j : UDisksSpawnedJob) (accepted : nat) :
  let j' := fst (fst (write_child_stdin j accepted)) in
  main_context j' = main_context j /\ child_watch_source j' = child_watch_source j /\
  child_pid j' = child_pid j.
Proof.
  unfold write_child_stdin.
  match goal with
  | |- context [if ?b then _ else _] => destruct b
  end; simpl; repeat split.
Qed.

(** Steps that neither touch the child nor signal nor complete. *)
Lemma child_accounted_quiet (pid : Z) (context : option GMainContext) (dead : bool)
    (j j' : UDisksSpawnedJob) (t q : list Effect) :
  main_context j' = main_context j -> child_watch_source j' = child_watch_source j ->
  child_pid j' = child_pid j -> signalled q = [] -> existsb is_natural q = false ->
  child_accounted pid context dead j t -> child_accounted pid context dead j' (t ++ q).
Proof.
  intros Hc Hw Hp Hs Hn [Hctx H].
  unfold child_accounted.
  rewrite Hc, Hw, Hp, signalled_app, Hs, existsb_app, Hn, app_nil_r, orb_false_r.
  split; assumption.
Qed.

Lemma child_accounted_new (command_line : string) (input_string : option string)
    (cancellable : option bool) :
  let w0 := udisks_spawned_job_new env command_line input_string cancellable in
  child_accounted (child_pid (job w0)) (g_main_context_get_thread_default env)
    (dead w0) (job w0) (trace w0).
Proof.
  unfold udisks_spawned_job_new, udisks_spawned_job_constructed,
    g_cancellable_set_error_if_cancelled.
  destruct cancellable as [[|]|]; simpl;
    try (destruct (g_shell_parse_argv env (c_str command_line)) as [e|argv];
         [|destruct (g_spawn_async_with_pipes env argv) as [e|child];
           [|destruct input_string]]);
    (split; [simpl; try reflexivity|]); simpl.
  all: try match goal with
           | |- context [negb (?x =? -1)] => destruct (negb (x =? -1)); simpl
           end.
  all: try reflexivity.
  all: first [ do 3 right; repeat split; reflexivity
             | left; repeat split; first [discriminate | reflexivity] ].
Qed.

Lemma child_accounted_run (events : list Event) (command_line : string)
    (input_string : option string) (cancellable : option bool) :
  let w0 := udisks_spawned_job_new env command_line input_string cancellable in
  let w := run env events w0 in
  child_accounted (child_pid (job w0)) (g_main_context_get_thread_default env)
    (dead w) (job w) (trace w).
Proof.
  cbv zeta. apply (J_run env (child_accounted _ _)).
  - (* an emission from idle *)
    intros j t e report Hreport H.
    apply (child_accounted_quiet _ _ _ j);
      [reflexivity|reflexivity|reflexivity| | |exact H].
    + simpl. apply signalled_report. exact Hreport.
    + simpl. apply natural_report. exact Hreport.
  - (* the child watch *)
    intros j t status stdout_rest stderr_rest report Hwatch Hreport [Hctx H].
    split; [exact Hctx|].
    destruct H as [(_ & Hpid & Hne & Hs & Hn & _)|[(Hw & _)|[(Hw & _)|(Hw & _)]]];
      try contradiction.
    right. left. repeat split; try assumption.
    + rewrite signalled_app, Hs. simpl. rewrite signalled_app.
      rewrite (signalled_report _ Hreport), signalled_release. reflexivity.
    + rewrite existsb_app. simpl. apply orb_true_r.
  - (* finalize *)
    intros j t [Hctx H]. split; [exact Hctx|].
    rewrite !signalled_app, signalled_release, signalled_finalize_tail, app_nil_r.
    rewrite !existsb_app, (natural_teardown _ (release_trace_teardown j)),
      natural_finalize_tail, !orb_false_r.
    destruct H as [(Hw & Hpid & Hne & Hs & Hn & _)|[(Hw & Hpid & Hne & Hs & Hn)
                  |[(_ & _ & _ & _ & _ & Hd)|(Hw & Hpid & Hne & Hs & Hn)]]].
    + right. right. left.
      rewrite Hs, Hpid, Hctx.
      match goal with
      | |- context [negb (?x =? 0)] => destruct (Z.eqb_spec x 0) as [E|E]; [contradiction|]
      end.
      repeat split; assumption.
    + right. left. rewrite Hs, Hpid. repeat split; assumption.
    + discriminate Hd.
    + do 3 right. rewrite Hs, Hpid. repeat split; assumption.
  - (* the pump *)
    intros j t accepted _ H.
    destruct (write_child_stdin_child j accepted) as (Hc & Hw & Hp).
    apply (child_accounted_quiet _ _ _ j);
      [exact Hc|exact Hw|exact Hp|apply signalled_write|apply natural_write|exact H].
  - (* stdout *)
    intros j t available _ H. rewrite <- (app_nil_r t).
    apply (child_accounted_quiet _ _ _ j);
      [reflexivity|reflexivity|reflexivity|reflexivity|reflexivity|exact H].
  - (* stderr *)
    intros j t available _ H. rewrite <- (app_nil_r t).
    apply (child_accounted_quiet _ _ _ j);
      [reflexivity|reflexivity|reflexivity|reflexivity|reflexivity|exact H].
  - apply Inv_new.
  - apply child_accounted_new.
Qed.

(** The child is sent [SIGTERM] exactly when the job is finalized before
    the child watch has run: then once, to the pid the job spawned,
    followed by a reaper attached to the job's main context. A child that
    was reaped by the child watch is never signalled, and a job without a
    child signals nobody. *)
Theorem spawned_job_child_terminated_on_finalize (events : list Event)
    (command_line : string) (input_string : option string) (cancellable : option bool) :
  let w0 := udisks_spawned_job_new env command_line input_string cancellable in
  let w := run env events w0 in
  let pid := child_pid (job w0) in
  signalled (trace w)
  = if dead w && negb (completed_naturally w) && negb (pid =? 0)
    then [kill pid SIGTERM; reaper_attached pid (g_main_context_get_thread_default env)]
    else [].
Proof.
  cbv zeta. unfold completed_naturally.
  destruct (child_accounted_run events command_line input_string cancellable)
    as [_ [(_ & _ & Hne & -> & -> & ->)|[(_ & _ & Hne & -> & ->)
           |[(_ & _ & Hne & -> & -> & ->)|(_ & _ & Hne & -> & ->)]]]].
  - reflexivity.
  - rewrite andb_false_r. reflexivity.
  - simpl. destruct (Z.eqb_spec (child_pid
      (job (udisks_spawned_job_new env command_line input_string cancellable))) 0);
      [contradiction|reflexivity].
  - rewrite Hne. simpl. rewrite andb_false_r. reflexivity.
Qed.

End Child.

(** ** The spawned job: what the child reads *)

Section Stdin.
Import SpawnedJob.

Context {P : Platform}.
Variable env : Environment.

Lemma substring_length (s : string) :
  forall n m : nat,
    String.length (substring n m s) = Nat.min m (String.length s - n).
Proof.
  induction s as [|c s IH]; intros [|n] [|m]; simpl; try reflexivity.
  - rewrite IH. rewrite Nat.sub_0_r. reflexivity.
  - rewrite IH. reflexivity.
  - rewrite IH. reflexivity.
Qed.

Lemma substring_0_0 (s : string) : substring 0 0 s = EmptyString.
Proof. destruct s; reflexivity. Qed.

Lemma substring_whole (s : string) : substring 0 (String.length s) s = s.
Proof. induction s as [|c s IH]; simpl; [reflexivity|]. rewrite IH. reflexivity. Qed.

Lemma skip_cons (c : ascii) (s : string) (n : nat) : skip (S n) (String c s) = skip n s.
Proof. reflexivity. Qed.

Lemma substring_skip (s : string) :
  forall c n : nat,
    (c <= String.length s)%nat ->
    substring 0 c s +:+ substring 0 n (skip c s) = substring 0 (c + n) s.
Proof.
  induction s as [|x s IH]; intros [|c] n Hc; simpl in Hc; try lia.
  - reflexivity.
  - unfold skip. rewrite Nat.sub_0_r, substring_whole. reflexivity.
  - rewrite skip_cons. simpl. rewrite append_cons, IH by lia. reflexivity.
Qed.

Lemma written_app (a b : list Effect) : written (a ++ b) = written a +:+ written b.
Proof.
  induction a as [|e a IH]; [reflexivity|].
  destruct e; simpl; rewrite ?IH; try reflexivity.
  symmetry. apply string_app_assoc.
Qed.

Lemma written_report (t : list Effect) : Forall is_report t -> written t = EmptyString.
Proof.
  induction 1 as [|e t He _ IH]; [reflexivity|].
  destruct e; simpl in He; try contradiction; exact IH.
Qed.

Lemma written_teardown (t : list Effect) : Forall is_teardown t -> written t = EmptyString.
Proof.
  induction 1 as [|e t He _ IH]; [reflexivity|].
  destruct e; simpl in He; try contradiction; exact IH.
Qed.

Lemma written_finalize_tail (j : UDisksSpawnedJob) : written (finalize_tail j) = EmptyString.
Proof.
  unfold finalize_tail, input_string_frees.
  destruct (main_context j), (SpawnedJob.input_string j); reflexivity.
Qed.

(** Steps that write nothing and leave the cursor and the input
    alone. *)
Lemma stdin_fed_quiet (input : string) (dead dead' : bool) (j j' : UDisksSpawnedJob)
    (t q : list Effect) :
  input_string_cursor j' = input_string_cursor j ->
  (child_stdin_source j' <> None ->
   child_stdin_source j <> None /\ SpawnedJob.input_string j' = SpawnedJob.input_string j) ->
  written q = EmptyString ->
  stdin_fed input dead j t -> stdin_fed input dead' j' (t ++ q).
Proof.
  intros Hcur Hsrc Hq (Hw & Hle & Hin).
  unfold stdin_fed. rewrite Hcur, written_app, Hq, string_app_nil_r.
  split; [exact Hw|]. split; [exact Hle|].
  intros H. destruct (Hsrc H) as [H1 H2]. rewrite H2. apply Hin. exact H1.
Qed.

Lemma stdin_fed_new (command_line : string) (input_string : option string)
    (cancellable : option bool) :
  let w0 := udisks_spawned_job_new env command_line input_string cancellable in
  stdin_fed (default EmptyString (g_strdup input_string)) (dead w0) (job w0) (trace w0).
Proof.
  unfold udisks_spawned_job_new, udisks_spawned_job_constructed,
    g_cancellable_set_error_if_cancelled.
  destruct cancellable as [[|]|]; simpl;
    try (destruct (g_shell_parse_argv env (c_str command_line)) as [e|argv];
         [|destruct (g_spawn_async_with_pipes env argv) as [e|child];
           [|destruct input_string]]);
    unfold stdin_fed; simpl;
    try match goal with
        | |- context [negb (?x =? -1)] => destruct (negb (x =? -1)); simpl
        end;
    (split; [first [reflexivity|symmetry; apply substring_0_0]|]);
    (split; [lia|]);
    first [ intros H; exfalso; apply H; reflexivity
          | intros _; split; [reflexivity|discriminate] ].
Qed.

Lemma stdin_fed_run (events : list Event) (command_line : string)
    (input_string : option string) (cancellable : option bool) :
  let w := run env events
             (udisks_spawned_job_new env command_line input_string cancellable) in
  stdin_fed (default EmptyString (g_strdup input_string)) (dead w) (job w) (trace w).
Proof.
  cbv zeta.
  set (input := default EmptyString (g_strdup input_string)).
  assert (Hinput : c_str input = input).
  { unfold input. destruct input_string; simpl; [apply c_str_idempotent|reflexivity]. }
  apply (J_run env (stdin_fed input)).
  - (* an emission from idle *)
    intros j t e report Hreport H.
    apply (stdin_fed_quiet input false false j); [reflexivity|auto| |exact H].
    simpl. apply written_report. exact Hreport.
  - (* the child watch *)
    intros j t status stdout_rest stderr_rest report _ Hreport H.
    apply (stdin_fed_quiet input false false j); [reflexivity| | |exact H].
    + intros H'. exfalso. apply H'. reflexivity.
    + simpl. rewrite written_app, (written_report _ Hreport).
      apply written_teardown. apply release_trace_teardown.
  - (* finalize *)
    intros j t H.
    apply (stdin_fed_quiet input false true j); [reflexivity| | |exact H].
    + intros H'. exfalso. apply H'. reflexivity.
    + rewrite written_app, (written_teardown _ (release_trace_teardown j)).
      apply written_finalize_tail.
  - (* the pump *)
    intros j t accepted Hne H.
    pose proof H as (Hw & Hle & Hin).
    destruct (Hin Hne) as [Hstr Hcur].
    destruct (input_string_cursor j) as [c|] eqn:Ec; [clear Hcur|contradiction].
    unfold write_child_stdin. rewrite Ec. unfold cursor_str. rewrite Hstr.
    unfold skip. rewrite (substring_c_str_fixed _ Hinput).
    fold (skip c input).
    destruct (String.length (skip c input) =? 0)%nat eqn:E; simpl.
    + apply (stdin_fed_quiet input false false j); [reflexivity| | |exact H].
      * intros H'. exfalso. apply H'. reflexivity.
      * destruct (child_stdin_channel j), (child_stdin_source j); reflexivity.
    + simpl in Hw, Hle. unfold stdin_fed. simpl.
      rewrite written_app, Hw. simpl. rewrite string_app_nil_r.
      rewrite !(substring_c_str_fixed _ Hinput). fold (skip c input).
      assert (Hlen : String.length (skip c input) = (String.length input - c)%nat).
      { unfold skip. rewrite substring_length. lia. }
      split; [|split; [lia|]].
      * apply substring_skip. exact Hle.
      * intros _. split; [reflexivity|discriminate].
  - (* stdout *)
    intros j t available _ H. rewrite <- (app_nil_r t).
    apply (stdin_fed_quiet input false false j); [reflexivity|auto|reflexivity|exact H].
  - (* stderr *)
    intros j t available _ H. rewrite <- (app_nil_r t).
    apply (stdin_fed_quiet input false false j); [reflexivity|auto|reflexivity|exact H].
  - apply Inv_new.
  - apply stdin_fed_new.
Qed.

(** What the child is fed is the input string and nothing else: at every
    moment the bytes written to its stdin so far are the input string up
    to the cursor, in order, none of them twice. *)
Theorem spawned_job_stdin_is_input_to_cursor (events : list Event) (command_line : string)
    (input_string : option string) (cancellable : option bool) :
  let w := run env events
             (udisks_spawned_job_new env command_line input_string cancellable) in
  written (trace w)
  = substring 0 (default 0%nat (input_string_cursor (job w)))
      (default EmptyString (g_strdup input_string)).
Proof.
  cbv zeta.
  destruct (stdin_fed_run events command_line input_string cancellable) as (H & _).
  exact H.
Qed.

(** The pump closes the child's stdin only when everything has been
    written: when a dispatch of the source on stdin removes that source,
    the whole input string has been written. *)
Theorem spawned_job_stdin_closed_after_input (events : list Event) (command_line : string)
    (input_string : option string) (cancellable : option bool) (accepted : nat) :
  let w := run env events
             (udisks_spawned_job_new env command_line input_string cancellable) in
  child_stdin_source (job w) <> None ->
  child_stdin_source (job (dispatch env w (stdin_writable accepted))) = None ->
  written (trace w) = default EmptyString (g_strdup input_string).
Proof.
  cbv zeta.
  set (input := default EmptyString (g_strdup input_string)).
  assert (Hinput : c_str input = input).
  { unfold input. destruct input_string; simpl; [apply c_str_idempotent|reflexivity]. }
  destruct (stdin_fed_run events command_line input_string cancellable) as (Hw & Hle & Hin).
  fold input in Hw, Hle, Hin.
  set (w := run env events
              (udisks_spawned_job_new env command_line input_string cancellable)) in *.
  intros Hne Hgone. destruct (Hin Hne) as [Hstr Hcur].
  destruct (input_string_cursor (job w)) as [c|] eqn:Ec; [clear Hcur|contradiction].
  simpl in Hw, Hle. simpl in Hgone.
  destruct (child_stdin_source (job w)) as [src|] eqn:Esrc; [|contradiction].
  unfold write_child_stdin in Hgone. rewrite Ec in Hgone.
  unfold cursor_str in Hgone. rewrite Hstr in Hgone.
  unfold skip in Hgone. rewrite (substring_c_str_fixed _ Hinput) in Hgone.
  rewrite substring_length in Hgone.
  destruct (Nat.min (String.length input - c) (String.length input - c) =? 0)%nat eqn:E;
    simpl in Hgone.
  - apply Nat.eqb_eq in E. rewrite Hw.
    assert (c = String.length input) by lia. subst c. apply substring_whole.
  - rewrite Esrc in Hgone. discriminate Hgone.
Qed.

End Stdin.

(** ** The spawned job: what the child writes *)

Section Capture.
Import SpawnedJob.

Context {P : Platform}.
Variable env : Environment.

Lemma run_snoc (events : list Event) (e : Event) (w : World) :
  run env (events ++ [e]) w = dispatch env (run env events w) e.
Proof. unfold run. rewrite fold_left_app. reflexivity. Qed.

Lemma captured_stdout_snoc (events : list Event) (e : Event) :
  captured_stdout (events ++ [e]) = captured_stdout events +:+ captured_stdout [e].
Proof.
  induction events as [|x events IH]; [reflexivity|].
  destruct x; simpl; rewrite ?IH; try reflexivity.
  symmetry. apply string_app_assoc.
Qed.

Lemma captured_stderr_snoc (events : list Event) (e : Event) :
  captured_stderr (events ++ [e]) = captured_stderr events +:+ captured_stderr [e].
Proof.
  induction events as [|x events IH]; [reflexivity|].
  destruct x; simpl; rewrite ?IH; try reflexivity.
  symmetry. apply string_app_assoc.
Qed.

(** An event that reads nothing and leaves the job alone, or detaches
    the child watch. *)
Lemma capturing_still (events : list Event) (e : Event) (w w' : World) :
  captured_stdout [e] = EmptyString -> captured_stderr [e] = EmptyString ->
  job w' = job w \/ child_watch_source (job w') = None ->
  capturing events w -> capturing (events ++ [e]) w'.
Proof.
  intros Ho He [Hj|Hj] Hc Hwatch; [|contradiction].
  rewrite captured_stdout_snoc, captured_stderr_snoc, Ho, He, !string_app_nil_r.
  rewrite Hj in *. apply Hc. exact Hwatch.
Qed.

Lemma g_object_unref_job (w : World) :
  job (g_object_unref w) = job w \/ child_watch_source (job (g_object_unref w)) = None.
Proof.
  destruct (g_object_unref_cases w) as [[_ ->]|[[_ ->]|(n & _ & ->)]]; auto.
  right. destruct (finalize_eq w) as (-> & _). reflexivity.
Qed.

Lemma capturing_dispatch (events : list Event) (w : World) (e : Event) :
  Inv env w -> capturing events w -> capturing (events ++ [e]) (dispatch env w e).
Proof.
  intros HI Hc.
  destruct e as [| |status stdout_rest stderr_rest|accepted|available|available|]; simpl.
  - (* token_cancel *)
    apply (capturing_still events _ w); [reflexivity|reflexivity| |exact Hc].
    left. destruct (token_cancelled w); [reflexivity|].
    simpl. destruct (0 <? cancellable_handler_id (job w))%N; [|reflexivity].
    unfold on_cancelled, g_cancellable_set_error_if_cancelled. simpl.
    destruct (cancellable (job w)); reflexivity.
  - (* idle_dispatch *)
    apply (capturing_still events _ w); [reflexivity|reflexivity| |exact Hc].
    destruct (idle_sources w) as [|data rest]; [left; reflexivity|].
    destruct (emit_completed_with_error_in_idle_cb_spec env (with_idle_sources rest w) data)
      as (report & _ & ->).
    match goal with
    | |- context [g_object_unref ?w1] =>
        destruct (g_object_unref_job w1) as [H|H]; [left; rewrite H; reflexivity|right; exact H]
    end.
  - (* child_exited *)
    apply (capturing_still events _ w); [reflexivity|reflexivity| |exact Hc].
    destruct (child_watch_source (job w)) eqn:Hwatch; [|left; reflexivity].
    right.
    assert (Hlive : (0 < ref_count w)%nat).
    { destruct HI as [_ D _ _]. destruct (ref_count w); [|lia]. exfalso.
      destruct (released_watch _ (D eq_refl)) as [H _]. congruence. }
    destruct (child_watch_cb_eq env w status stdout_rest stderr_rest Hlive)
      as (report & _ & -> & _).
    reflexivity.
  - (* stdin_writable *)
    destruct (child_stdin_source (job w)) eqn:Hsrc;
      [|apply (capturing_still events _ w); auto].
    intros Hwatch.
    rewrite captured_stdout_snoc, captured_stderr_snoc, !string_app_nil_r.
    unfold write_child_stdin in *.
    match goal with
    | |- context [if ?b then _ else _] => destruct b
    end; simpl in *; apply Hc; exact Hwatch.
  - (* stdout_readable *)
    intros Hwatch.
    assert (Hwatch0 : child_watch_source (job w) <> None).
    { destruct (child_stdout_source (job w)); exact Hwatch. }
    destruct (Hc Hwatch0) as (Ho & He & Hso & Hse & Hco & Hce).
    destruct (child_stdout_source (job w)) eqn:Hsrc; [|contradiction].
    rewrite captured_stdout_snoc, captured_stderr_snoc, !string_app_nil_r.
    simpl. rewrite Ho, ?Hsrc. simpl. rewrite string_app_nil_r.
    repeat split; try assumption; discriminate.
  - (* stderr_readable *)
    intros Hwatch.
    assert (Hwatch0 : child_watch_source (job w) <> None).
    { destruct (child_stderr_source (job w)); exact Hwatch. }
    destruct (Hc Hwatch0) as (Ho & He & Hso & Hse & Hco & Hce).
    destruct (child_stderr_source (job w)) eqn:Hsrc; [|contradiction].
    rewrite captured_stdout_snoc, captured_stderr_snoc, !string_app_nil_r.
    simpl. rewrite He, ?Hsrc. simpl. rewrite string_app_nil_r.
    repeat split; try assumption; discriminate.
  - (* owner_unref *)
    apply (capturing_still events _ w); [reflexivity|reflexivity| |exact Hc].
    destruct (owner_ref w); [|left; reflexivity].
    match goal with
    | |- context [g_object_unref ?w1] =>
        destruct (g_object_unref_job w1) as [H|H]; [left; rewrite H; reflexivity|right; exact H]
    end.
Qed.

Lemma capturing_new (command_line : string) (input_string : option string)
    (cancellable : option bool) :
  capturing [] (udisks_spawned_job_new env command_line input_string cancellable).
Proof.
  unfold udisks_spawned_job_new, udisks_spawned_job_constructed,
    g_cancellable_set_error_if_cancelled, capturing.
  destruct cancellable as [[|]|]; simpl;
    try (destruct (g_shell_parse_argv env (c_str command_line)) as [e|argv];
         [|destruct (g_spawn_async_with_pipes env argv) as [e|child];
           [|destruct input_string]]);
    simpl;
    try match goal with
        | |- context [negb (?x =? -1)] => destruct (negb (x =? -1)); simpl
        end;
    intros H; first [ exfalso; apply H; reflexivity
                    | repeat split; discriminate ].
Qed.

Lemma capturing_run (events : list Event) (command_line : string)
    (input_string : option string) (cancellable : option bool) :
  capturing events
    (run env events (udisks_spawned_job_new env command_line input_string cancellable)).
Proof.
  induction events as [|e events IH] using rev_ind.
  - apply capturing_new.
  - rewrite run_snoc. apply capturing_dispatch; [apply Inv_run|exact IH].
Qed.

(** The completion emitted by the child watch carries everything the
    child wrote: on stdout what the reads of the stdout source took, in
    order, followed by what was left in the pipe when the child was gone;
    on stderr likewise. Nothing read from one pipe ends up in the other
    buffer. *)
Theorem spawned_job_output_captured (events : list Event) (command_line : string)
    (input_string : option string) (cancellable : option bool) (status : Z)
    (stdout_rest stderr_rest : option string) :
  let w := run env events
             (udisks_spawned_job_new env command_line input_string cancellable) in
  child_watch_source (job w) <> None ->
  List.filter is_completion
    (trace (dispatch env w (child_exited status stdout_rest stderr_rest)))
  = List.filter is_completion (trace w)
      ++ [spawned_job_completed None status
            (Some (captured_stdout events +:+ default EmptyString stdout_rest))
            (Some (captured_stderr events +:+ default EmptyString stderr_rest))].
Proof.
  cbv zeta. intros Hwatch.
  pose proof (Inv_run env events command_line input_string cancellable) as HI.
  destruct (capturing_run events command_line input_string cancellable Hwatch)
    as (Ho & He & _ & _ & Hco & Hce).
  set (w := run env events
              (udisks_spawned_job_new env command_line input_string cancellable)) in *.
  assert (Hlive : (0 < ref_count w)%nat).
  { destruct HI as [_ D _ _]. destruct (ref_count w); [|lia]. exfalso.
    destruct (released_watch _ (D eq_refl)) as [H _]. congruence. }
  simpl. destruct (child_watch_source (job w)); [|contradiction].
  destruct (child_watch_cb_eq env w status stdout_rest stderr_rest Hlive)
    as (report & Hreport & _ & _ & _ & _ & _ & ->).
  rewrite List.filter_app. f_equal. simpl.
  rewrite List.filter_app, (report_no_completion _ Hreport).
  rewrite (teardown_no_completion _ (release_trace_teardown _)).
  unfold read_to_end. rewrite Ho, He.
  destruct (child_stdout_channel (job w)); [|contradiction].
  destruct (child_stderr_channel (job w)); [|contradiction].
  destruct stdout_rest, stderr_rest; simpl; rewrite ?string_app_nil_r; reflexivity.
Qed.

End Capture.

(** ** The spawned job: after completion and after finalizing *)

Section Final.
Import SpawnedJob.

Context {P : Platform}.
Variable env : Environment.

Lemma released_after_exit_run (events : list Event) (command_line : string)
    (input_string : option string) (cancellable : option bool) :
  let w := run env events
             (udisks_spawned_job_new env command_line input_string cancellable) in
  completed_naturally w = true -> released (job w) = job w.
Proof.
  cbv zeta. unfold completed_naturally.
  match goal with
  | |- existsb is_natural (trace ?w) = true -> _ =>
      change (released_after_exit (dead w) (job w) (trace w))
  end.
  apply (J_run env released_after_exit); unfold released_after_exit.
  - intros j t e report Hreport H.
    rewrite existsb_app. simpl. rewrite (natural_report _ Hreport), orb_false_r. exact H.
  - intros j t status stdout_rest stderr_rest report _ _ _ _. destruct j. reflexivity.
  - intros j t _ _. destruct j. reflexivity.
  - intros j t accepted Hne H.
    rewrite existsb_app, natural_write, orb_false_r. intros Hn.
    destruct (released_watch _ (H Hn)) as (_ & _ & Hsrc & _). contradiction.
  - intros j t available Hne H Hn.
    destruct (released_watch _ (H Hn)) as (_ & _ & _ & Hsrc & _). contradiction.
  - intros j t available Hne H Hn.
    destruct (released_watch _ (H Hn)) as (_ & _ & _ & _ & Hsrc). contradiction.
  - apply Inv_new.
  - unfold udisks_spawned_job_new, udisks_spawned_job_constructed,
      g_cancellable_set_error_if_cancelled.
    destruct cancellable as [[|]|]; simpl;
      try (destruct (g_shell_parse_argv env (c_str command_line)) as [e|argv];
           [|destruct (g_spawn_async_with_pipes env argv) as [e|child]]);
      simpl; intros H; discriminate H.
Qed.

(** As long as the token is not cancelled, emitted and pending
    completions make one. *)
Lemma once_while_not_cancelled (events : list Event) (command_line : string)
    (input_string : option string) (cancellable : option bool) :
  let w := run env events
             (udisks_spawned_job_new env command_line input_string cancellable) in
  token_cancelled w = false -> once w.
Proof.
  cbv zeta.
  refine (proj2 (run_invariant env
                   (fun w => Inv env w /\ (token_cancelled w = false -> once w))
                   (fun _ => True) _ events _ _ _)).
  - intros w e _ [HI IH]. split; [apply Inv_dispatch; exact HI|]. intros Htok.
    assert (Htok0 : token_cancelled w = false).
    { destruct (token_cancelled w) eqn:E; [|reflexivity].
      rewrite (token_cancelled_dispatch env w e E) in Htok. discriminate Htok. }
    apply once_dispatch; [|exact HI|apply IH; exact Htok0].
    intros ->. exfalso. simpl in Htok. rewrite Htok0 in Htok.
    unfold on_cancelled, g_cancellable_set_error_if_cancelled in Htok. simpl in Htok.
    destruct (0 <? cancellable_handler_id (job w))%N;
      [destruct (SpawnedJob.cancellable (job w))|]; simpl in Htok; discriminate Htok.
  - apply Forall_forall. intros; exact I.
  - split; [apply Inv_new|]. intros _. apply once_new.
Qed.

Lemma natural_is_completion (t : list Effect) :
  existsb is_natural t = true -> (1 <= length (List.filter is_completion t))%nat.
Proof.
  induction t as [|e t IH]; simpl; [discriminate|].
  destruct e; simpl; try exact IH. intros _. lia.
Qed.

Lemma completions_finalize_tail (j : UDisksSpawnedJob) :
  List.filter is_completion (finalize_tail j) = [].
Proof.
  unfold finalize_tail, input_string_frees.
  destruct (main_context j), (SpawnedJob.input_string j); reflexivity.
Qed.

Lemma settled_unref (w : World) : settled w -> settled (g_object_unref w).
Proof.
  intros (Hn & Hi & Hj & Hc).
  destruct (g_object_unref_cases w) as [[_ ->]|[[_ ->]|(n & _ & ->)]].
  - repeat split; assumption.
  - destruct (finalize_eq w) as (Ej & _ & _ & _ & Ei & Et).
    unfold settled, completed_naturally, completions. rewrite Ej, Ei, Et.
    split; [|split; [exact Hi|split; [reflexivity|]]].
    + rewrite existsb_app. unfold completed_naturally in Hn. rewrite Hn. reflexivity.
    + rewrite !List.filter_app.
      rewrite (teardown_no_completion _ (release_trace_teardown _)).
      rewrite completions_finalize_tail, !app_nil_r. exact Hc.
  - repeat split; assumption.
Qed.

(** Once settled, no event emits again. *)
Lemma settled_dispatch (w : World) (e : Event) : settled w -> settled (dispatch env w e).
Proof.
  intros Hs. pose proof Hs as (Hn & Hi & Hj & Hc).
  destruct (released_watch _ Hj) as (Hw & Hh & Hsin & Hsout & Hserr).
  destruct e; simpl; rewrite ?Hw, ?Hsin, ?Hsout, ?Hserr, ?Hi; try exact Hs.
  - destruct (token_cancelled w); [exact Hs|]. simpl. rewrite Hh. simpl.
    repeat split; assumption.
  - destruct (owner_ref w); [|exact Hs].
    apply settled_unref. repeat split; assumption.
Qed.

(** A completion that came from the child watch while the token was not
    cancelled is the only one there will be: whatever happens later,
    cancelling the token included, [spawned-job-completed] is not emitted
    again. *)
Theorem spawned_job_natural_completion_is_final (events later : list Event)
    (command_line : string) (input_string : option string) (cancellable : option bool) :
  let w := run env events
             (udisks_spawned_job_new env command_line input_string cancellable) in
  completed_naturally w = true -> token_cancelled w = false ->
  completions (run env later w) = 1%nat.
Proof.
  cbv zeta. intros Hn Htok.
  pose proof (once_while_not_cancelled events command_line input_string cancellable Htok)
    as [Hle _].
  pose proof (released_after_exit_run events command_line input_string cancellable Hn)
    as Hrel.
  set (w := run env events
              (udisks_spawned_job_new env command_line input_string cancellable)) in *.
  assert (Hs : settled w).
  { pose proof (natural_is_completion _ Hn) as H1.
    unfold settled, completions, pending in *.
    split; [exact Hn|]. split; [|split; [exact Hrel|lia]].
    destruct (idle_sources w); [reflexivity|simpl in Hle; lia]. }
  clearbody w. clear Hn Htok Hle Hrel.
  revert w Hs. induction later as [|e later IH]; intros w Hs.
  - apply Hs.
  - simpl. apply IH. apply settled_dispatch. exact Hs.
Qed.

(** A finalized job is out of reach: whatever is dispatched after the
    last reference is gone, nothing more is done and the job is not
    touched. *)
Theorem spawned_job_finalized_is_inert (events later : list Event)
    (command_line : string) (input_string : option string) (cancellable : option bool) :
  let w := run env events
             (udisks_spawned_job_new env command_line input_string cancellable) in
  ref_count w = O ->
  trace (run env later w) = trace w /\ job (run env later w) = job w /\
  ref_count (run env later w) = O.
Proof.
  cbv zeta. intros Hdead.
  pose proof (Inv_run env events command_line input_string cancellable) as HI.
  set (w := run env events
              (udisks_spawned_job_new env command_line input_string cancellable)) in *.
  clearbody w. revert w Hdead HI.
  induction later as [|e later IH]; intros w Hdead HI; [auto|].
  simpl. destruct (dispatch_dead env w e HI Hdead) as (Hj & Ht & Hr & _).
  destruct (IH (dispatch env w e) Hr (Inv_dispatch env w e HI)) as (H1 & H2 & H3).
  rewrite H1, H2, Ht, Hj. auto.
Qed.

End Final.

(** ** The spawned job: construction *)

Section Construction.
Import SpawnedJob.

Context {P : Platform}.
Variable env : Environment.

(** Making a job emits nothing. Either a child was spawned: it is
    watched, both output pipes are watched into empty buffers, the
    handler is connected to the token, stdin is fed exactly when there is
    an input string, and no idle source is pending. Or no child was
    spawned: the job holds no pid, no descriptor and no source, and one
    idle source, on the thread-default context and holding a reference,
    is pending with the error. *)
Theorem udisks_spawned_job_new_outcome (command_line : string)
    (input_string : option string) (cancellable : option bool) :
  let w0 := udisks_spawned_job_new env command_line input_string cancellable in
  let j := job w0 in
  trace w0 = [] /\ owner_ref w0 = true /\
  ((child_watch_source j = Some (g_child_watch_source_new (child_pid j)) /\
    0 < child_pid j /\ (0 < cancellable_handler_id j)%N /\
    child_stdout j = Some EmptyString /\ child_stderr j = Some EmptyString /\
    child_stdout_source j <> None /\ child_stderr_source j <> None /\
    (child_stdin_source j <> None <-> input_string <> None) /\
    idle_sources w0 = [] /\ ref_count w0 = 1%nat)
   \/
   (child_watch_source j = None /\ child_pid j = 0 /\ open_fds j = [] /\
    child_stdin_source j = None /\ child_stdout_source j = None /\
    child_stderr_source j = None /\ ref_count w0 = 2%nat /\
    exists error : GError,
      idle_sources w0
      = [{| idle_context := g_main_context_get_thread_default env;
            idle_error := error |}])).
Proof.
  unfold udisks_spawned_job_new, udisks_spawned_job_constructed,
    g_cancellable_set_error_if_cancelled.
  destruct cancellable as [[|]|]; simpl;
    try (destruct (g_shell_parse_argv env (c_str command_line)) as [e|argv];
         [|destruct (g_spawn_async_with_pipes env argv) as [e|child];
           [|destruct input_string]]);
    simpl;
    try match goal with
        | |- context [negb (?x =? -1)] =>
            let E := fresh "E" in
            destruct (Z.eqb_spec x (-1)) as [E|E]; [exfalso; lia|]; simpl
        end;
    (split; [reflexivity|]); (split; [reflexivity|]).
  all: first [ right; repeat split; eexists; reflexivity
             | left; repeat split;
               first [ reflexivity | discriminate | lia
                     | intros H; exfalso; apply H; reflexivity ] ].
Qed.

Lemma udisks_spawned_job_new_failure (command_line : string)
    (input_string : option string) (cancellable : option bool)
    (error : GError) (prefix : string) :
  default false cancellable = false ->
  (g_shell_parse_argv env (c_str command_line) = inl error /\
   prefix = "Error parsing command-line `" +:+ c_str command_line +:+ "': ")
  \/ (exists argv,
        g_shell_parse_argv env (c_str command_line) = inr argv /\
        g_spawn_async_with_pipes env argv = inl error /\
        prefix = "Error spawning command-line `" +:+ c_str command_line +:+ "': ") ->
  exists j : UDisksSpawnedJob,
    SpawnedJob.command_line j = c_str command_line /\
    udisks_spawned_job_new env command_line input_string cancellable
    = {| job := j; ref_count := 2; owner_ref := true; token_cancelled := false;
         idle_sources := [{| idle_context := main_context j;
                             idle_error := g_prefix_error prefix error |}];
         trace := [] |}.
Proof.
  intros Htok Hfail.
  exists (job (udisks_spawned_job_new env command_line input_string cancellable)).
  unfold udisks_spawned_job_new, udisks_spawned_job_constructed,
    g_cancellable_set_error_if_cancelled.
  destruct Hfail as [[Hparse ->]|(argv & Hparse & Hspawn & ->)];
    (destruct cancellable as [[|]|]; [discriminate Htok| |]);
    simpl; rewrite Hparse, ?Hspawn; simpl;
    unfold fmt_s; simpl; rewrite c_str_idempotent;
    (split; reflexivity).
Qed.

(** A command line that cannot be parsed, or a child that cannot be
    spawned, is reported from idle and not from the constructor: the
    first dispatch of the loop emits one completion that carries the
    error, prefixed with what failed and the command line, and, when no
    subscriber handles it, [job_completed] with failure and that message
    after the command line. *)
Theorem spawned_job_construction_failure_reported (command_line : string)
    (input_string : option string) (cancellable : option bool)
    (error : GError) (prefix : string) :
  default false cancellable = false ->
  (g_shell_parse_argv env (c_str command_line) = inl error /\
   prefix = "Error parsing command-line `" +:+ c_str command_line +:+ "': ")
  \/ (exists argv,
        g_shell_parse_argv env (c_str command_line) = inr argv /\
        g_spawn_async_with_pipes env argv = inl error /\
        prefix = "Error spawning command-line `" +:+ c_str command_line +:+ "': ") ->
  let w0 := udisks_spawned_job_new env command_line input_string cancellable in
  let failure := g_prefix_error prefix error in
  trace w0 = [] /\
  trace (run env [idle_dispatch] w0)
  = spawned_job_completed (Some failure) 0 None None
      :: (if subscriber env (Some failure) 0 None None then []
          else [job_completed false
                  ("Failed to execute command-line `" +:+ c_str command_line +:+ "': "
                     +:+ c_str (prefix +:+ message error) +:+ " ("
                     +:+ c_str (domain error) +:+ ", " +:+ fmt_d (code error) +:+ ")")]).
Proof.
  intros Htok Hfail. cbv zeta.
  destruct (udisks_spawned_job_new_failure command_line input_string cancellable
              error prefix Htok Hfail) as (j & Hcl & ->).
  clear Hfail. split; [reflexivity|].
  unfold run, fold_left, dispatch, idle_sources.
  unfold emit_completed_with_error_in_idle_cb, g_signal_emit, idle_error.
  destruct (subscriber env (Some (g_prefix_error prefix error)) 0 None None).
  - reflexivity.
  - unfold udisks_spawned_job_spawned_job_completed_default, fmt_s.
    cbn [log job with_idle_sources trace g_object_unref ref_count with_ref_count app
         message domain code g_prefix_error].
    rewrite Hcl, c_str_idempotent. reflexivity.
Qed.

(** The references counted are the ones held: the caller's, and one for
    each idle source that is pending. So the job is finalized exactly
    when the caller has dropped its reference and no idle source is
    pending, and a callback from idle never runs on a finalized job. *)
Theorem spawned_job_references_balanced (events : list Event) (command_line : string)
    (input_string : option string) (cancellable : option bool) :
  let w := run env events
             (udisks_spawned_job_new env command_line input_string cancellable) in
  ref_count w = ((if owner_ref w then 1 else 0) + length (idle_sources w))%nat /\
  (ref_count w = O <-> owner_ref w = false /\ idle_sources w = []).
Proof.
  cbv zeta.
  destruct (Inv_run env events command_line input_string cancellable) as [R _ _ _].
  split; [exact R|]. rewrite R.
  destruct (owner_ref _), (idle_sources _); simpl; split;
    first [ intros H; discriminate H | intros [H1 H2]; discriminate | auto ].
Qed.

End Construction.

(** ** Further runs of one job on Linux *)

Section FurtherExamples.
Import SpawnedJob.

Lemma spawned_job_stdin_closed_after_input_witness :
  written
    (trace (run (P := linux) cat_env [stdin_writable 4%nat; stdin_writable 10%nat]
              secret_job))
  = "secret".
Proof.
  apply (spawned_job_stdin_closed_after_input (P := linux) cat_env
           [stdin_writable 4%nat; stdin_writable 10%nat] "/bin/cat" (Some "secret") None
           0%nat).
  - vm_compute. discriminate.
  - vm_compute. reflexivity.
Defined.

Lemma spawned_job_output_captured_witness :
  let w :=
    run (P := linux) cat_env
      [stdout_readable "sec"; stderr_readable "warning"; stdout_readable "re"]
      secret_job in
  List.filter is_completion (trace (dispatch (P := linux) cat_env w (child_exited 0 (Some "t") None)))
  = List.filter is_completion (trace w)
      ++ [spawned_job_completed None 0 (Some "secret") (Some "warning")].
Proof.
  apply (spawned_job_output_captured (P := linux) cat_env
           [stdout_readable "sec"; stderr_readable "warning"; stdout_readable "re"]
           "/bin/cat" (Some "secret") None 0 (Some "t") None).
  vm_compute. discriminate.
Defined.

Lemma spawned_job_natural_completion_is_final_witness :
  completions
    (run (P := linux) sleep_env [token_cancel; idle_dispatch; owner_unref]
       (run (P := linux) sleep_env [child_exited 0 (Some EmptyString) (Some EmptyString)]
          (sleep_job (Some false))))
  = 1%nat.
Proof.
  apply (spawned_job_natural_completion_is_final (P := linux) sleep_env
           [child_exited 0 (Some EmptyString) (Some EmptyString)]
           [token_cancel; idle_dispatch; owner_unref] "/bin/sleep 60" None (Some false));
    vm_compute; reflexivity.
Defined.

Lemma spawned_job_finalized_is_inert_witness :
  let w := run (P := linux) sleep_env [owner_unref] (sleep_job None) in
  let later := [child_exited 0 None None; token_cancel; stdout_readable "x"; owner_unref] in
  trace (run (P := linux) sleep_env later w) = trace w /\
  job (run (P := linux) sleep_env later w) = job w /\
  ref_count (run (P := linux) sleep_env later w) = O.
Proof.
  apply (spawned_job_finalized_is_inert (P := linux) sleep_env [owner_unref]
           [child_exited 0 None None; token_cancel; stdout_readable "x"; owner_unref]
           "/bin/sleep 60" None None).
  vm_compute. reflexivity.
Defined.

Lemma spawned_job_construction_failure_reported_witness :
  let w0 := udisks_spawned_job_new unparsable_env "/bin/echo 'a" None None in
  trace w0 = [] /\
  trace (run (P := linux) unparsable_env [idle_dispatch] w0)
  = [spawned_job_completed
       (Some {| domain := "g-shell-error-quark"; code := 0;
                message :=
                  "Error parsing command-line `/bin/echo 'a': "
                    +:+ "Text ended before matching quote was found" |})
       0 None None;
     job_completed false
       ("Failed to execute command-line `/bin/echo 'a': "
          +:+ "Error parsing command-line `/bin/echo 'a': "
          +:+ "Text ended before matching quote was found (g-shell-error-quark, 0)")].
Proof.
  apply (spawned_job_construction_failure_reported (P := linux) unparsable_env
           "/bin/echo 'a" None None
           {| domain := "g-shell-error-quark"; code := 0;
              message := "Text ended before matching quote was found" |}
           "Error parsing command-line `/bin/echo 'a': ").
  - reflexivity.
  - left. split; reflexivity.
Defined.

End FurtherExamples.

